(** * A timeout-evicting poll server: model and verification

    Shallow embedding of [server.c].  The C program keeps a fixed table of
    [struct pollfd] slots (slot 0 is the listening socket), one POSIX timer
    per slot, and two [sig_atomic_t] flags set by signal handlers.  The
    embedding threads one explicit [state] through every function: the two
    arrays of [main], the two flags, [errno], the part of the kernel the
    program talks to (timers and open descriptors) and the trace of what the
    process wrote and which system calls it made.

    What the outside world decides (whether a system call fails, which
    descriptors are ready, which bytes arrive, when a signal is delivered)
    is an explicit argument of the function that makes the call.

    The two signal handlers only set a flag, and the program only reads
    the flags at the top of the loop and in the test of the loop over the
    sockets.  Delivery of SIGINT is therefore placed where the program can
    tell it: while the process is blocked in [poll], and between two turns
    of the loop over the sockets.  Time passes, and timers fire, at two
    places: while the process is blocked in [poll], where the signal of a
    timer interrupts the call, and between the test of the timeout flag
    and the entry into [poll], where it interrupts nothing. *)

From stdpp Require Import base numbers option list gmap strings sorting.
From Stdlib Require Import Strings.Byte.

Local Open Scope Z_scope.
#[local] Set Warnings "-clear-no-such-hyp".

(** ** Constants of the platform *)

Definition EXIT_SUCCESS : Z := 0.
Definition EXIT_FAILURE : Z := 1.

Definition EINTR  : Z := 4.
Definition EBADF  : Z := 9.
Definition EAGAIN : Z := 11.
Definition ENOMEM : Z := 12.
Definition EINVAL : Z := 22.

Definition POLLIN : Z := 1.

Definition SIGINT  : Z := 2.
Definition SIGUSR1 : Z := 10.

(** Signal to raise upon a client timeout. *)
Definition TIMEOUT_SIGNAL : Z := SIGUSR1.

(** ** Data *)

Record timespec := { tv_sec : Z; tv_nsec : Z }.

Record itimerspec := { it_interval : timespec; it_value : timespec }.

Record pollfd := { fd : Z; events : Z; revents : Z }.

(** A [timer_t] is the kernel's identifier of a timer. *)
Definition timer_t := nat.

(** What the process writes, and the system calls on descriptors, in the
    order they happen.  [Service i] marks the point where the event loop
    consumes the readiness event of slot [i] (the [--active] statement). *)
Inductive event :=
  | Perror (msg : string)
  | Eprintf (msg : string)
  | EprintfSignal (msg : string) (signal : Z)
  | EprintfClient (msg : string) (i : nat)
  | PrintfClient (i : nat) (payload : list byte)
  | SysAccept (lfd ret : Z)
  | SysRecv (cfd ret : Z)
  | SysClose (cfd : Z)
  | SysPoll (ret : Z)
  | Service (i : nat).

Global Instance byte_eq_dec : EqDecision byte := Byte.byte_eq_dec.

Global Instance timespec_eq_dec : EqDecision timespec.
Proof. solve_decision. Defined.

Global Instance itimerspec_eq_dec : EqDecision itimerspec.
Proof. solve_decision. Defined.

Global Instance event_eq_dec : EqDecision event.
Proof. solve_decision. Defined.

Record state := {
  k_timers : gmap timer_t itimerspec;   (* kernel: live timers, time left *)
  k_open : gset Z;                      (* kernel: open descriptors *)
  errno : Z;
  pfds : list pollfd;                   (* main's pollfd array *)
  timers : list timer_t;                (* main's timer_t array *)
  timeout_triggered : Z;
  interrupt_triggered : Z;
  trace : list event
}.

Definition with_k_timers (f : gmap timer_t itimerspec → gmap timer_t itimerspec)
    (s : state) : state :=
  {| k_timers := f (k_timers s); k_open := k_open s; errno := errno s;
     pfds := pfds s; timers := timers s;
     timeout_triggered := timeout_triggered s;
     interrupt_triggered := interrupt_triggered s; trace := trace s |}.

Definition with_k_open (f : gset Z → gset Z) (s : state) : state :=
  {| k_timers := k_timers s; k_open := f (k_open s); errno := errno s;
     pfds := pfds s; timers := timers s;
     timeout_triggered := timeout_triggered s;
     interrupt_triggered := interrupt_triggered s; trace := trace s |}.

Definition with_errno (e : Z) (s : state) : state :=
  {| k_timers := k_timers s; k_open := k_open s; errno := e;
     pfds := pfds s; timers := timers s;
     timeout_triggered := timeout_triggered s;
     interrupt_triggered := interrupt_triggered s; trace := trace s |}.

Definition with_pfds (f : list pollfd → list pollfd) (s : state) : state :=
  {| k_timers := k_timers s; k_open := k_open s; errno := errno s;
     pfds := f (pfds s); timers := timers s;
     timeout_triggered := timeout_triggered s;
     interrupt_triggered := interrupt_triggered s; trace := trace s |}.

Definition with_timers (f : list timer_t → list timer_t) (s : state) : state :=
  {| k_timers := k_timers s; k_open := k_open s; errno := errno s;
     pfds := pfds s; timers := f (timers s);
     timeout_triggered := timeout_triggered s;
     interrupt_triggered := interrupt_triggered s; trace := trace s |}.

Definition with_timeout_triggered (v : Z) (s : state) : state :=
  {| k_timers := k_timers s; k_open := k_open s; errno := errno s;
     pfds := pfds s; timers := timers s;
     timeout_triggered := v;
     interrupt_triggered := interrupt_triggered s; trace := trace s |}.

Definition with_interrupt_triggered (v : Z) (s : state) : state :=
  {| k_timers := k_timers s; k_open := k_open s; errno := errno s;
     pfds := pfds s; timers := timers s;
     timeout_triggered := timeout_triggered s;
     interrupt_triggered := v; trace := trace s |}.

Definition with_trace (f : list event → list event) (s : state) : state :=
  {| k_timers := k_timers s; k_open := k_open s; errno := errno s;
     pfds := pfds s; timers := timers s;
     timeout_triggered := timeout_triggered s;
     interrupt_triggered := interrupt_triggered s; trace := f (trace s) |}.

(** ** The monad of the program

    A call either completes, or ends the process through [exit], or runs
    into a store outside an array (undefined behaviour in C, a fault
    here). *)

Inductive outcome (A : Type) :=
  | Done (a : A) (s : state)
  | Exited (code : Z) (s : state)
  | Faulted (s : state).
Arguments Done {A} a s.
Arguments Exited {A} code s.
Arguments Faulted {A} s.

Definition M (A : Type) : Type := state → outcome A.

Global Instance M_ret : MRet M := λ A a s, Done a s.
Global Instance M_bind : MBind M := λ A B f m s,
  match m s with
  | Done a s' => f a s'
  | Exited c s' => Exited c s'
  | Faulted s' => Faulted s'
  end.

Definition gets {A} (f : state → A) : M A := λ s, Done (f s) s.
Definition modify (f : state → state) : M unit := λ s, Done tt (f s).
Definition exit {A} (code : Z) : M A := λ s, Exited code s.
Definition fault {A} : M A := λ s, Faulted s.

Definition emit (e : event) : M unit := modify (with_trace (λ t, t ++ [e])).
Definition perror (msg : string) : M unit := emit (Perror msg).

(** The state an outcome ends in. *)
Definition final {A} (o : outcome A) : state :=
  match o with Done _ s | Exited _ s | Faulted s => s end.

(** Array reads.  The C program reads only inside its arrays; outside, the
    model answers with a free slot and timer 0. *)
Definition free_pfd : pollfd := {| fd := -1; events := 0; revents := 0 |}.
Definition pfd_at (i : nat) : M pollfd := gets (λ s, default free_pfd (pfds s !! i)).
Definition no_timer : timer_t := 0%nat.
Definition timer_at (i : nat) : M timer_t := gets (λ s, default no_timer (timers s !! i)).

Definition set_fd (v : Z) (p : pollfd) : pollfd :=
  {| fd := v; events := events p; revents := revents p |}.
Definition set_events (v : Z) (p : pollfd) : pollfd :=
  {| fd := fd p; events := v; revents := revents p |}.
Definition set_revents (v : Z) (p : pollfd) : pollfd :=
  {| fd := fd p; events := events p; revents := v |}.

Definition store_fd (i : nat) (v : Z) : M unit :=
  modify (with_pfds (λ l, alter (set_fd v) i l)).
Definition store_events (i : nat) (v : Z) : M unit :=
  modify (with_pfds (λ l, alter (set_events v) i l)).

(** ** The kernel: POSIX timers

    The kernel keeps, for every live timer, the time left until it fires;
    zero means the timer is not armed.  The program only ever uses one-shot
    timers ([it_interval] zero).  [timer_settime], [timer_gettime] and
    [timer_delete] fail with EINVAL exactly on an identifier that is not a
    live timer (or, for [timer_settime], on a malformed time); whether
    [timer_create] finds the resources is the environment's choice. *)

Definition zero_timespec : timespec := {| tv_sec := 0; tv_nsec := 0 |}.
Definition zero_itimerspec : itimerspec :=
  {| it_interval := zero_timespec; it_value := zero_timespec |}.

Definition NSEC_PER_SEC : Z := 1000000000.

Definition valid_timespec (ts : timespec) : bool :=
  bool_decide (0 ≤ tv_sec ts) && bool_decide (0 ≤ tv_nsec ts < NSEC_PER_SEC).

Definition timer_create (ok : bool) (i : nat) : M Z := λ s,
  if ok then
    let id := fresh (dom (k_timers s)) in
    Done 0 (with_timers (λ l, <[i := id]> l)
             (with_k_timers (λ m, <[id := zero_itimerspec]> m) s))
  else Done (-1) (with_errno EAGAIN s).

Definition timer_delete (timer : timer_t) : M Z := λ s,
  match k_timers s !! timer with
  | Some _ => Done 0 (with_k_timers (λ m, delete timer m) s)
  | None => Done (-1) (with_errno EINVAL s)
  end.

Definition timer_settime (timer : timer_t) (new : itimerspec) : M Z := λ s,
  match k_timers s !! timer with
  | Some _ =>
      if valid_timespec (it_value new) && valid_timespec (it_interval new)
      then Done 0 (with_k_timers (λ m, <[timer := new]> m) s)
      else Done (-1) (with_errno EINVAL s)
  | None => Done (-1) (with_errno EINVAL s)
  end.

Definition timer_gettime (timer : timer_t) : M (Z * itimerspec) := λ s,
  match k_timers s !! timer with
  | Some its => Done (0, its) s
  | None => Done (-1, zero_itimerspec) (with_errno EINVAL s)
  end.

(** Time passing.  [d] nanoseconds go by: every armed timer loses [d] of
    its remaining time; one that reaches zero fires, is left disarmed, and
    the process receives TIMEOUT_SIGNAL. *)
Definition nanoseconds (ts : timespec) : Z := tv_sec ts * NSEC_PER_SEC + tv_nsec ts.

Definition timespec_of (ns : Z) : timespec :=
  {| tv_sec := ns `div` NSEC_PER_SEC; tv_nsec := ns `mod` NSEC_PER_SEC |}.

Definition armed (its : itimerspec) : bool :=
  negb (bool_decide (tv_sec (it_value its) = 0 ∧ tv_nsec (it_value its) = 0)).

Definition tick (d : Z) (its : itimerspec) : itimerspec :=
  {| it_interval := it_interval its;
     it_value := timespec_of (Z.max 0 (nanoseconds (it_value its) - d)) |}.

Definition fires (d : Z) (its : itimerspec) : bool :=
  armed its && bool_decide (nanoseconds (it_value its) ≤ d).

(** ** The kernel: descriptors *)

Definition close (cfd : Z) : M Z := λ s,
  let s := with_trace (λ t, t ++ [SysClose cfd]) s in
  if decide (cfd ∈ k_open s)
  then Done 0 (with_k_open (λ o, o ∖ {[cfd]}) s)
  else Done (-1) (with_errno EBADF s).

(** [accept] on the listening descriptor: the environment either hands
    over a connection on descriptor [c] or makes the call fail. *)
Inductive accept_outcome := Accepted (c : Z) | AcceptFailed (e : Z).

Definition accept (o : accept_outcome) (lfd : Z) : M Z := λ s,
  match o with
  | Accepted c =>
      if decide (0 ≤ c)
      then Done c (with_k_open (λ op, {[c]} ∪ op)
                    (with_trace (λ t, t ++ [SysAccept lfd c]) s))
      else Done (-1) (with_errno EINVAL (with_trace (λ t, t ++ [SysAccept lfd (-1)]) s))
  | AcceptFailed e =>
      Done (-1) (with_errno e (with_trace (λ t, t ++ [SysAccept lfd (-1)]) s))
  end.

(** [recv] into a buffer of the caller: the environment either delivers
    the bytes waiting on the connection (none when the peer has closed) or
    makes the call fail.  The kernel copies at most [len] of them to the
    front of the buffer and returns how many. *)
Inductive recv_outcome := Received (data : list byte) | RecvFailed (e : Z).

Definition recv (o : recv_outcome) (cfd : Z) (buffer : list byte) (len : nat)
    : M (Z * list byte) := λ s,
  match o with
  | Received data =>
      let got := take len data in
      let ret := Z.of_nat (length got) in
      Done (ret, got ++ drop (length got) buffer)
           (with_trace (λ t, t ++ [SysRecv cfd ret]) s)
  | RecvFailed e =>
      Done (-1, buffer) (with_errno e (with_trace (λ t, t ++ [SysRecv cfd (-1)]) s))
  end.

(** ** Signal handlers *)

Definition interrupt_handler (sig : Z) : M unit :=
  modify (with_interrupt_triggered 1).

Definition timeout_handler (sig : Z) : M unit :=
  modify (with_timeout_triggered 1).

(** Delivery of SIGINT at a point of the program, if the environment
    sends one there. *)
Definition deliver_sigint (now : bool) : M unit :=
  if now then interrupt_handler SIGINT else mret tt.

(** [d] nanoseconds pass; the timers that fire raise TIMEOUT_SIGNAL, whose
    handler runs. *)
Definition elapse (d : Z) : M unit :=
  fired ← gets (λ s, bool_decide (map_Exists (λ _ its, fires d its = true) (k_timers s)));
  modify (with_k_timers (λ m, tick d <$> m));;
  if (fired : bool) then timeout_handler TIMEOUT_SIGNAL else mret tt.

(** [poll] over the first [n] slots.  While the process is blocked, time
    passes and SIGINT may arrive.  Then the call either fails, or reports
    for every slot the events the environment found pending; a slot with a
    negative descriptor is ignored and its [revents] cleared.  The return
    value counts the slots with a non-zero [revents].  A call that a
    signal interrupts (EINTR) has found no event and writes that back:
    the [revents] of the [n] slots are cleared.  On any other failure the
    kernel has not looked at the slots and leaves them as they are. *)
Inductive poll_outcome := Ready (bits : list Z) | PollFailed (e : Z).

Definition poll_revents (bits : list Z) (i : nat) (p : pollfd) : pollfd :=
  set_revents (if decide (fd p < 0) then 0 else default 0 (bits !! i)) p.

Definition count_ready (l : list pollfd) : Z :=
  Z.of_nat (length (filter (λ p, revents p ≠ 0) l)).

Definition poll (elapsed : Z) (sigint : bool) (o : poll_outcome) (n : nat) : M Z :=
  elapse elapsed;;
  deliver_sigint sigint;;
  match o with
  | Ready bits =>
      modify (with_pfds (λ l, imap (poll_revents bits) (take n l) ++ drop n l));;
      ret ← gets (λ s, count_ready (take n (pfds s)));
      emit (SysPoll ret);;
      mret ret
  | PollFailed e =>
      (if decide (e = EINTR)
       then modify (with_pfds (λ l, imap (poll_revents []) (take n l) ++ drop n l))
       else mret tt);;
      modify (with_errno e);;
      emit (SysPoll (-1));;
      mret (-1)
  end.

(** ** What the environment decides *)

(** During start-up: the return values of the calls that set up the signal
    handlers and the listening socket, and which [timer_create] calls
    succeed. *)
Record init_env := {
  sigemptyset_ret : Z → Z;      (* by signal number *)
  sigaction_ret : Z → Z;
  create_ok : nat → bool;       (* by index of the call *)
  socket_ret : Z;
  setsockopt_ret : Z;
  fcntl_getfl_ret : Z;
  fcntl_setfl_ret : Z;
  bind_ret : Z;
  listen_ret : Z
}.

(** During one pass of the event loop. *)
Record pass_env := {
  window_elapsed : Z;               (* nanoseconds between the test of the
                                       timeout flag and the entry into poll *)
  poll_elapsed : Z;                 (* nanoseconds spent blocked in poll *)
  poll_sigint : bool;               (* SIGINT arrives while blocked in poll *)
  poll_result : poll_outcome;
  accept_result : accept_outcome;
  recv_result : nat → recv_outcome;   (* by slot *)
  stack_bytes : nat → list byte;      (* what the fresh buffer holds, by slot *)
  sigint_during : nat → bool          (* SIGINT arrives while slot i is handled *)
}.

(** Checked store into the receive buffer. *)
Definition buffer_store (buffer : list byte) (idx : Z) (b : byte) : M (list byte) :=
  if decide (0 ≤ idx < Z.of_nat (length buffer))
  then mret (<[Z.to_nat idx := b]> buffer)
  else fault.

(** What printf's %s shows of a buffer: the bytes before the first NUL. *)
Fixpoint c_string (buffer : list byte) : list byte :=
  match buffer with
  | [] => []
  | b :: rest => if Byte.eqb b x00 then [] else b :: c_string rest
  end.

(** Result of one turn of the body of a loop inside [event_loop]: go on
    with the next index, or return from [event_loop]. *)
Inductive flow := Next (active : Z) | Return (r : Z).

(** ** The program *)

Section Server.

(** Maximum number of clients (including the master socket). Must be > 1.
    [server.c] has 10. *)
Variable MAX_CONNECTIONS : nat.

(** Size of the server's receive buffer, including allocation for a
    1-byte null terminator (hence must be > 1).  [server.c] has 1024. *)
Variable BUFFER_SIZE : nat.

(** Default client timeout in seconds.  [server.c] has 30. *)
Variable TIMEOUT : Z.

Fixpoint destroy_timers_from (k i : nat) : M Z :=
  match k with
  | O => mret 0
  | S k' =>
      timer ← timer_at i;
      r ← timer_delete timer;
      if decide (r ≠ 0) then
        perror "Failed to destroy timer";;
        mret 1
      else destroy_timers_from k' (S i)
  end.

(** for (i = 0; i < n; ++i) *)
Definition destroy_timers (n : nat) : M Z := destroy_timers_from n 0.

Fixpoint create_timers_from (ok : nat → bool) (k i : nat) : M Z :=
  match k with
  | O => mret 0
  | S k' =>
      r ← timer_create (ok i) i;
      if decide (r ≠ 0) then
        perror "Failed to create timer";;
        destroy_timers i;;
        mret 1
      else create_timers_from ok k' (S i)
  end.

Definition create_timers (ok : nat → bool) (n : nat) : M Z :=
  create_timers_from ok n 0.

Definition arm_timer (timer : timer_t) : M Z :=
  let its := {| it_interval := zero_timespec;
                it_value := {| tv_sec := TIMEOUT; tv_nsec := 0 |} |} in
  r ← timer_settime timer its;
  if decide (r ≠ 0) then
    perror "Failed to arm timer";;
    mret 1
  else mret 0.

Definition disarm_timer (timer : timer_t) : M Z :=
  let its := zero_itimerspec in
  r ← timer_settime timer its;
  if decide (r ≠ 0) then
    perror "Failed to disarm timer";;
    mret 1
  else mret 0.

Definition timer_expired (timer : timer_t) : M bool :=
  '(r, its) ← timer_gettime timer;
  if decide (r ≠ 0) then
    perror "Failed to get state of timer";;
    exit EXIT_FAILURE
  else if decide (tv_sec (it_value its) = 0 ∧ tv_nsec (it_value its) = 0)
  then mret true
  else mret false.

(** [pfd] is [&pfds[i]]. *)
Definition close_connection (i : nat) (timer : timer_t) : M unit :=
  disarm_timer timer;;
  pfd ← pfd_at i;
  close (fd pfd);;
  store_fd i (-1).

Definition initialise_listening_socket (ienv : init_env) : M Z :=
  (* Create server's master socket. *)
  let s := socket_ret ienv in
  if decide (s < 0) then
    perror "Failed to create socket";;
    mret 1
  else
  modify (with_k_open (λ o, {[s]} ∪ o));;
  (* Allow rebinding of the listening address and port. *)
  if decide (setsockopt_ret ienv ≠ 0) then
    perror "Failed to set socket for reuse";;
    close s;;
    mret 1
  else
  (* Set the socket's O_NONBLOCK flag so its I/O is nonblocking. *)
  let flags := fcntl_getfl_ret ienv in
  if decide (flags = -1) then
    perror "Failed to get socket flags";;
    close s;;
    mret 1
  else
  if decide (fcntl_setfl_ret ienv ≠ 0) then
    perror "Failed to set socket to nonblocking mode";;
    close s;;
    mret 1
  else
  (* Bind the socket to its address. *)
  if decide (bind_ret ienv ≠ 0) then
    perror "Failed to bind socket";;
    close s;;
    mret 1
  else
  (* Set socket to listen. *)
  if decide (listen_ret ienv ≠ 0) then
    perror "Failed to set socket to a listening state";;
    close s;;
    mret 1
  else
  store_fd 0 s;;
  store_events 0 POLLIN;;
  mret 0.

(** The search of [accept_connection] for a spare slot, from slot [i],
    with [k] slots left to look at. *)
Fixpoint find_slot (s : Z) (k i : nat) : M Z :=
  match k with
  | O =>
      emit (Eprintf "Too many connections already accepted");;
      close s;;
      mret 1
  | S k' =>
      pfd ← pfd_at i;
      if decide (fd pfd < 0) then
        store_fd i s;;
        store_events i POLLIN;;
        (* Arm the client's timeout timer. *)
        timer ← timer_at i;
        r ← arm_timer timer;
        if decide (r ≠ 0) then
          close_connection i timer;;
          mret 1
        else
          emit (EprintfClient "Client %zu connected" i);;
          mret 0
      else find_slot s k' (S i)
  end.

Definition accept_connection (o : accept_outcome) : M Z :=
  (* Accept connection request. *)
  pfd0 ← pfd_at 0;
  s ← accept o (fd pfd0);
  if decide (s < 0) then
    perror "Failed to accept connection request";;
    mret 1
  else
    (* for (i = 1; i < MAX_CONNECTIONS; ++i) *)
    find_slot s (MAX_CONNECTIONS - 1) 1.

Definition initialise_signal_handler (ienv : init_env) (signal : Z) : M Z :=
  if decide (sigemptyset_ret ienv signal ≠ 0) then
    perror "Failed to initialise the signal mask";;
    mret 1
  else if decide (sigaction_ret ienv signal ≠ 0) then
    emit (EprintfSignal "Failed to change signal %d action to handler" signal);;
    perror "";;
    mret 1
  else mret 0.

Fixpoint clear_slots (k i : nat) : M unit :=
  match k with
  | O => mret tt
  | S k' => store_fd i (-1);; clear_slots k' (S i)
  end.

Definition initialise_server (ienv : init_env) (n : nat) : M Z :=
  clear_slots n 0;;
  emit (Eprintf "Enabling timeout handler");;
  r ← initialise_signal_handler ienv TIMEOUT_SIGNAL;
  if decide (r ≠ 0) then mret 1 else
  emit (Eprintf "Enabling interrupt handler");;
  r ← initialise_signal_handler ienv SIGINT;
  if decide (r ≠ 0) then mret 1 else
  emit (Eprintf "Creating timeout timers");;
  r ← create_timers (create_ok ienv) n;
  if decide (r ≠ 0) then mret 1 else
  emit (Eprintf "Initialising listening socket");;
  r ← initialise_listening_socket ienv;
  if decide (r ≠ 0) then
    destroy_timers n;;
    mret 1
  else
  emit (Eprintf "Server initialised");;
  mret 0.

Fixpoint close_all (k i : nat) : M unit :=
  match k with
  | O => mret tt
  | S k' =>
      timer ← timer_at i;
      close_connection i timer;;
      close_all k' (S i)
  end.

(** The parameter [n] is not used by [server.c] either. *)
Definition shutdown_server (n : nat) : M Z :=
  emit (Eprintf "Closing all client connections");;
  close_all MAX_CONNECTIONS 0;;
  emit (Eprintf "Destroying timeout timers");;
  destroy_timers MAX_CONNECTIONS;;
  emit (Eprintf "Server shut down");;
  mret 0.

(** The scan of the timers, from slot [i], with [k] slots left. *)
Fixpoint check_timeouts (k i : nat) : M unit :=
  match k with
  | O => mret tt
  | S k' =>
      timer ← timer_at i;
      pfd ← pfd_at i;
      (if decide (0 ≤ fd pfd) then
         expired ← timer_expired timer;
         if (expired : bool) then
           emit (EprintfClient "Client %zu timed out" i);;
           close_connection i timer
         else mret tt
       else mret tt);;
      check_timeouts k' (S i)
  end.

(** One turn of the loop over the sockets, at slot [i]. *)
Definition serve (env : pass_env) (i : nat) (active : Z) : M flow :=
  pfd ← pfd_at i;
  timer ← timer_at i;
  (* Skip empty client slots or clients without any I/O events. *)
  if decide (fd pfd < 0 ∨ revents pfd = 0) then mret (Next active) else
  let active := active - 1 in
  emit (Service i);;
  (* We are only polling for input, so any other event flags set will be
     relating to error events. *)
  if decide (Z.land (revents pfd) POLLIN = 0) then
    close_connection i timer;;
    mret (Next active)
  else
  (* The 0th index is reserved for the master socket. *)
  if decide (i = 0%nat) then
    accept_connection (accept_result env);;
    mret (Next active)
  else
  (* Else: there is data to be received from a client. We reset their
     read timeout. *)
  r ← arm_timer timer;
  if decide (r ≠ 0) then
    close_connection i timer;;
    mret (Next active)
  else
  (* Read the client's data. Save the final byte for a null terminator.
   BUFFER_SIZE - 1U does not wrap as long as BUFFER_SIZE is not 0. *)
  let buffer := resize BUFFER_SIZE x00 (stack_bytes env i) in
  pfd ← pfd_at i;
  '(ret, buffer) ← recv (recv_result env i) (fd pfd) buffer (BUFFER_SIZE - 1);
  if decide (ret = 0) then
    emit (EprintfClient "Client %zu disconnected" i);;
    close_connection i timer;;
    mret (Next active)
  else if decide (ret < 0) then
    e ← gets errno;
    if decide (e = EINTR) then mret (Next active) else
    emit (EprintfClient "Failed read client %zu's data" i);;
    perror "";;
    mret (Return 1)
  else
  (* Ensure null-byte termination of the buffer. *)
  buffer ← buffer_store buffer ret x00;
  emit (PrintfClient i (c_string buffer));;
  mret (Next active).

(** for (i = 0; i < MAX_CONNECTIONS && active > 0 && !interrupt_triggered; ++i),
    from slot [i] with [k] slots left.  [None]: the loop is over and
    [event_loop] goes on; [Some r]: [event_loop] returns [r]. *)
Fixpoint process_events (env : pass_env) (k i : nat) (active : Z) : M (option Z) :=
  match k with
  | O => mret None
  | S k' =>
      it ← gets interrupt_triggered;
      if decide (0 < active ∧ it = 0) then
        f ← serve env i active;
        match f with
        | Return r => mret (Some r)
        | Next active =>
            deliver_sigint (sigint_during env i);;
            process_events env k' (S i) active
        end
      else mret None
  end.

(** Up to the call of poll: the two flags. [Some r]: [event_loop]
    returns [r]. *)
Definition before_poll (n : nat) : M (option Z) :=
  (* If an interrupt signal (Ctrl-C) is raised. *)
  it ← gets interrupt_triggered;
  if decide (it ≠ 0) then mret (Some 0) else
  tt_ ← gets timeout_triggered;
  (if decide (tt_ ≠ 0) then
     (* Reset flag at start of check. *)
     modify (with_timeout_triggered 0);;
     (* for (i = 1; i < n; ++i) *)
     check_timeouts (n - 1) 1
   else mret tt);;
  mret None.

(** One pass through the body of while (1). *)
Definition pass (env : pass_env) (n : nat) : M (option Z) :=
  early ← before_poll n;
  match early with
  | Some r => mret (Some r)
  | None =>
      elapse (window_elapsed env);;
      (* Poll sockets for any activity. *)
      active ← poll (poll_elapsed env) (poll_sigint env) (poll_result env) n;
      if decide (active ≤ 0) then
        e ← gets errno;
        if decide (e = EINTR) then mret None else
        perror "Failed to poll sockets";;
        mret (Some 0)
      else process_events env MAX_CONNECTIONS 0 active
  end.

(** while (1), against the passes the environment plays.  [None]: the
    loop is still running when the script ends. *)
Fixpoint event_loop (script : list pass_env) (n : nat) : M (option Z) :=
  match script with
  | [] => mret None
  | env :: rest =>
      r ← pass env n;
      match r with
      | Some v => mret (Some v)
      | None => event_loop rest n
      end
  end.

(** [None]: the process is still running when the script ends;
    [Some c]: main returns [c]. *)
Definition main (ienv : init_env) (script : list pass_env) : M (option Z) :=
  r ← initialise_server ienv MAX_CONNECTIONS;
  if decide (r ≠ 0) then mret (Some EXIT_FAILURE) else
  (* Enter the main event loop. *)
  r ← event_loop script MAX_CONNECTIONS;
  match r with
  | None => mret None
  | Some v =>
      let exit_status := if decide (v ≠ 0) then EXIT_FAILURE else EXIT_SUCCESS in
      (* Close all connections and destroy the timers. *)
      shutdown_server MAX_CONNECTIONS;;
      mret (Some exit_status)
  end.

(** The status the process ends with, if it has ended. *)
Definition exit_status_of (o : outcome (option Z)) : option Z :=
  match o with
  | Done r _ => r
  | Exited c _ => Some c
  | Faulted _ => None
  end.

End Server.

(** ** Notions used in the statements *)

(** A slot is occupied when its descriptor is not negative. *)
Definition occupied (p : pollfd) : Prop := 0 ≤ fd p.

Global Instance occupied_dec p : Decision (occupied p).
Proof. unfold occupied. apply _. Defined.

(** Number of occupied client slots (slot 0 is the listener). *)
Definition occupied_clients (l : list pollfd) : nat :=
  length (filter occupied (drop 1 l)).

(** What [timer_expired] tests. *)
Definition no_time_left (its : itimerspec) : Prop :=
  tv_sec (it_value its) = 0 ∧ tv_nsec (it_value its) = 0.

(** The timer array holds live kernel timers, a different one per slot. *)
Definition timers_live (s : state) : Prop :=
  NoDup (timers s) ∧ Forall (λ t, is_Some (k_timers s !! t)) (timers s).

Global Instance timers_live_dec s : Decision (timers_live s).
Proof. unfold timers_live. apply _. Defined.

(** The slots whose events a trace shows consumed, in order. *)
Definition services (tr : list event) : list nat :=
  omap (λ e, match e with Service i => Some i | _ => None end) tr.

Definition is_poll (e : event) : bool :=
  match e with SysPoll _ => true | _ => false end.

(** Both arrays keep their sizes. *)
Definition same_shape (s s' : state) : Prop :=
  length (pfds s') = length (pfds s) ∧ length (timers s') = length (timers s).

(** Nothing but the trace grows, by events that are neither a poll nor
    the consumption of a readiness event, and no [revents] changes. *)
Definition quietly (s s' : state) : Prop :=
  revents <$> pfds s' = revents <$> pfds s ∧
  ∃ tr, trace s' = trace s ++ tr ∧ services tr = [] ∧ filter is_poll tr = [].

(** [m] relates every state to the one it ends in. *)
Definition keeps {A} (R : relation state) (m : M A) : Prop :=
  ∀ s, R s (final (m s)).

(** The report of an eviction. *)
Definition timed_out_msg (j : nat) : event := EprintfClient "Client %zu timed out" j.

(** What the scan of the timers from slot [i] over [k] slots has done when
    it takes [s] to [s'] and adds [tr] to the trace. *)
Definition scanned (i k : nat) (s s' : state) (tr : list event) : Prop :=
  timers s' = timers s ∧
  length (pfds s') = length (pfds s) ∧
  dom (k_timers s') = dom (k_timers s) ∧
  k_open s' ⊆ k_open s ∧
  timeout_triggered s' = timeout_triggered s ∧
  interrupt_triggered s' = interrupt_triggered s ∧
  trace s' = trace s ++ tr ∧
  services tr = [] ∧ filter is_poll tr = [] ∧
  (∀ j p t its,
     pfds s !! j = Some p → timers s !! j = Some t → k_timers s !! t = Some its →
     (i ≤ j ∧ j < i + k)%nat → occupied p → no_time_left its →
     pfds s' !! j = Some (set_fd (-1) p) ∧
     k_timers s' !! t = Some zero_itimerspec ∧
     (fd p ∉ k_open s') ∧
     timed_out_msg j ∈ tr ∧ SysClose (fd p) ∈ tr) ∧
  (∀ j p t its,
     pfds s !! j = Some p → timers s !! j = Some t → k_timers s !! t = Some its →
     ¬ ((i ≤ j ∧ j < i + k)%nat ∧ occupied p ∧ no_time_left its) →
     pfds s' !! j = Some p ∧
     k_timers s' !! t = Some its ∧
     timed_out_msg j ∉ tr).

(** [m] never runs into a store outside an array. *)
Definition never_faults {A} (m : M A) : Prop := ∀ s s', m s ≠ Faulted s'.

(** [create_timers], started in [base], has created the timers of the
    first [i] slots of the array when it is in [s]: they are distinct, new,
    and not armed, and the kernel's other timers are as in [base]. *)
Definition created (base : state) (i : nat) (s : state) : Prop :=
  length (timers s) = length (timers base) ∧
  NoDup (take i (timers s)) ∧
  (∀ t, t ∈ take i (timers s) →
        k_timers base !! t = None ∧ k_timers s !! t = Some zero_itimerspec) ∧
  (∀ t, t ∉ take i (timers s) → k_timers s !! t = k_timers base !! t).

(** The reading of "the loop exits only after completing the processing
    of the readiness events already observed in the current iteration":
    when a pass that began without a pending flag ends with the interrupt
    flag set, every occupied slot for which its [poll] reported an event
    has had that event consumed in the pass. *)
Definition completes_observed_events (N B : nat) (T : Z) : Prop :=
  ∀ env s s' bits i p b,
    interrupt_triggered s = 0 → timeout_triggered s = 0 →
    poll_result env = Ready bits →
    pfds s !! i = Some p → occupied p → (i < N)%nat →
    bits !! i = Some b → b ≠ 0 →
    pass N B T env N s = Done None s' → interrupt_triggered s' ≠ 0 →
    ∃ tr, trace s' = trace s ++ tr ∧ Service i ∈ tr.

(** ** Concrete runs *)

Module Demo.

(** The constants of [server.c]. *)
Definition MAX_CONNECTIONS : nat := 10.
Definition BUFFER_SIZE : nat := 1024.
Definition TIMEOUT : Z := 30.

Definition armed_for (sec : Z) : itimerspec :=
  {| it_interval := zero_timespec; it_value := {| tv_sec := sec; tv_nsec := 0 |} |}.

Definition slot (d re : Z) : pollfd := {| fd := d; events := POLLIN; revents := re |}.

(** A table of three slots, all occupied: the listener on descriptor 3,
    clients on 4 and 5, their timers armed with 30 and 12 seconds left. *)
Definition full : state :=
  {| k_timers := {[ 0%nat := zero_itimerspec; 1%nat := armed_for 30;
                    2%nat := armed_for 12 ]};
     k_open := {[ 0; 1; 2; 3; 4; 5 ]};
     errno := 0;
     pfds := [slot 3 0; slot 4 0; slot 5 0];
     timers := [0; 1; 2]%nat;
     timeout_triggered := 0;
     interrupt_triggered := 0;
     trace := [] |}.

(** The same table when the timer of slot 1 has fired and its signal has
    been handled. *)
Definition fired1 : state :=
  {| k_timers := {[ 0%nat := zero_itimerspec; 1%nat := zero_itimerspec;
                    2%nat := armed_for 12 ]};
     k_open := {[ 0; 1; 2; 3; 4; 5 ]};
     errno := 0;
     pfds := [slot 3 0; slot 4 0; slot 5 0];
     timers := [0; 1; 2]%nat;
     timeout_triggered := 1;
     interrupt_triggered := 0;
     trace := [] |}.

(** The table with slot 1 free and its timer disarmed. *)
Definition free1 : state :=
  {| k_timers := {[ 0%nat := zero_itimerspec; 1%nat := zero_itimerspec;
                    2%nat := armed_for 12 ]};
     k_open := {[ 0; 1; 2; 3; 5 ]};
     errno := 0;
     pfds := [slot 3 0; slot (-1) 0; slot 5 0];
     timers := [0; 1; 2]%nat;
     timeout_triggered := 0;
     interrupt_triggered := 0;
     trace := [] |}.

(** The full table when [poll] has reported input on slot 1. *)
Definition ready1 : state :=
  {| k_timers := {[ 0%nat := zero_itimerspec; 1%nat := armed_for 30;
                    2%nat := armed_for 12 ]};
     k_open := {[ 0; 1; 2; 3; 4; 5 ]};
     errno := 0;
     pfds := [slot 3 0; slot 4 POLLIN; slot 5 0];
     timers := [0; 1; 2]%nat;
     timeout_triggered := 0;
     interrupt_triggered := 0;
     trace := [SysPoll 1] |}.

(** A pass in which [poll] is interrupted after [sec] seconds. *)
Definition interrupted_after (sec : Z) : pass_env :=
  {| window_elapsed := 0;
     poll_elapsed := sec * NSEC_PER_SEC; poll_sigint := false;
     poll_result := PollFailed EINTR;
     accept_result := AcceptFailed EAGAIN;
     recv_result := λ _, RecvFailed EAGAIN;
     stack_bytes := λ _, [];
     sigint_during := λ _, false |}.

(** A pass in which [poll] fails for want of memory. *)
Definition poll_fails : pass_env :=
  {| window_elapsed := 0;
     poll_elapsed := 0; poll_sigint := false;
     poll_result := PollFailed ENOMEM;
     accept_result := AcceptFailed EAGAIN;
     recv_result := λ _, RecvFailed EAGAIN;
     stack_bytes := λ _, [];
     sigint_during := λ _, false |}.

(** A pass in which both clients have sent two bytes, and SIGINT arrives
    while the slots for which [sigint] holds are handled. *)
Definition both_ready (sigint : nat → bool) : pass_env :=
  {| window_elapsed := 0;
     poll_elapsed := NSEC_PER_SEC; poll_sigint := false;
     poll_result := Ready [0; POLLIN; POLLIN];
     accept_result := AcceptFailed EAGAIN;
     recv_result := λ i, Received (if decide (i = 1%nat) then ["h"; "i"] else ["y"; "o"])%byte;
     stack_bytes := λ _, [];
     sigint_during := sigint |}.

(** A pass in which the read from slot 1 is interrupted. *)
Definition read_interrupted : pass_env :=
  {| window_elapsed := 0;
     poll_elapsed := NSEC_PER_SEC; poll_sigint := false;
     poll_result := Ready [0; POLLIN; 0];
     accept_result := AcceptFailed EAGAIN;
     recv_result := λ _, RecvFailed EINTR;
     stack_bytes := λ _, [];
     sigint_during := λ _, false |}.

(** A pass in which the read from slot 1 fails with ENOMEM. *)
Definition read_fails : pass_env :=
  {| window_elapsed := 0;
     poll_elapsed := NSEC_PER_SEC; poll_sigint := false;
     poll_result := Ready [0; POLLIN; 0];
     accept_result := AcceptFailed EAGAIN;
     recv_result := λ _, RecvFailed ENOMEM;
     stack_bytes := λ _, [];
     sigint_during := λ _, false |}.

(** A pass in which a connection arrives on descriptor [c]. *)
Definition connection (c : Z) : pass_env :=
  {| window_elapsed := 0;
     poll_elapsed := NSEC_PER_SEC; poll_sigint := false;
     poll_result := Ready [POLLIN];
     accept_result := Accepted c;
     recv_result := λ _, RecvFailed EAGAIN;
     stack_bytes := λ _, [];
     sigint_during := λ _, false |}.

(** A pass in which SIGINT arrives while the process is blocked. *)
Definition ctrl_c : pass_env :=
  {| window_elapsed := 0;
     poll_elapsed := NSEC_PER_SEC; poll_sigint := true;
     poll_result := PollFailed EINTR;
     accept_result := AcceptFailed EAGAIN;
     recv_result := λ _, RecvFailed EAGAIN;
     stack_bytes := λ _, [];
     sigint_during := λ _, false |}.

(** A start-up in which every call succeeds; the listening socket gets
    descriptor 3. *)
Definition startup_ok : init_env :=
  {| sigemptyset_ret := λ _, 0; sigaction_ret := λ _, 0;
     create_ok := λ _, true;
     socket_ret := 3; setsockopt_ret := 0;
     fcntl_getfl_ret := 2; fcntl_setfl_ret := 0;
     bind_ret := 0; listen_ret := 0 |}.

(** The process when [main] begins: the two arrays hold whatever the
    stack held, the kernel has no timer of this process, and the standard
    descriptors are open. *)
Definition boot : state :=
  {| k_timers := ∅;
     k_open := {[ 0; 1; 2 ]};
     errno := 0;
     pfds := replicate MAX_CONNECTIONS {| fd := 77; events := 5; revents := 9 |};
     timers := replicate MAX_CONNECTIONS 7%nat;
     timeout_triggered := 0;
     interrupt_triggered := 0;
     trace := [] |}.

(** The server of [server.c] with two clients: the state [main] is in
    after a start-up without failure and two passes that accept a
    connection each, on descriptors 4 and 5. *)
Definition two_clients : state :=
  final (event_loop MAX_CONNECTIONS BUFFER_SIZE TIMEOUT
           [connection 4; connection 5] MAX_CONNECTIONS
           (final (initialise_server startup_ok MAX_CONNECTIONS boot))).

End Demo.

(** ** Further notions used in the statements *)

(** ** Further notions about the server *)

(** [m] always runs to completion: it neither ends the process nor
    faults. *)
Definition completes {A} (m : M A) : Prop := ∀ s, ∃ a s', m s = Done a s'.

(** The timer array, the set of live timers and the size of the table are
    the same. *)
Definition steady (s s' : state) : Prop :=
  timers s' = timers s ∧
  dom (k_timers s') = dom (k_timers s) ∧
  length (pfds s') = length (pfds s).

(** What the event loop relies on and keeps: a table and a timer array of
    [n] entries, the timers live and distinct. *)
Definition serving (n : nat) (s : state) : Prop :=
  timers_live s ∧ length (timers s) = n ∧ length (pfds s) = n.

(** The table, the open descriptors and the two flags are the same. *)
Definition same_table (s s' : state) : Prop :=
  pfds s' = pfds s ∧ k_open s' = k_open s ∧
  timeout_triggered s' = timeout_triggered s ∧
  interrupt_triggered s' = interrupt_triggered s.

(** No call of the start-up fails for the environment [ienv], with [n]
    timers to create. *)
Definition startup_succeeds (ienv : init_env) (n : nat) : Prop :=
  sigemptyset_ret ienv TIMEOUT_SIGNAL = 0 ∧ sigaction_ret ienv TIMEOUT_SIGNAL = 0 ∧
  sigemptyset_ret ienv SIGINT = 0 ∧ sigaction_ret ienv SIGINT = 0 ∧
  (∀ j, (j < n)%nat → create_ok ienv j = true) ∧
  0 ≤ socket_ret ienv ∧ setsockopt_ret ienv = 0 ∧ fcntl_getfl_ret ienv ≠ -1 ∧
  fcntl_setfl_ret ienv = 0 ∧ bind_ret ienv = 0 ∧ listen_ret ienv = 0.

(** Slot 0 of the table, the listener's, is free. *)
Definition listener_gone (s : state) : Prop :=
  ∃ p, pfds s !! 0%nat = Some p ∧ fd p < 0.

Definition is_accept (e : event) : bool :=
  match e with SysAccept _ _ => true | _ => false end.

(** From a state without listener: there is none afterwards, and no
    [accept] was called in between. *)
Definition deaf (s s' : state) : Prop :=
  listener_gone s →
  listener_gone s' ∧ ∃ tr, trace s' = trace s ++ tr ∧ filter is_accept tr = [].

(** Whenever [m] returns, [Q] holds of its value and of the state it
    returns in. *)
Definition returns {A} (Q : A → state → Prop) (m : M A) : Prop :=
  ∀ s a s', m s = Done a s' → Q a s'.

(** What [event_loop] has met when it returns [v] in the state [s']:
    the interrupt flag or a failure of [poll] for 0, a failed read for 1. *)
Definition return_cause (v : Z) (s' : state) : Prop :=
  (v = 0 ∧
   (interrupt_triggered s' ≠ 0 ∨
    ∃ tr ret, ret ≤ 0 ∧ errno s' ≠ EINTR ∧
      trace s' = tr ++ [SysPoll ret; Perror "Failed to poll sockets"])) ∨
  (v = 1 ∧
   ∃ tr i c, errno s' ≠ EINTR ∧
     trace s' = tr ++ [SysRecv c (-1);
                       EprintfClient "Failed read client %zu's data" i;
                       Perror ""]).

Definition on_return (f : flow) (s' : state) : Prop :=
  match f with Return r => return_cause r s' | Next _ => True end.

Definition on_exit (r : option Z) (s' : state) : Prop :=
  match r with Some v => return_cause v s' | None => True end.

(** Every descriptor that is open, those of [base] apart, is held by a
    slot of the table. *)
Definition tracked (base : gset Z) (s : state) : Prop :=
  ∀ c, 0 ≤ c → c ∈ k_open s → c ∈ base ∨ ∃ i p, pfds s !! i = Some p ∧ fd p = c.

(** From a table of [n] slots that tracks the open descriptors to
    another. *)
Definition tidy (base : gset Z) (n : nat) (s s' : state) : Prop :=
  tracked base s ∧ length (pfds s) = n → tracked base s' ∧ length (pfds s') = n.


(** Nothing but slot [i] of the table changes. *)
Definition elsewhere (i : nat) (s s' : state) : Prop :=
  length (pfds s') = length (pfds s) ∧
  ∀ j, j ≠ i → pfds s' !! j = pfds s !! j.

(** The occupied slots other than slot [i] are as they were. *)
Definition occupied_kept (i : nat) (s s' : state) : Prop :=
  length (pfds s') = length (pfds s) ∧
  ∀ j p, j ≠ i → pfds s !! j = Some p → occupied p → pfds s' !! j = Some p.

(** * The client: [client.c]

    The client connects to the server, then reads lines from its
    standard input and writes each one, without its newline, to the
    connection, until SIGINT arrives or a read or a write fails.  Its
    state is the part of the process and of the kernel the program talks
    to: the open descriptors, the bytes the kernel has taken for the
    connection, the error indicator of [stdin], [errno], the flag of the
    signal handler, and the trace of what the process wrote to [stderr]
    and of its [send] and [close] calls.  What the outside world decides
    is again an explicit argument. *)

Module Client.

Definition ECONNRESET : Z := 104.
Definition EPIPE : Z := 32.

Inductive event :=
  | Perror (msg : string)
  | Eprintf (msg : string)
  | EprintfSignal (msg : string) (signal : Z)
  | SysSend (s : Z) (data : list byte) (ret : Z)
  | SysClose (s : Z).

Record state := {
  k_open : gset Z;              (* the open descriptors *)
  k_wire : list byte;           (* what the kernel has taken for the server *)
  stdin_error : bool;           (* the error indicator of stdin *)
  errno : Z;
  interrupt_triggered : Z;
  trace : list event
}.

Definition with_k_open (f : gset Z → gset Z) (s : state) : state :=
  {| k_open := f (k_open s); k_wire := k_wire s; stdin_error := stdin_error s;
     errno := errno s; interrupt_triggered := interrupt_triggered s;
     trace := trace s |}.

Definition with_k_wire (f : list byte → list byte) (s : state) : state :=
  {| k_open := k_open s; k_wire := f (k_wire s); stdin_error := stdin_error s;
     errno := errno s; interrupt_triggered := interrupt_triggered s;
     trace := trace s |}.

Definition with_stdin_error (b : bool) (s : state) : state :=
  {| k_open := k_open s; k_wire := k_wire s; stdin_error := b;
     errno := errno s; interrupt_triggered := interrupt_triggered s;
     trace := trace s |}.

Definition with_errno (e : Z) (s : state) : state :=
  {| k_open := k_open s; k_wire := k_wire s; stdin_error := stdin_error s;
     errno := e; interrupt_triggered := interrupt_triggered s;
     trace := trace s |}.

Definition with_interrupt_triggered (v : Z) (s : state) : state :=
  {| k_open := k_open s; k_wire := k_wire s; stdin_error := stdin_error s;
     errno := errno s; interrupt_triggered := v;
     trace := trace s |}.

Definition with_trace (f : list event → list event) (s : state) : state :=
  {| k_open := k_open s; k_wire := k_wire s; stdin_error := stdin_error s;
     errno := errno s; interrupt_triggered := interrupt_triggered s;
     trace := f (trace s) |}.

(** A call either completes or runs into a store outside an array. *)
Inductive outcome (A : Type) :=
  | Done (a : A) (s : state)
  | Faulted (s : state).
Arguments Done {A} a s.
Arguments Faulted {A} s.

Definition M (A : Type) : Type := state → outcome A.

Global Instance M_ret : MRet M := λ A a s, Done a s.
Global Instance M_bind : MBind M := λ A B f m s,
  match m s with
  | Done a s' => f a s'
  | Faulted s' => Faulted s'
  end.

Definition gets {A} (f : state → A) : M A := λ s, Done (f s) s.
Definition modify (f : state → state) : M unit := λ s, Done tt (f s).
Definition fault {A} : M A := λ s, Faulted s.

Definition emit (e : event) : M unit := modify (with_trace (λ t, t ++ [e])).
Definition perror (msg : string) : M unit := emit (Perror msg).

Definition final {A} (o : outcome A) : state :=
  match o with Done _ s | Faulted s => s end.

(** ** The kernel and the C library *)

Definition close (cfd : Z) : M Z := λ s,
  let s := with_trace (λ t, t ++ [SysClose cfd]) s in
  if decide (cfd ∈ k_open s)
  then Done 0 (with_k_open (λ o, o ∖ {[cfd]}) s)
  else Done (-1) (with_errno EBADF s).

(** [send] of [data] on the connection: the kernel either takes the
    first [k] of the bytes (all of them when there are no more than [k])
    and returns their number, or the call fails. *)
Inductive send_outcome := Sent (k : nat) | SendFailed (e : Z).

Definition send (o : send_outcome) (cfd : Z) (data : list byte) : M Z := λ s,
  match o with
  | Sent k =>
      if decide (cfd ∈ k_open s) then
        let taken := take k data in
        let ret := Z.of_nat (length taken) in
        Done ret (with_k_wire (λ w, w ++ taken)
                    (with_trace (λ t, t ++ [SysSend cfd data ret]) s))
      else
        Done (-1) (with_errno EBADF (with_trace (λ t, t ++ [SysSend cfd data (-1)]) s))
  | SendFailed e =>
      Done (-1) (with_errno e (with_trace (λ t, t ++ [SysSend cfd data (-1)]) s))
  end.

(** [fgets]: of the bytes waiting on [stdin] it stores those up to and
    including the first newline, at most [size - 1] of them, and a NUL
    after them.  At the end of the input and on a read error it returns
    NULL; a read error sets the error indicator of the stream, which
    stays set until [clearerr]. *)
Inductive fgets_outcome := Line (raw : list byte) | Eof | ReadError (e : Z).

Fixpoint fgets_take (room : nat) (raw : list byte) : list byte :=
  match room, raw with
  | S room', b :: rest =>
      if Byte.eqb b x0a then [b] else b :: fgets_take room' rest
  | _, _ => []
  end.

(** The result is [(false, _)] for NULL. *)
Definition fgets (o : fgets_outcome) (buffer : list byte) (size : nat)
    : M (bool * list byte) := λ s,
  match o with
  | Line raw =>
      if decide (raw = [] ∨ size = 0%nat) then Done (false, buffer) s else
      let l := fgets_take (size - 1) raw in
      Done (true, l ++ x00 :: drop (S (length l)) buffer) s
  | Eof => Done (false, buffer) s
  | ReadError e => Done (false, buffer) (with_errno e (with_stdin_error true s))
  end.

Definition ferror_stdin : M bool := gets stdin_error.
Definition clearerr_stdin : M unit := modify (with_stdin_error false).

(** Length of the initial segment of the string without a byte of
    [reject]. *)
Fixpoint strcspn (buffer reject : list byte) : nat :=
  match buffer with
  | [] => 0
  | b :: rest =>
      if decide (b = x00 ∨ b ∈ reject) then 0%nat else S (strcspn rest reject)
  end.

Fixpoint strlen (buffer : list byte) : nat :=
  match buffer with
  | [] => 0
  | b :: rest => if Byte.eqb b x00 then 0%nat else S (strlen rest)
  end.

(** buffer[idx] = b *)
Definition buffer_store (buffer : list byte) (idx : nat) (b : byte) : M (list byte) :=
  if decide (idx < length buffer)%nat
  then mret (<[idx := b]> buffer)
  else fault.

Definition interrupt_handler (sig : Z) : M unit :=
  modify (with_interrupt_triggered 1).

Definition deliver_sigint (now : bool) : M unit :=
  if now then interrupt_handler SIGINT else mret tt.

(** ** What the environment decides *)

(** While the client sets itself up. *)
Record conn_env := {
  sigemptyset_ret : Z;
  sigaction_ret : Z;
  socket_ret : Z;
  inet_pton_ret : Z;
  connect_ret : Z
}.

(** During one turn of the loop of [main]. *)
Record turn_env := {
  sigint_in_fgets : bool;            (* SIGINT arrives while blocked in fgets *)
  fgets_result : fgets_outcome;
  stack_bytes : list byte;           (* what the fresh buffer holds *)
  sigint_in_send : bool;             (* SIGINT arrives while blocked in send *)
  send_results : list send_outcome   (* the calls of send, in order *)
}.

(** ** The program *)

Section Code.

(** Size of the send buffer.  [client.c] has 1024. *)
Variable BUFFER_SIZE : nat.

Definition initialise_signal_handler (cenv : conn_env) (signal : Z) : M Z :=
  if decide (sigemptyset_ret cenv ≠ 0) then
    perror "Failed to initialise the signal mask";;
    mret 1
  else if decide (sigaction_ret cenv ≠ 0) then
    emit (EprintfSignal "Failed to change signal %d action to handler" signal);;
    perror "";;
    mret 1
  else mret 0.

Definition initialise_connection (cenv : conn_env) : M Z :=
  let s := socket_ret cenv in
  if decide (s < 0) then
    perror "Failed to create socket";;
    mret (-1)
  else
  modify (with_k_open (λ o, {[s]} ∪ o));;
  if decide (inet_pton_ret cenv ≠ 1) then
    perror "Failed to parse address";;
    mret (-1)
  else
  if decide (connect_ret cenv ≠ 0) then
    perror "Failed to connect with server";;
    mret (-1)
  else mret s.

(** The do-while loop of [write_socket], with [sent] bytes written so
    far, against the calls of [send] the environment plays.  [None]: the
    loop is still running when the script ends.  [continue] in a do-while
    loop goes to the test of the loop. *)
Fixpoint write_socket_from (script : list send_outcome) (s : Z) (buf : list byte)
    (n sent : nat) : M (option Z) :=
  match script with
  | [] => mret None
  | o :: script' =>
      ret ← send o s (take (n - sent) (drop sent buf));
      if decide (ret < 0) then
        e ← gets errno;
        if decide (e = EINTR) then
          if decide (sent < n)%nat then write_socket_from script' s buf n sent
          else mret (Some 0)
        else
          (if decide (e = ECONNRESET ∨ e = EPIPE)
           then emit (Eprintf "Server disconnect")
           else emit (Eprintf "Failed to write to socket"));;
          mret (Some 1)
      else
        let sent := (sent + Z.to_nat ret)%nat in
        if decide (sent < n)%nat then write_socket_from script' s buf n sent
        else mret (Some 0)
  end.

Definition write_socket (script : list send_outcome) (s : Z) (buf : list byte)
    (n : nat) : M (option Z) :=
  write_socket_from script s buf n 0.

(** while (1) of [main], against the turns the environment plays.
    [None]: the loop is still running when the script ends; [Some c]: the
    loop has ended with [exit_status] equal to [c]. *)
Fixpoint main_loop (script : list turn_env) (s : Z) : M (option Z) :=
  match script with
  | [] => mret None
  | env :: rest =>
      (* If an interrupt signal (Ctrl-C) is raised. *)
      it ← gets interrupt_triggered;
      if decide (it ≠ 0) then mret (Some EXIT_SUCCESS) else
      (* Input prompt. *)
      emit (Eprintf "> ");;
      let buffer := resize BUFFER_SIZE x00 (stack_bytes env) in
      deliver_sigint (sigint_in_fgets env);;
      '(ok, buffer) ← fgets (fgets_result env) buffer BUFFER_SIZE;
      if negb ok then
        err ← ferror_stdin;
        if (err : bool) then
          e ← gets errno;
          if decide (e = EINTR) then main_loop rest s else
          perror "Failed to read input";;
          mret (Some EXIT_FAILURE)
        else
          (* End of file. *)
          clearerr_stdin;;
          main_loop rest s
      else
      (* Remove trailing newline, if exists, and skip the write() if of
         null length. *)
      buffer ← buffer_store buffer (strcspn buffer [x0a]) x00;
      if decide (strlen buffer = 0%nat) then main_loop rest s else
      deliver_sigint (sigint_in_send env);;
      r ← write_socket (send_results env) s buffer (strlen buffer);
      match r with
      | None => mret None
      | Some r =>
          if decide (r ≠ 0) then mret (Some EXIT_FAILURE) else main_loop rest s
      end
  end.

(** [None]: the process is still running when the script ends. *)
Definition main (cenv : conn_env) (script : list turn_env) : M (option Z) :=
  emit (Eprintf "Enabling interrupt handler");;
  r ← initialise_signal_handler cenv SIGINT;
  if decide (r ≠ 0) then mret (Some EXIT_FAILURE) else
  emit (Eprintf "Connecting to server at %s:%u");;
  s ← initialise_connection cenv;
  if decide (s < 0) then mret (Some EXIT_FAILURE) else
  emit (Eprintf "Connection initialised");;
  r ← main_loop script s;
  match r with
  | None => mret None
  | Some exit_status =>
      emit (Eprintf "Closing connection");;
      close s;;
      mret (Some exit_status)
  end.

End Code.

(** ** Notions used in the statements *)

(** The bytes of the input before the first newline or NUL. *)
Fixpoint line_of (raw : list byte) : list byte :=
  match raw with
  | [] => []
  | b :: rest =>
      if decide (b = x00 ∨ b = x0a) then [] else b :: line_of rest
  end.

(** The state after a point at which SIGINT may arrive. *)
Definition final_sigint (now : bool) (s : state) : state :=
  if now then with_interrupt_triggered 1 s else s.

(** [m] opens and closes no descriptor. *)
Definition keeps_open {A} (m : M A) : Prop :=
  ∀ s, k_open (final (m s)) = k_open s.

(** Whenever [m] returns, [Q] holds of its value and of the state it
    returns in. *)
Definition on_done {A} (Q : A → state → Prop) (m : M A) : Prop :=
  ∀ s a s', m s = Done a s' → Q a s'.

(** How the loop of [main] can end: with success only when the
    interrupt flag is set. *)
Definition loop_end (r : option Z) (s' : state) : Prop :=
  match r with
  | None => True
  | Some v => (v = EXIT_SUCCESS ∧ interrupt_triggered s' ≠ 0) ∨ v = EXIT_FAILURE
  end.

(** A call of [send] in which the kernel takes at least one byte. *)
Definition takes_some (o : send_outcome) : Prop :=
  match o with Sent k => (1 ≤ k)%nat | SendFailed _ => False end.

Global Instance takes_some_dec o : Decision (takes_some o).
Proof. destruct o; unfold takes_some; apply _. Defined.

End Client.

(** ** More concrete runs *)

Module Cases.

Definition POLLHUP : Z := 16.

(** [Demo.full] when [poll] has reported that the peer of slot 1 has hung
    up. *)
Definition hung_up : state :=
  with_pfds (alter (set_revents POLLHUP) 1%nat) Demo.full.

(** [Demo.full] when [poll] has reported a connection request. *)
Definition knock : state :=
  with_pfds (alter (set_revents POLLIN) 0%nat) Demo.full.

(** [Demo.full] after an error event on the listening socket. *)
Definition deaf_server : state :=
  with_pfds (alter (set_fd (-1)) 0%nat) Demo.full.

(** A pass in which the peer of slot 1 has closed the connection, and
    the buffer of the turn holds old bytes. *)
Definition peer_closed : pass_env :=
  {| window_elapsed := 0;
     poll_elapsed := NSEC_PER_SEC; poll_sigint := false;
     poll_result := Ready [0; POLLIN; 0];
     accept_result := AcceptFailed EAGAIN;
     recv_result := λ _, Received [];
     stack_bytes := λ _, ["o"; "l"; "d"]%byte;
     sigint_during := λ _, false |}.

(** A pass in which slot 1 has sent two bytes into a buffer that holds
    old bytes. *)
Definition two_bytes : pass_env :=
  {| window_elapsed := 0;
     poll_elapsed := NSEC_PER_SEC; poll_sigint := false;
     poll_result := Ready [0; POLLIN; 0];
     accept_result := AcceptFailed EAGAIN;
     recv_result := λ _, Received ["h"; "i"]%byte;
     stack_bytes := λ _, ["s"; "t"; "a"; "l"; "e"]%byte;
     sigint_during := λ _, false |}.


(** The server of [server.c] with one client, on descriptor 4, whose
    timer has just been armed. *)
Definition one_client : state :=
  final (event_loop Demo.MAX_CONNECTIONS Demo.BUFFER_SIZE Demo.TIMEOUT
           [Demo.connection 4] Demo.MAX_CONNECTIONS
           (final (initialise_server Demo.startup_ok Demo.MAX_CONNECTIONS Demo.boot))).

(** A pass in which [w] nanoseconds go by between the test of the
    timeout flag and the entry into [poll], and [poll] then blocks for
    [d] nanoseconds, until a connection request arrives, for descriptor
    5. *)
Definition late_request (w d : Z) : pass_env :=
  {| window_elapsed := w;
     poll_elapsed := d; poll_sigint := false;
     poll_result := Ready [POLLIN];
     accept_result := Accepted 5;
     recv_result := λ _, RecvFailed EAGAIN;
     stack_bytes := λ _, [];
     sigint_during := λ _, false |}.

(** A start-up in which [listen] fails. *)
Definition no_listen : init_env :=
  {| sigemptyset_ret := λ _, 0; sigaction_ret := λ _, 0;
     create_ok := λ _, true;
     socket_ret := 3; setsockopt_ret := 0;
     fcntl_getfl_ret := 2; fcntl_setfl_ret := 0;
     bind_ret := 0; listen_ret := -1 |}.

(** The client, connected on descriptor 3. *)
Definition connected : Client.state :=
  {| Client.k_open := {[ 0; 1; 2; 3 ]};
     Client.k_wire := [];
     Client.stdin_error := false;
     Client.errno := 0;
     Client.interrupt_triggered := 0;
     Client.trace := [] |}.

(** The client when it begins. *)
Definition fresh : Client.state :=
  {| Client.k_open := {[ 0; 1; 2 ]};
     Client.k_wire := [];
     Client.stdin_error := false;
     Client.errno := 0;
     Client.interrupt_triggered := 0;
     Client.trace := [] |}.

(** A set-up of the client without failure; the socket gets descriptor
    3. *)
Definition reachable : Client.conn_env :=
  {| Client.sigemptyset_ret := 0; Client.sigaction_ret := 0;
     Client.socket_ret := 3; Client.inet_pton_ret := 1;
     Client.connect_ret := 0 |}.

(** A set-up in which the server refuses the connection. *)
Definition refused : Client.conn_env :=
  {| Client.sigemptyset_ret := 0; Client.sigaction_ret := 0;
     Client.socket_ret := 3; Client.inet_pton_ret := 1;
     Client.connect_ret := -1 |}.

(** A turn in which the user types a line and the kernel takes it one
    byte, then the rest. *)
Definition typed (line : list byte) : Client.turn_env :=
  {| Client.sigint_in_fgets := false;
     Client.fgets_result := Client.Line line;
     Client.stack_bytes := ["j"; "u"; "n"; "k"; "j"; "u"; "n"; "k"]%byte;
     Client.sigint_in_send := false;
     Client.send_results := [Client.Sent 1; Client.Sent 7] |}.

(** A turn at the end of the input. *)
Definition at_eof : Client.turn_env :=
  {| Client.sigint_in_fgets := false;
     Client.fgets_result := Client.Eof;
     Client.stack_bytes := [];
     Client.sigint_in_send := false;
     Client.send_results := [] |}.

(** A turn in which SIGINT arrives while the client waits for input. *)
Definition interrupted : Client.turn_env :=
  {| Client.sigint_in_fgets := true;
     Client.fgets_result := Client.ReadError EINTR;
     Client.stack_bytes := [];
     Client.sigint_in_send := false;
     Client.send_results := [] |}.

End Cases.

(** The two relations are preorders. *)

Global Instance same_shape_preorder : PreOrder same_shape.
Proof.
  split.
  - intros s. by split.
  - intros s1 s2 s3 [H1 H2] [H3 H4]. split; congruence.
Qed.

Global Instance quietly_preorder : PreOrder quietly.
Proof.
  split.
  - intros s. split; [done|]. exists []. by rewrite app_nil_r.
  - intros s1 s2 s3 [H1 (t1 & E1 & S1 & P1)] [H2 (t2 & E2 & S2 & P2)].
    split; [congruence|]. exists (t1 ++ t2). rewrite E2, E1, <-app_assoc.
    split; [done|]. unfold services in *. rewrite omap_app, filter_app.
    by rewrite S1, S2, P1, P2.
Qed.

(** * Proofs *)

(** ** Running the monad *)

Lemma bind_eq {A B} (m : M A) (f : A → M B) s :
  (m ≫= f) s =
  match m s with
  | Done a s' => f a s'
  | Exited c s' => Exited c s'
  | Faulted s' => Faulted s'
  end.
Proof. reflexivity. Qed.

Lemma bind_Done {A B} (m : M A) (f : A → M B) s a s' :
  m s = Done a s' → (m ≫= f) s = f a s'.
Proof. intros H. rewrite bind_eq, H. reflexivity. Qed.

(** ** What holds when a call returns *)

Lemma returns_bind {A B} (Q : B → state → Prop) (m : M A) (f : A → M B) :
  (∀ a, returns Q (f a)) → returns Q (m ≫= f).
Proof.
  intros Hf s b s' E. rewrite bind_eq in E.
  destruct (m s) as [a s1| |]; [|done..]. by eapply Hf.
Qed.

Lemma returns_at {A} (Q : A → state → Prop) (m : M A) s a s' :
  returns Q m → m s = Done a s' → Q a s'.
Proof. intros H. apply H. Qed.

(** ** Relations every step keeps *)

Lemma keeps_ret R `{!Reflexive R} {A} (a : A) : keeps R (mret a).
Proof. intros s. simpl. reflexivity. Qed.

Lemma keeps_gets R `{!Reflexive R} {A} (f : state → A) : keeps R (gets f).
Proof. intros s. simpl. reflexivity. Qed.

Lemma keeps_exit R `{!Reflexive R} {A} c : keeps R (@exit A c).
Proof. intros s. simpl. reflexivity. Qed.

Lemma keeps_fault R `{!Reflexive R} {A} : keeps R (@fault A).
Proof. intros s. simpl. reflexivity. Qed.

Lemma keeps_modify (R : relation state) f : (∀ s, R s (f s)) → keeps R (modify f).
Proof. intros H s. apply H. Qed.

Lemma keeps_bind R `{!Transitive R} {A B} (m : M A) (f : A → M B) :
  keeps R m → (∀ a, keeps R (f a)) → keeps R (m ≫= f).
Proof.
  intros Hm Hf s. rewrite bind_eq. specialize (Hm s).
  destruct (m s) as [a s'|c s'|s']; simpl in *; [|done..].
  etrans; [exact Hm|apply Hf].
Qed.


Create HintDb keeps discriminated.

(** Decomposes a goal [keeps R m] along the structure of [m]; [side]
    settles what the relation asks of a single update of the state. *)
Ltac keeps_with side :=
  repeat first
    [ assumption
    | solve [eauto 2 with keeps]
    | (apply keeps_ret; apply _)
    | (apply keeps_gets; apply _)
    | (apply keeps_exit; apply _)
    | (apply keeps_fault; apply _)
    | (apply keeps_bind; [apply _| |intros ?])
    | (apply keeps_modify; intros ?; side)
    | match goal with
      | |- keeps _ (if decide _ then _ else _) => case_decide
      | |- keeps _ (if ?b then _ else _) => destruct b
      | |- keeps _ (match ?x with _ => _ end) => destruct x
      | |- keeps _ (let '(_, _) := ?x in _) => destruct x
      end ].

(** For the system calls, which are defined on the state directly. *)
Ltac keeps_prim side :=
  let s := fresh "s" in
  intros s;
  match goal with |- _ _ (final (?f _ _ _ _ _)) => unfold f
                | |- _ _ (final (?f _ _ _ _)) => unfold f
                | |- _ _ (final (?f _ _ _)) => unfold f
                | |- _ _ (final (?f _ _)) => unfold f end;
  repeat case_match; simpl; side.

Ltac shape_side :=
  unfold same_shape; simpl;
  rewrite ?length_alter, ?length_insert, ?length_app, ?length_imap, ?length_take, ?length_drop;
  split; try done; lia.

Lemma fmap_alter_same {A B} (g : A → B) (f : A → A) i (l : list A) :
  (∀ x, g (f x) = g x) → g <$> alter f i l = g <$> l.
Proof.
  intros H. revert i. induction l as [|x l IH]; intros [|i]; csimpl; try done.
  - by rewrite H.
  - by rewrite IH.
Qed.

Ltac quiet_side :=
  unfold quietly; simpl; rewrite ?fmap_alter_same by done;
  split; try done;
  first [ by (exists []; rewrite app_nil_r)
        | by (eexists [_]) ].

(** ** The arrays keep their sizes *)

Section Shape.
Variables (MAX_CONNECTIONS BUFFER_SIZE : nat) (TIMEOUT : Z).

Lemma shape_timer_create ok i : keeps same_shape (timer_create ok i).
Proof. keeps_prim shape_side. Qed.
Lemma shape_timer_delete t : keeps same_shape (timer_delete t).
Proof. keeps_prim shape_side. Qed.
Lemma shape_timer_settime t v : keeps same_shape (timer_settime t v).
Proof. keeps_prim shape_side. Qed.
Lemma shape_timer_gettime t : keeps same_shape (timer_gettime t).
Proof. keeps_prim shape_side. Qed.
Lemma shape_close c : keeps same_shape (close c).
Proof. keeps_prim shape_side. Qed.
Lemma shape_accept o c : keeps same_shape (accept o c).
Proof. keeps_prim shape_side. Qed.
Lemma shape_recv o c b l : keeps same_shape (recv o c b l).
Proof. keeps_prim shape_side. Qed.
Hint Resolve shape_timer_create shape_timer_delete shape_timer_settime
  shape_timer_gettime shape_close shape_accept shape_recv : keeps.

Ltac shape := keeps_with shape_side.

Lemma shape_emit e : keeps same_shape (emit e).
Proof. unfold emit. shape. Qed.
Lemma shape_perror m : keeps same_shape (perror m).
Proof. apply shape_emit. Qed.
Lemma shape_store_fd i v : keeps same_shape (store_fd i v).
Proof. unfold store_fd. shape. Qed.
Lemma shape_store_events i v : keeps same_shape (store_events i v).
Proof. unfold store_events. shape. Qed.
Lemma shape_deliver_sigint b : keeps same_shape (deliver_sigint b).
Proof. unfold deliver_sigint, interrupt_handler. shape. Qed.
Lemma shape_elapse d : keeps same_shape (elapse d).
Proof. unfold elapse, timeout_handler. shape. Qed.
Hint Resolve shape_emit shape_perror shape_store_fd shape_store_events
  shape_deliver_sigint shape_elapse : keeps.

Lemma shape_poll d b o n : keeps same_shape (poll d b o n).
Proof. unfold poll. shape. Qed.

Lemma shape_destroy_timers_from k i : keeps same_shape (destroy_timers_from k i).
Proof. revert i. induction k; intros i; simpl; unfold timer_at; shape. Qed.
Lemma shape_destroy_timers n : keeps same_shape (destroy_timers n).
Proof. apply shape_destroy_timers_from. Qed.
Hint Resolve shape_poll shape_destroy_timers : keeps.

Lemma shape_create_timers ok n : keeps same_shape (create_timers ok n).
Proof.
  unfold create_timers. generalize 0%nat.
  induction n; intros i; simpl; shape.
Qed.

Lemma shape_arm_timer t : keeps same_shape (arm_timer TIMEOUT t).
Proof. unfold arm_timer. shape. Qed.
Lemma shape_disarm_timer t : keeps same_shape (disarm_timer t).
Proof. unfold disarm_timer. shape. Qed.
Hint Resolve shape_create_timers shape_arm_timer shape_disarm_timer : keeps.

Lemma shape_timer_expired t : keeps same_shape (timer_expired t).
Proof. unfold timer_expired. shape. Qed.
Lemma shape_close_connection i t : keeps same_shape (close_connection i t).
Proof. unfold close_connection, pfd_at. shape. Qed.
Hint Resolve shape_timer_expired shape_close_connection : keeps.

Lemma shape_find_slot c k i : keeps same_shape (find_slot TIMEOUT c k i).
Proof. revert i. induction k; intros i; simpl; unfold pfd_at, timer_at; shape. Qed.
Hint Resolve shape_find_slot : keeps.

Lemma shape_accept_connection o :
  keeps same_shape (accept_connection MAX_CONNECTIONS TIMEOUT o).
Proof. unfold accept_connection, pfd_at. shape. Qed.
Hint Resolve shape_accept_connection : keeps.

Lemma shape_check_timeouts k i : keeps same_shape (check_timeouts k i).
Proof. revert i. induction k; intros i; simpl; unfold pfd_at, timer_at; shape. Qed.

Lemma shape_serve env i a :
  keeps same_shape (serve MAX_CONNECTIONS BUFFER_SIZE TIMEOUT env i a).
Proof. unfold serve, pfd_at, timer_at, buffer_store. shape. Qed.
Hint Resolve shape_check_timeouts shape_serve : keeps.

Lemma shape_process_events env k i a :
  keeps same_shape (process_events MAX_CONNECTIONS BUFFER_SIZE TIMEOUT env k i a).
Proof. revert i a. induction k; intros i a; cbn [process_events]; shape. Qed.
Hint Resolve shape_process_events : keeps.

Lemma shape_pass env n :
  keeps same_shape (pass MAX_CONNECTIONS BUFFER_SIZE TIMEOUT env n).
Proof. unfold pass, before_poll. shape. Qed.
Hint Resolve shape_pass : keeps.

Lemma shape_event_loop script n :
  keeps same_shape (event_loop MAX_CONNECTIONS BUFFER_SIZE TIMEOUT script n).
Proof. induction script; cbn [event_loop]; shape. Qed.
End Shape.

(** ** Reading the arrays *)

Lemma timer_at_eq i s t : timers s !! i = Some t → timer_at i s = Done t s.
Proof. unfold timer_at, gets. by intros ->. Qed.

Lemma pfd_at_eq i s p : pfds s !! i = Some p → pfd_at i s = Done p s.
Proof. unfold pfd_at, gets. by intros ->. Qed.

Lemma emit_eq e s : emit e s = Done tt (with_trace (λ t, t ++ [e]) s).
Proof. done. Qed.

(** ** Timers *)

Lemma timer_settime_live t new s its :
  k_timers s !! t = Some its →
  valid_timespec (it_value new) = true →
  valid_timespec (it_interval new) = true →
  timer_settime t new s = Done 0 (with_k_timers (λ m, <[t := new]> m) s).
Proof. intros H1 H2 H3. unfold timer_settime. by rewrite H1, H2, H3. Qed.

Lemma disarm_timer_live t s its :
  k_timers s !! t = Some its →
  disarm_timer t s = Done 0 (with_k_timers (λ m, <[t := zero_itimerspec]> m) s).
Proof.
  intros H. unfold disarm_timer.
  by erewrite bind_Done by (by eapply timer_settime_live).
Qed.

Lemma arm_timer_live T t s its :
  k_timers s !! t = Some its → 0 ≤ T →
  arm_timer T t s =
  Done 0 (with_k_timers
            (λ m, <[t := {| it_interval := zero_timespec;
                            it_value := {| tv_sec := T; tv_nsec := 0 |} |}]> m) s).
Proof.
  intros H HT. unfold arm_timer.
  erewrite bind_Done; last first.
  { eapply timer_settime_live; [done| |done].
    unfold valid_timespec. cbn [it_value tv_sec tv_nsec].
    by rewrite bool_decide_eq_true_2. }
  done.
Qed.

Lemma timer_expired_live t s its :
  k_timers s !! t = Some its →
  timer_expired t s = Done (bool_decide (no_time_left its)) s.
Proof.
  intros H. unfold timer_expired, timer_gettime. rewrite bind_eq, H. simpl.
  unfold no_time_left.
  case_decide; [by rewrite bool_decide_eq_true_2|by rewrite bool_decide_eq_false_2].
Qed.

Lemma close_connection_live i t s p its :
  pfds s !! i = Some p → k_timers s !! t = Some its →
  ∃ s', close_connection i t s = Done tt s' ∧
    pfds s' = alter (set_fd (-1)) i (pfds s) ∧
    timers s' = timers s ∧
    k_timers s' = <[t := zero_itimerspec]> (k_timers s) ∧
    k_open s' = k_open s ∖ {[fd p]} ∧
    timeout_triggered s' = timeout_triggered s ∧
    interrupt_triggered s' = interrupt_triggered s ∧
    trace s' = trace s ++ [SysClose (fd p)].
Proof.
  intros Hp Ht. unfold close_connection.
  erewrite bind_Done by (by eapply disarm_timer_live).
  erewrite bind_Done by (by apply pfd_at_eq).
  rewrite bind_eq. unfold close. cbn [k_open with_trace with_k_timers].
  destruct (decide _) as [Hin|Hin]; cbn [store_fd modify]; eexists; (split; [done|]); simpl;
    repeat split; try done.
  set_solver.
Qed.

(** ** The scan of the timers *)

Lemma check_timeouts_scanned k : ∀ i s,
  timers_live s → length (timers s) = length (pfds s) →
  (k = 0 ∨ i + k ≤ length (pfds s))%nat →
  ∃ s' tr, check_timeouts k i s = Done tt s' ∧ scanned i k s s' tr.
Proof.
  induction k as [|k IH]; intros i s Hlive Hlen Hk.
  { exists s, []. split; [done|]. unfold scanned. rewrite app_nil_r.
    repeat split; try done; intros; try lia. set_solver. }
  destruct Hk as [?|Hk]; [done|].
  destruct (lookup_lt_is_Some_2 (pfds s) i) as [p Hp]; [lia|].
  destruct (lookup_lt_is_Some_2 (timers s) i) as [t Ht]; [lia|].
  destruct Hlive as [Hnd Hall]. rewrite Forall_forall in Hall.
  destruct (Hall t) as [its Hits]; [by eapply list_elem_of_lookup_2|].
  cbn [check_timeouts].
  erewrite bind_Done by (by apply timer_at_eq).
  erewrite bind_Done by (by apply pfd_at_eq).
  destruct (decide (0 ≤ fd p ∧ no_time_left its)) as [[Hocc Hexp]|Hno].
  - (* slot i is evicted *)
    destruct (close_connection_live i t (with_trace (λ t, t ++ [timed_out_msg i]) s) p its)
      as (s1 & E1 & Hpf & Htm & Hkt & Hko & Htt & Hit & Htr); [done..|].
    erewrite (bind_Done _ _ s tt s1); last first.
    { rewrite decide_True by done.
      erewrite bind_Done by (by eapply timer_expired_live).
      rewrite bool_decide_eq_true_2 by done.
      by rewrite bind_eq, emit_eq. }
    clear E1.
    cbn [with_trace pfds timers k_timers k_open timeout_triggered
         interrupt_triggered trace] in *.
    destruct (IH (S i) s1) as (s' & tr & E & Hs).
    { split; rewrite Htm; [done|]. apply Forall_forall. intros t' Ht'. rewrite Hkt.
      destruct (decide (t = t')) as [->|]; [by rewrite lookup_insert_eq|].
      rewrite lookup_insert_ne by done. by apply Hall. }
    { rewrite Htm, Hpf, length_alter. done. }
    { right. rewrite Hpf, length_alter. simpl. lia. }
    rewrite E. exists s', ([timed_out_msg i; SysClose (fd p)] ++ tr).
    split; [done|].
    destruct Hs as (Gtm & Glen & Gdom & Gko & Gtt & Git & Gtr & Gsv & Gpl & Gev & Gkeep).
    unfold scanned. split_and!.
    + by rewrite Gtm, Htm.
    + by rewrite Glen, Hpf, length_alter.
    + rewrite Gdom, Hkt, dom_insert_L. simpl.
      apply elem_of_dom_2 in Hits. set_solver.
    + rewrite Hko in Gko. simpl in Gko. set_solver.
    + by rewrite Gtt, Htt.
    + by rewrite Git, Hit.
    + rewrite Gtr, Htr. simpl. by rewrite <-!app_assoc.
    + done.
    + done.
    + intros j pj tj itsj Hpj Htj Hitsj Hj Hoj Hej.
      destruct (decide (j = i)) as [->|Hne].
      * assert (pj = p) as -> by congruence. assert (tj = t) as -> by congruence.
        destruct (Gkeep i (set_fd (-1) p) t zero_itimerspec) as (G1 & G2 & G3).
        { rewrite Hpf, list_lookup_alter_eq, Hp. done. }
        { by rewrite Htm. }
        { by rewrite Hkt, lookup_insert_eq. }
        { lia. }
        split_and!; [done|done| |set_solver|set_solver].
        rewrite Hko in Gko. simpl in Gko. set_solver.
      * assert (tj ≠ t) as Hnt.
        { intros ->. apply Hne. by eapply NoDup_lookup. }
        destruct (Gev j pj tj itsj) as (G1 & G2 & G3 & G4 & G5); try done.
        { by rewrite Hpf, list_lookup_alter_ne. }
        { by rewrite Htm. }
        { by rewrite Hkt, lookup_insert_ne. }
        { lia. }
        split_and!; [done|done|done|set_solver|set_solver].
    + intros j pj tj itsj Hpj Htj Hitsj Hj.
      destruct (decide (j = i)) as [->|Hne].
      * exfalso. apply Hj. assert (pj = p) as -> by congruence.
        assert (tj = t) as -> by congruence.
        assert (itsj = its) as -> by congruence. split_and!; [lia..|done|done].
      * assert (tj ≠ t) as Hnt.
        { intros ->. apply Hne. by eapply NoDup_lookup. }
        destruct (Gkeep j pj tj itsj) as (G1 & G2 & G3).
        { by rewrite Hpf, list_lookup_alter_ne. }
        { by rewrite Htm. }
        { by rewrite Hkt, lookup_insert_ne. }
        { intros (? & ? & ?). apply Hj. split_and!; [lia..|done|done]. }
        split_and!; [done|done|].
        simpl. rewrite !not_elem_of_cons.
        split_and!; [unfold timed_out_msg; congruence|done|done].
  - (* slot i stays *)
    erewrite (bind_Done _ _ s tt s); last first.
    { case_decide as Hocc; [|done].
      erewrite bind_Done by (by eapply timer_expired_live).
      rewrite bool_decide_eq_false_2; [done|]. intros ?. by apply Hno. }
    destruct (IH (S i) s) as (s' & tr & E & Hs);
      [by split; [|apply Forall_forall]|done|lia|].
    rewrite E. exists s', tr. split; [done|].
    destruct Hs as (Gtm & Glen & Gdom & Gko & Gtt & Git & Gtr & Gsv & Gpl & Gev & Gkeep).
    unfold scanned. split_and!; try done.
    + intros j pj tj itsj Hpj Htj Hitsj Hj Hoj Hej.
      destruct (decide (j = i)) as [->|Hne].
      * exfalso. apply Hno. assert (pj = p) as <- by congruence.
        assert (tj = t) as -> by congruence.
        assert (itsj = its) as -> by congruence. done.
      * apply (Gev j pj tj itsj); try done. lia.
    + intros j pj tj itsj Hpj Htj Hitsj Hj.
      apply (Gkeep j pj tj itsj); try done.
      intros (? & ? & ?). apply Hj. split_and!; [lia..|done|done].
Qed.

(** ** The start of a pass *)

Lemma before_poll_interrupted n s :
  interrupt_triggered s ≠ 0 → before_poll n s = Done (Some 0) s.
Proof.
  intros H. unfold before_poll. rewrite bind_eq. cbn [gets].
  by rewrite decide_True.
Qed.

Lemma before_poll_idle n s :
  interrupt_triggered s = 0 → timeout_triggered s = 0 →
  before_poll n s = Done None s.
Proof.
  intros H1 H2. unfold before_poll. rewrite bind_eq. cbn [gets].
  rewrite decide_False by (rewrite H1; congruence).
  rewrite bind_eq. cbn [gets]. rewrite bind_eq.
  by rewrite decide_False by (rewrite H2; congruence).
Qed.

Lemma before_poll_scan n s :
  interrupt_triggered s = 0 → timeout_triggered s ≠ 0 →
  before_poll n s =
  (check_timeouts (n - 1) 1 ≫= λ _, mret None) (with_timeout_triggered 0 s).
Proof.
  intros H1 H2. unfold before_poll. rewrite bind_eq. cbn [gets].
  rewrite decide_False by (rewrite H1; congruence).
  rewrite bind_eq. cbn [gets].
  by rewrite decide_True by done.
Qed.

(** ** Time *)

Lemma tick_out d its :
  nanoseconds (it_value its) ≤ d → no_time_left (tick d its).
Proof.
  intros H. unfold no_time_left, tick. cbn [it_value].
  rewrite Z.max_l by lia. done.
Qed.

Lemma elapse_fires d s t its :
  k_timers s !! t = Some its → fires d its = true →
  elapse d s =
  Done tt (with_timeout_triggered 1 (with_k_timers (λ m, tick d <$> m) s)).
Proof.
  intros Ht Hf. unfold elapse. rewrite bind_eq. cbn [gets].
  rewrite bool_decide_eq_true_2; [done|]. by exists t, its.
Qed.

(** The scan of the timers.  When the timeout flag is set at the start
    of a pass (and no interrupt is pending), the loop first clears the
    flag and then scans: every occupied client slot whose timer has no
    time left is closed (timer disarmed, descriptor closed, slot marked
    free) and reported; occupied client slots with time left, and slot 0,
    keep their descriptor and their timer. *)
Theorem timeout_scan_evicts (n : nat) (s : state) :
  timers_live s → length (timers s) = n → length (pfds s) = n →
  interrupt_triggered s = 0 → timeout_triggered s ≠ 0 →
  ∃ s' tr,
    check_timeouts (n - 1) 1 (with_timeout_triggered 0 s) = Done tt s' ∧
    before_poll n s = Done None s' ∧
    timeout_triggered s' = 0 ∧
    trace s' = trace s ++ tr ∧
    (∀ i p t its,
       pfds s !! i = Some p → timers s !! i = Some t →
       k_timers s !! t = Some its →
       (1 ≤ i)%nat → occupied p → no_time_left its →
       pfds s' !! i = Some (set_fd (-1) p) ∧
       k_timers s' !! t = Some zero_itimerspec ∧
       (fd p ∉ k_open s') ∧
       timed_out_msg i ∈ tr ∧ SysClose (fd p) ∈ tr) ∧
    (∀ i p t its,
       pfds s !! i = Some p → timers s !! i = Some t →
       k_timers s !! t = Some its →
       (1 ≤ i)%nat → occupied p → ¬ no_time_left its →
       pfds s' !! i = Some p ∧ k_timers s' !! t = Some its ∧
       timed_out_msg i ∉ tr) ∧
    (∀ p t its,
       pfds s !! 0%nat = Some p → timers s !! 0%nat = Some t →
       k_timers s !! t = Some its →
       pfds s' !! 0%nat = Some p ∧ k_timers s' !! t = Some its ∧
       timed_out_msg 0 ∉ tr).
Proof.
  intros Hlive Hlt Hlp Hint Hflag.
  destruct (check_timeouts_scanned (n - 1) 1 (with_timeout_triggered 0 s))
    as (s' & tr & E & Hs); [done|simpl; congruence|simpl; lia|].
  exists s', tr.
  destruct Hs as (Gtm & Glen & Gdom & Gko & Gtt & Git & Gtr & Gsv & Gpl & Gev & Gkeep).
  cbn [with_timeout_triggered pfds timers k_timers k_open timeout_triggered
       interrupt_triggered trace] in *.
  split_and!; try done.
  - rewrite before_poll_scan by done. by rewrite bind_eq, E.
  - intros i p t its Hp Ht Hits Hi Ho He.
    apply (Gev i p t its); try done.
    apply lookup_lt_Some in Hp. lia.
  - intros i p t its Hp Ht Hits Hi Ho He.
    apply (Gkeep i p t its); try done. tauto.
  - intros p t its Hp Ht Hits.
    apply (Gkeep 0%nat p t its); try done. lia.
Qed.

(** ** A timer that fires before [poll] is entered *)

(** Time that passes while no timer is armed changes nothing. *)
Lemma elapse_idle d s :
  0 ≤ d → map_Forall (λ _ its, its = zero_itimerspec) (k_timers s) →
  elapse d s = Done tt s.
Proof.
  intros Hd Hall. unfold elapse. rewrite bind_eq. cbn [gets].
  rewrite bool_decide_eq_false_2; last first.
  { intros (t & its & Ht & Hf). rewrite (Hall t its Ht) in Hf. done. }
  rewrite bind_eq. cbn [modify]. cbn [mret M_ret]. f_equal.
  destruct s as [kt ko er pf tm tt it tr]. unfold with_k_timers. cbn in *. f_equal.
  apply map_eq. intros t. rewrite lookup_fmap.
  destruct (kt !! t) as [its|] eqn:Ht; [|done]. cbn.
  rewrite (Hall t its Ht). f_equal. unfold tick, zero_itimerspec. cbn.
  unfold nanoseconds. cbn. replace (Z.max 0 (0 * NSEC_PER_SEC + 0 - d)) with 0 by lia. done.
Qed.

(** The client of [Cases.one_client] stays silent.  Its timer fires
    after TIMEOUT seconds, at a moment when the server has tested the
    timeout flag and has not yet entered [poll].  However long [poll]
    then blocks, the pass ends as if it had not blocked at all. *)
Lemma blocked_after_expiry (d : Z) :
  0 ≤ d →
  pass Demo.MAX_CONNECTIONS Demo.BUFFER_SIZE Demo.TIMEOUT
    (Cases.late_request (Demo.TIMEOUT * NSEC_PER_SEC) d)
    Demo.MAX_CONNECTIONS Cases.one_client
  = pass Demo.MAX_CONNECTIONS Demo.BUFFER_SIZE Demo.TIMEOUT
      (Cases.late_request (Demo.TIMEOUT * NSEC_PER_SEC) 0)
      Demo.MAX_CONNECTIONS Cases.one_client.
Proof.
  intros Hd. unfold pass.
  remember Cases.one_client as s0 eqn:Es0.
  assert (before_poll Demo.MAX_CONNECTIONS s0 = Done None s0) as E0
    by (rewrite Es0; vm_compute; reflexivity).
  rewrite !(bind_Done _ _ _ _ _ E0).
  cbn [window_elapsed poll_elapsed poll_sigint poll_result Cases.late_request].
  remember (final (elapse (Demo.TIMEOUT * NSEC_PER_SEC) s0)) as sw eqn:Esw.
  assert (elapse (Demo.TIMEOUT * NSEC_PER_SEC) s0 = Done tt sw) as Ew
    by (rewrite Esw, Es0; vm_compute; reflexivity).
  rewrite !(bind_Done _ _ _ _ _ Ew).
  assert (map_Forall (λ _ its, its = zero_itimerspec) (k_timers sw)) as Hzero
    by (rewrite Esw, Es0; apply (bool_decide_unpack _); vm_compute; exact I).
  unfold poll.
  rewrite (bind_eq (elapse d ≫= _) _ sw), (bind_eq (elapse 0 ≫= _) _ sw).
  rewrite (bind_Done _ _ _ _ _ (elapse_idle d sw Hd Hzero)).
  rewrite (bind_Done _ _ _ _ _ (elapse_idle 0 sw (Z.le_refl 0) Hzero)).
  rewrite Esw, Es0. vm_compute. reflexivity.
Qed.

(** C2, on the run in which the timer fires just before [poll] is
    entered.  The server of [server.c] has one client, on descriptor 4
    in slot 1, which stays silent.  Its timer fires after TIMEOUT
    seconds, when the server has tested the timeout flag (line 329) and
    has not yet entered [poll] (line 350): the handler sets the flag,
    and [poll], which is entered afterwards, is interrupted by nothing.  Whatever number of seconds [poll] then
    blocks, until a connection request arrives, the pass ends in the
    same state: the flag is set and the timer of slot 1 has no time
    left, but the client is still connected, its descriptor open, and no
    timeout has been reported.  It is the scan of the next pass, reached
    only because of the request, that closes the connection.  When the
    same timer fires while the server is blocked in [poll], the call is
    interrupted and the next pass closes the connection without any
    activity on a socket. *)
Theorem timeout_signal_before_poll_is_missed (secs : nat) :
  let run script s :=
    final (event_loop Demo.MAX_CONNECTIONS Demo.BUFFER_SIZE Demo.TIMEOUT script
             Demo.MAX_CONNECTIONS s) in
  let expiry := Demo.TIMEOUT * NSEC_PER_SEC in
  let s1 := run [Cases.late_request expiry (Z.of_nat secs * NSEC_PER_SEC)]
                Cases.one_client in
  (pfds Cases.one_client !! 1%nat = Some (Demo.slot 4 0) ∧
   timers Cases.one_client !! 1%nat = Some 1%nat ∧
   k_timers Cases.one_client !! 1%nat = Some (Demo.armed_for Demo.TIMEOUT)) ∧
  (s1 = run [Cases.late_request expiry 0] Cases.one_client ∧
   timeout_triggered s1 = 1 ∧
   k_timers s1 !! 1%nat = Some zero_itimerspec ∧
   pfds s1 !! 1%nat = Some (Demo.slot 4 0) ∧
   4 ∈ k_open s1 ∧
   (timed_out_msg 1 ∉ trace s1) ∧
   SysAccept 3 5 ∈ trace s1) ∧
  (timed_out_msg 1 ∈ trace (run [Demo.interrupted_after 0] s1) ∧
   4 ∉ k_open (run [Demo.interrupted_after 0] s1)) ∧
  (timed_out_msg 1 ∈
     trace (run [Demo.interrupted_after Demo.TIMEOUT; Demo.interrupted_after 0]
                Cases.one_client) ∧
   filter is_accept
     (trace (run [Demo.interrupted_after Demo.TIMEOUT; Demo.interrupted_after 0]
                 Cases.one_client))
   = filter is_accept (trace Cases.one_client)).
Proof.
  intros run expiry s1.
  assert (s1 = run [Cases.late_request expiry 0] Cases.one_client) as E1.
  { subst s1 run expiry. cbn [event_loop]. rewrite !bind_eq.
    rewrite (blocked_after_expiry (Z.of_nat secs * NSEC_PER_SEC)); [done|].
    unfold NSEC_PER_SEC. lia. }
  split_and!; try exact E1; rewrite ?E1; clear E1 s1; subst run expiry.
  - by vm_compute.
  - by vm_compute.
  - by vm_compute.
  - by vm_compute.
  - by vm_compute.
  - by vm_compute.
  - apply (bool_decide_unpack _). by vm_compute.
  - apply (bool_decide_unpack _). by vm_compute.
  - apply (bool_decide_unpack _). by vm_compute.
  - apply (bool_decide_unpack _). by vm_compute.
  - apply (bool_decide_unpack _). by vm_compute.
  - apply (bool_decide_unpack _). by vm_compute.
  - by vm_compute.
Qed.

(** ** Accepting a connection *)

Lemma occupied_clients_bound (l : list pollfd) :
  (occupied_clients l ≤ length l - 1)%nat.
Proof.
  unfold occupied_clients. etrans; [apply length_filter|].
  by rewrite length_drop.
Qed.

Lemma find_slot_full T c k : ∀ i s,
  (∀ j, (i ≤ j ∧ j < i + k)%nat → ∃ p, pfds s !! j = Some p ∧ occupied p) →
  find_slot T c k i s =
  (emit (Eprintf "Too many connections already accepted");; close c;; mret 1) s.
Proof.
  induction k as [|k IH]; intros i s Hfull; [done|].
  destruct (Hfull i) as (p & Hp & Ho); [lia|].
  cbn [find_slot]. erewrite bind_Done by (by apply pfd_at_eq).
  rewrite decide_False by (unfold occupied in Ho; lia).
  apply IH. intros j Hj. apply Hfull. lia.
Qed.

Lemma find_slot_first T c k : ∀ i s j p t its,
  (i ≤ j ∧ j < i + k)%nat →
  (∀ j', (i ≤ j' ∧ j' < j)%nat → ∃ p', pfds s !! j' = Some p' ∧ occupied p') →
  pfds s !! j = Some p → ¬ occupied p →
  timers s !! j = Some t → k_timers s !! t = Some its → 0 ≤ T →
  ∃ s', find_slot T c k i s = Done 0 s' ∧
    pfds s' = alter (set_events POLLIN) j (alter (set_fd c) j (pfds s)) ∧
    timers s' = timers s ∧
    k_timers s' = <[t := {| it_interval := zero_timespec;
                            it_value := {| tv_sec := T; tv_nsec := 0 |} |}]> (k_timers s) ∧
    k_open s' = k_open s ∧
    trace s' = trace s ++ [EprintfClient "Client %zu connected" j].
Proof.
  induction k as [|k IH]; intros i s j p t its Hj Hbefore Hp Hfree Ht Hits HT; [lia|].
  cbn [find_slot].
  destruct (decide (i = j)) as [->|Hne].
  - erewrite bind_Done by (by apply pfd_at_eq).
    rewrite decide_True by (unfold occupied in Hfree; lia).
    rewrite bind_eq. cbn [store_fd modify]. rewrite bind_eq. cbn [store_events modify].
    erewrite bind_Done by (by apply timer_at_eq).
    erewrite bind_Done by (by eapply arm_timer_live).
    rewrite decide_False by congruence.
    rewrite bind_eq, emit_eq. by eexists.
  - destruct (Hbefore i) as (p' & Hp' & Ho'); [lia|].
    erewrite bind_Done by (by apply pfd_at_eq).
    rewrite decide_False by (unfold occupied in Ho'; lia).
    eapply IH; try done; [lia|]. intros j' Hj'. apply Hbefore. lia.
Qed.

Section Capacity.
Variables (MAX_CONNECTIONS BUFFER_SIZE : nat) (TIMEOUT : Z).

(** C1.  With a table of MAX_CONNECTIONS >= 2 slots, never more than
    MAX_CONNECTIONS - 1 client slots are occupied, after
    [accept_connection] and after any run of the event loop.  When all
    the client slots 1 .. MAX_CONNECTIONS - 1 are occupied and [accept]
    hands over a connection, [accept_connection] reports that there are
    too many connections, closes the new descriptor, returns 1 and
    leaves the table, the timer array and every timer as they were. *)
Theorem accept_connection_at_capacity (o : accept_outcome) (s : state) :
  (2 ≤ MAX_CONNECTIONS)%nat →
  length (pfds s) = MAX_CONNECTIONS →
  (occupied_clients (pfds (final (accept_connection MAX_CONNECTIONS TIMEOUT o s)))
     ≤ MAX_CONNECTIONS - 1)%nat ∧
  (∀ script,
     (occupied_clients
        (pfds (final (event_loop MAX_CONNECTIONS BUFFER_SIZE TIMEOUT script
                        MAX_CONNECTIONS s)))
      ≤ MAX_CONNECTIONS - 1)%nat) ∧
  (∀ c p0,
     o = Accepted c → 0 ≤ c →
     pfds s !! 0%nat = Some p0 →
     (∀ i, (1 ≤ i ∧ i < MAX_CONNECTIONS)%nat →
           ∃ p, pfds s !! i = Some p ∧ occupied p) →
     ∃ s',
       accept_connection MAX_CONNECTIONS TIMEOUT o s = Done 1 s' ∧
       pfds s' = pfds s ∧
       timers s' = timers s ∧
       k_timers s' = k_timers s ∧
       (c ∉ k_open s') ∧
       k_open s' = k_open s ∖ {[c]} ∧
       timeout_triggered s' = timeout_triggered s ∧
       interrupt_triggered s' = interrupt_triggered s ∧
       trace s' = trace s ++
         [SysAccept (fd p0) c;
          Eprintf "Too many connections already accepted";
          SysClose c]).
Proof.
  intros HN Hlen. split_and!.
  - destruct (shape_accept_connection MAX_CONNECTIONS TIMEOUT o s) as [E _].
    etrans; [apply occupied_clients_bound|]. lia.
  - intros script.
    destruct (shape_event_loop MAX_CONNECTIONS BUFFER_SIZE TIMEOUT script
                MAX_CONNECTIONS s) as [E _].
    etrans; [apply occupied_clients_bound|]. lia.
  - intros c p0 -> Hc Hp0 Hfull. unfold accept_connection.
    erewrite bind_Done by (by apply pfd_at_eq).
    rewrite bind_eq. unfold accept. rewrite decide_True by done.
    rewrite decide_False by lia.
    rewrite find_slot_full; last first.
    { intros j Hj. cbn [pfds with_k_open with_trace]. apply Hfull. lia. }
    rewrite bind_eq, emit_eq, bind_eq. unfold close.
    cbn [k_open with_trace with_k_open].
    rewrite decide_True by set_solver.
    eexists. split; [done|]. cbn. split_and!; try done; [set_solver..| ].
    by rewrite <-!app_assoc.
Qed.
End Capacity.

(** ** No store outside the receive buffer *)

Lemma nf_ret {A} (a : A) : never_faults (mret a).
Proof. by intros s s'. Qed.
Lemma nf_gets {A} (f : state → A) : never_faults (gets f).
Proof. by intros s s'. Qed.
Lemma nf_modify f : never_faults (modify f).
Proof. by intros s s'. Qed.
Lemma nf_exit {A} c : never_faults (@exit A c).
Proof. by intros s s'. Qed.

Lemma nf_bind_post {A B} (Q : A → Prop) (m : M A) (f : A → M B) :
  never_faults m → (∀ s a s', m s = Done a s' → Q a) →
  (∀ a, Q a → never_faults (f a)) → never_faults (m ≫= f).
Proof.
  intros Hm HQ Hf s s'. rewrite bind_eq.
  destruct (m s) as [a s1|c s1|s1] eqn:E; [|done|by destruct (Hm s s1)].
  apply Hf. by eapply HQ.
Qed.

Lemma nf_bind {A B} (m : M A) (f : A → M B) :
  never_faults m → (∀ a, never_faults (f a)) → never_faults (m ≫= f).
Proof. intros Hm Hf. apply (nf_bind_post (λ _, True)); auto. Qed.

Create HintDb nf discriminated.

Ltac nf_prim :=
  let s := fresh "s" in let s' := fresh "s'" in
  intros s s';
  match goal with |- ?f _ _ _ _ _ ≠ _ => unfold f
                | |- ?f _ _ _ _ ≠ _ => unfold f
                | |- ?f _ _ _ ≠ _ => unfold f
                | |- ?f _ _ ≠ _ => unfold f end;
  repeat case_match; done.

Ltac nf :=
  repeat first
    [ assumption
    | solve [eauto 2 with nf]
    | apply nf_ret | apply nf_gets | apply nf_exit | apply nf_modify
    | (apply nf_bind; [|intros ?])
    | match goal with
      | |- never_faults (if decide _ then _ else _) => case_decide
      | |- never_faults (if ?b then _ else _) => destruct b
      | |- never_faults (match ?x with _ => _ end) => destruct x
      end ].

Section NoFault.
Variables (MAX_CONNECTIONS BUFFER_SIZE : nat) (TIMEOUT : Z).

Lemma nf_timer_settime t v : never_faults (timer_settime t v).
Proof. nf_prim. Qed.
Lemma nf_close c : never_faults (close c).
Proof. nf_prim. Qed.
Lemma nf_accept o c : never_faults (accept o c).
Proof. nf_prim. Qed.
Lemma nf_recv o c b l : never_faults (recv o c b l).
Proof. nf_prim. Qed.
Hint Resolve nf_timer_settime nf_close nf_accept nf_recv : nf.

Lemma nf_emit e : never_faults (emit e).
Proof. unfold emit. nf. Qed.
Lemma nf_perror m : never_faults (perror m).
Proof. apply nf_emit. Qed.
Lemma nf_pfd_at i : never_faults (pfd_at i).
Proof. unfold pfd_at. nf. Qed.
Lemma nf_timer_at i : never_faults (timer_at i).
Proof. unfold timer_at. nf. Qed.
Lemma nf_store_fd i v : never_faults (store_fd i v).
Proof. unfold store_fd. nf. Qed.
Lemma nf_store_events i v : never_faults (store_events i v).
Proof. unfold store_events. nf. Qed.
Hint Resolve nf_emit nf_perror nf_pfd_at nf_timer_at nf_store_fd nf_store_events : nf.

Lemma nf_arm_timer t : never_faults (arm_timer TIMEOUT t).
Proof. unfold arm_timer. nf. Qed.
Lemma nf_disarm_timer t : never_faults (disarm_timer t).
Proof. unfold disarm_timer. nf. Qed.
Hint Resolve nf_arm_timer nf_disarm_timer : nf.

Lemma nf_close_connection i t : never_faults (close_connection i t).
Proof. unfold close_connection. nf. Qed.
Hint Resolve nf_close_connection : nf.

Lemma nf_find_slot c k i : never_faults (find_slot TIMEOUT c k i).
Proof. revert i. induction k; intros i; cbn [find_slot]; nf. Qed.
Hint Resolve nf_find_slot : nf.

Lemma nf_accept_connection o :
  never_faults (accept_connection MAX_CONNECTIONS TIMEOUT o).
Proof. unfold accept_connection. nf. Qed.
Hint Resolve nf_accept_connection : nf.

Lemma recv_bound o cfd buffer len s ret buffer' s' :
  recv o cfd buffer len s = Done (ret, buffer') s' →
  (len < length buffer)%nat →
  ret ≤ Z.of_nat len ∧ length buffer' = length buffer.
Proof.
  unfold recv. intros E Hlen. destruct o as [data|e]; simplify_eq; [|lia].
  rewrite length_app, length_drop, !length_take. lia.
Qed.

(** C8.  [serve] asks [recv] for at most BUFFER_SIZE - 1 bytes of its
    BUFFER_SIZE-byte buffer; whatever arrives, the count [recv] returns
    is at most BUFFER_SIZE - 1, so for a count that is not negative the
    store of the terminator at that index is inside the buffer; and
    [serve] never stores outside the buffer. *)
Theorem terminator_within_buffer (env : pass_env) (i : nat) (active : Z) :
  (1 ≤ BUFFER_SIZE)%nat →
  (∀ o cfd s ret buffer' s',
     recv o cfd (resize BUFFER_SIZE x00 (stack_bytes env i)) (BUFFER_SIZE - 1) s
       = Done (ret, buffer') s' →
     ret ≤ Z.of_nat BUFFER_SIZE - 1 ∧
     length buffer' = BUFFER_SIZE ∧
     (0 ≤ ret →
      (Z.to_nat ret < length buffer')%nat ∧
      buffer_store buffer' ret x00 s' =
        Done (<[Z.to_nat ret := x00]> buffer') s')) ∧
  never_faults (serve MAX_CONNECTIONS BUFFER_SIZE TIMEOUT env i active).
Proof.
  intros HB.
  assert (∀ o cfd s ret buffer' s',
     recv o cfd (resize BUFFER_SIZE x00 (stack_bytes env i)) (BUFFER_SIZE - 1) s
       = Done (ret, buffer') s' →
     ret ≤ Z.of_nat BUFFER_SIZE - 1 ∧ length buffer' = BUFFER_SIZE) as Hrecv.
  { intros o cfd s ret buffer' s' E.
    apply recv_bound in E; rewrite length_resize in *; lia. }
  split.
  - intros o cfd s ret buffer' s' E.
    destruct (Hrecv _ _ _ _ _ _ E) as [Hret Hlen].
    split_and!; [done..|]. intros H0. split; [lia|].
    unfold buffer_store. by rewrite decide_True by lia.
  - unfold serve.
    apply nf_bind; [nf|intros pfd]. apply nf_bind; [nf|intros timer].
    case_decide; [nf|]. apply nf_bind; [nf|intros _].
    case_decide; [nf|]. case_decide; [nf|].
    apply nf_bind; [nf|intros r]. case_decide; [nf|].
    apply nf_bind; [nf|intros pfd'].
    apply (nf_bind_post (λ rb, rb.1 ≤ Z.of_nat BUFFER_SIZE - 1 ∧
                               length rb.2 = BUFFER_SIZE)); [nf| |].
    + intros s [ret b] s' E. by eapply Hrecv.
    + intros [ret b] [Hret Hlen]. simpl in *. nf.
      intros s s'. unfold buffer_store. rewrite decide_True by lia. done.
Qed.
End NoFault.

(** ** An interrupted read *)

Lemma arm_timer_frame T t s r s' :
  arm_timer T t s = Done r s' →
  pfds s' = pfds s ∧ timers s' = timers s ∧ k_open s' = k_open s ∧
  timeout_triggered s' = timeout_triggered s ∧
  interrupt_triggered s' = interrupt_triggered s ∧
  (r = 0 → trace s' = trace s ∧ errno s' = errno s).
Proof.
  unfold arm_timer, timer_settime. rewrite bind_eq.
  repeat case_match; intros E;
    unfold mret, M_ret, mbind, M_bind, perror, emit, modify in E;
    simplify_eq; cbn; split_and!; done.
Qed.

Section InterruptedRead.
Variables (MAX_CONNECTIONS BUFFER_SIZE : nat) (TIMEOUT : Z).

(** C4.  [serve] on an occupied client slot with input pending: once
    the slot's timer has been re-armed, a [recv] that fails with EINTR
    ends the turn for this slot with [continue].  Between the state in
    which [recv] is called and the state in which the loop moves on, the
    table, the timer array, every timer, the open descriptors and both
    flags are the same; only [errno] and the trace record the call.  The
    slot is still occupied, so the next [poll] watches it again. *)
Theorem interrupted_read_is_skipped
    (env : pass_env) (i : nat) (active : Z) (s s1 : state) (p : pollfd) (t : timer_t) :
  pfds s !! i = Some p → timers s !! i = Some t →
  occupied p → Z.land (revents p) POLLIN ≠ 0 → i ≠ 0%nat →
  arm_timer TIMEOUT t (with_trace (λ tr, tr ++ [Service i]) s) = Done 0 s1 →
  recv_result env i = RecvFailed EINTR →
  ∃ s',
    serve MAX_CONNECTIONS BUFFER_SIZE TIMEOUT env i active s
      = Done (Next (active - 1)) s' ∧
    pfds s' = pfds s1 ∧ pfds s1 = pfds s ∧
    timers s' = timers s1 ∧
    k_timers s' = k_timers s1 ∧
    k_open s' = k_open s1 ∧
    timeout_triggered s' = timeout_triggered s1 ∧
    interrupt_triggered s' = interrupt_triggered s1 ∧
    errno s' = EINTR ∧
    trace s' = trace s1 ++ [SysRecv (fd p) (-1)] ∧
    pfds s' !! i = Some p.
Proof.
  intros Hp Ht Ho Hin Hi Harm Hrecv.
  destruct (arm_timer_frame _ _ _ _ _ Harm) as (Fp & Ft & Fo & Ftt & Fit & _).
  cbn [with_trace pfds timers k_open timeout_triggered interrupt_triggered] in *.
  unfold serve.
  erewrite bind_Done by (by apply pfd_at_eq).
  erewrite bind_Done by (by apply timer_at_eq).
  rewrite decide_False; last first.
  { intros [?|E]; [unfold occupied in Ho; lia|]. by rewrite E in Hin. }
  rewrite bind_eq, emit_eq.
  rewrite decide_False by done. rewrite decide_False by done.
  erewrite bind_Done by exact Harm.
  rewrite decide_False by congruence.
  erewrite bind_Done by (apply pfd_at_eq; by rewrite Fp).
  rewrite Hrecv, bind_eq. cbn [recv].
  rewrite decide_False by done. rewrite decide_True by done.
  rewrite bind_eq. cbn [gets errno with_errno]. rewrite decide_True by done.
  eexists. split; [done|]. cbn. split_and!; try done. by rewrite Fp.
Qed.
End InterruptedRead.

(** ** Disarmed and expired timers *)

Lemma with_k_timers_twice f g s :
  with_k_timers f (with_k_timers g s) = with_k_timers (f ∘ g) s.
Proof. done. Qed.

Section Timers.
Variables (MAX_CONNECTIONS : nat) (TIMEOUT : Z).

(** C10.  Disarming a live timer succeeds and leaves it without a
    deadline; disarming it again succeeds too and changes nothing: the
    state after two calls is the state after one. *)
Theorem disarm_timer_idempotent (timer : timer_t) (s : state) :
  is_Some (k_timers s !! timer) →
  ∃ s1,
    disarm_timer timer s = Done 0 s1 ∧
    k_timers s1 !! timer = Some zero_itimerspec ∧
    disarm_timer timer s1 = Done 0 s1 ∧
    (disarm_timer timer ≫= λ _, disarm_timer timer) s = disarm_timer timer s.
Proof.
  intros [its Hits].
  assert (disarm_timer timer
            (with_k_timers (λ m, <[timer := zero_itimerspec]> m) s)
          = Done 0 (with_k_timers (λ m, <[timer := zero_itimerspec]> m) s)) as E2.
  { erewrite disarm_timer_live by apply lookup_insert_eq.
    rewrite with_k_timers_twice. f_equal. unfold with_k_timers. f_equal.
    apply insert_insert_eq. }
  eexists. split; [by eapply disarm_timer_live|].
  split_and!; [apply lookup_insert_eq|done|].
  erewrite bind_Done by (by eapply disarm_timer_live).
  rewrite E2. symmetry. by eapply disarm_timer_live.
Qed.

(** C9.  [timer_expired] answers true exactly when the timer has zero
    seconds and zero nanoseconds left.  That is the case for a timer
    that has fired, and just as well for one that has been disarmed.
    The scan does not evict on a disarmed timer because it asks only
    for occupied slots: a free slot keeps its state and is not
    reported, whatever its timer says; and a slot that
    [accept_connection] occupies has its timer armed (TIMEOUT > 0), so
    that [timer_expired] answers false for it. *)
Theorem timer_expired_on_disarmed (n : nat) (s : state) :
  timers_live s → length (timers s) = n → length (pfds s) = n →
  (∀ t its, k_timers s !! t = Some its →
     timer_expired t s = Done (bool_decide (no_time_left its)) s) ∧
  (∀ t its, k_timers s !! t = Some its →
     ∃ s1, disarm_timer t s = Done 0 s1 ∧ timer_expired t s1 = Done true s1) ∧
  (∀ t its d, k_timers s !! t = Some its →
     armed its = true → nanoseconds (it_value its) ≤ d →
     ∃ s1, elapse d s = Done tt s1 ∧ timer_expired t s1 = Done true s1) ∧
  (∀ i p t its,
     pfds s !! i = Some p → timers s !! i = Some t →
     k_timers s !! t = Some its → ¬ occupied p → no_time_left its →
     timer_expired t s = Done true s ∧
     ∃ s' tr,
       check_timeouts (n - 1) 1 s = Done tt s' ∧
       trace s' = trace s ++ tr ∧
       pfds s' !! i = Some p ∧
       k_timers s' !! t = Some its ∧
       timed_out_msg i ∉ tr) ∧
  (∀ c j p p0 t its,
     0 < TIMEOUT → n = MAX_CONNECTIONS → (1 ≤ j)%nat → 0 ≤ c →
     pfds s !! 0%nat = Some p0 →
     pfds s !! j = Some p → timers s !! j = Some t →
     k_timers s !! t = Some its → ¬ occupied p →
     (∀ j', (1 ≤ j' ∧ j' < j)%nat → ∃ p', pfds s !! j' = Some p' ∧ occupied p') →
     ∃ s' p',
       accept_connection MAX_CONNECTIONS TIMEOUT (Accepted c) s = Done 0 s' ∧
       pfds s' !! j = Some p' ∧ fd p' = c ∧ occupied p' ∧
       timer_expired t s' = Done false s').
Proof.
  intros Hlive Hlt Hlp. split_and!.
  - intros t its Hits. by apply timer_expired_live.
  - intros t its Hits. eexists. split; [by eapply disarm_timer_live|].
    erewrite timer_expired_live by apply lookup_insert_eq.
    by rewrite bool_decide_eq_true_2.
  - intros t its d Hits Harm Hd. eexists. split.
    { eapply elapse_fires; [done|]. unfold fires.
      by rewrite Harm, bool_decide_eq_true_2. }
    erewrite timer_expired_live; last first.
    { cbn. by rewrite lookup_fmap, Hits. }
    rewrite bool_decide_eq_true_2; [done|]. by apply tick_out.
  - intros i p t its Hp Ht Hits Hfree Hzero. split.
    { erewrite timer_expired_live by done. by rewrite bool_decide_eq_true_2. }
    destruct (check_timeouts_scanned (n - 1) 1 s) as (s' & tr & E & Hs);
      [done|congruence|lia|].
    destruct Hs as (_ & _ & _ & _ & _ & _ & Gtr & _ & _ & _ & Gkeep).
    exists s', tr. split_and!; [done|done|..];
      apply (Gkeep i p t its); try done; tauto.
  - intros c j p p0 t its HT -> Hj Hc Hp0 Hp Ht Hits Hfree Hbefore.
    unfold accept_connection.
    erewrite bind_Done by (by apply pfd_at_eq).
    rewrite bind_eq. unfold accept. rewrite decide_True by done.
    rewrite decide_False by lia.
    match goal with |- context [find_slot _ _ _ _ ?sa] =>
      destruct (find_slot_first TIMEOUT c (MAX_CONNECTIONS - 1) 1 sa j p t its)
        as (s' & E & Gp & Gt & Gk & _); last first
    end.
    { cbn [pfds timers k_timers with_k_open with_trace] in Gp, Gk.
      rewrite E. exists s', (set_events POLLIN (set_fd c p)).
      split_and!; [done| |done|done|].
      - by rewrite Gp, !list_lookup_alter_eq, Hp.
      - erewrite timer_expired_live by (rewrite Gk; apply lookup_insert_eq).
        rewrite bool_decide_eq_false_2; [done|].
        unfold no_time_left. cbn. lia. }
    all: cbn [pfds timers k_timers with_k_open with_trace]; try done; try lia.
    apply lookup_lt_Some in Hp. lia.
Qed.
End Timers.

(** ** Creating and destroying the timers *)

Lemma timer_delete_live t s its :
  k_timers s !! t = Some its →
  timer_delete t s = Done 0 (with_k_timers (λ m, delete t m) s).
Proof. intros H. unfold timer_delete. by rewrite H. Qed.

(** Deleting [k] live, distinct timers from index [j] on succeeds and
    removes exactly those. *)
Lemma destroy_timers_from_live k : ∀ j s,
  NoDup (take k (drop j (timers s))) →
  (∀ t, t ∈ take k (drop j (timers s)) → is_Some (k_timers s !! t)) →
  (j + k ≤ length (timers s))%nat →
  ∃ s', destroy_timers_from k j s = Done 0 s' ∧
    timers s' = timers s ∧ pfds s' = pfds s ∧ k_open s' = k_open s ∧
    trace s' = trace s ∧
    (∀ t, t ∈ take k (drop j (timers s)) → k_timers s' !! t = None) ∧
    (∀ t, t ∉ take k (drop j (timers s)) → k_timers s' !! t = k_timers s !! t).
Proof.
  induction k as [|k IH]; intros j s Hnd Hlive Hlen.
  { exists s. split_and!; try done. intros t Ht. by rewrite take_0 in Ht; set_solver. }
  destruct (lookup_lt_is_Some_2 (timers s) j) as [t Ht]; [lia|].
  rewrite (drop_S _ _ _ Ht) in Hnd, Hlive |- *. rewrite firstn_cons in Hnd, Hlive |- *.
  apply NoDup_cons in Hnd as [Hnotin Hnd].
  destruct (Hlive t) as [its Hits]; [set_solver|].
  cbn [destroy_timers_from].
  erewrite bind_Done by (by apply timer_at_eq).
  erewrite bind_Done by (by eapply timer_delete_live).
  rewrite decide_False by congruence.
  destruct (IH (S j) (with_k_timers (λ m, delete t m) s))
    as (s' & E & Gt & Gp & Go & Gtr & Gin & Gout).
  { done. }
  { intros t' Ht'. cbn. rewrite lookup_delete_ne by set_solver.
    apply Hlive. set_solver. }
  { cbn. lia. }
  cbn [with_k_timers timers pfds k_open trace k_timers] in *.
  exists s'. split_and!; try done.
  - intros t' [->|Ht']%elem_of_cons; [|by apply Gin].
    rewrite Gout by done. apply lookup_delete_eq.
  - intros t' [Hne Ht']%not_elem_of_cons.
    rewrite Gout by done. by apply lookup_delete_ne.
Qed.

Lemma timer_create_created base i s :
  created base i s → (i < length (timers s))%nat →
  ∃ s', timer_create true i s = Done 0 s' ∧ created base (S i) s'.
Proof.
  intros (Hlen & Hnd & Hnew & Hold) Hi. eexists. split; [done|].
  set (id := fresh (dom (k_timers s))).
  assert (k_timers s !! id = None) as Hid.
  { apply not_elem_of_dom. apply is_fresh. }
  assert (id ∉ take i (timers s)) as Hnotin.
  { intros Hin. destruct (Hnew _ Hin) as [_ E]. congruence. }
  assert (take (S i) (<[i := id]> (timers s)) = take i (timers s) ++ [id]) as Etake.
  { erewrite take_S_r by (by apply list_lookup_insert_eq).
    by rewrite take_insert_ge. }
  unfold created. cbn [with_timers with_k_timers timers k_timers]. rewrite Etake.
  split_and!.
  - by rewrite length_insert.
  - apply NoDup_app. split_and!; [done|set_solver|apply NoDup_singleton].
  - intros t [Ht| ->%list_elem_of_singleton]%elem_of_app.
    + destruct (Hnew _ Ht). rewrite lookup_insert_ne by set_solver. done.
    + rewrite lookup_insert_eq. split; [|done]. by rewrite <-Hold.
  - intros t [Ht Hne%not_elem_of_cons]%not_elem_of_app.
    rewrite lookup_insert_ne by naive_solver. by apply Hold.
Qed.

Lemma create_timers_from_all ok base k : ∀ i s,
  created base i s → (i + k ≤ length (timers s))%nat →
  (∀ j, (i ≤ j ∧ j < i + k)%nat → ok j = true) →
  ∃ s', create_timers_from ok k i s = Done 0 s' ∧ created base (i + k) s'.
Proof.
  induction k as [|k IH]; intros i s Hc Hlen Hok.
  { exists s. by rewrite Nat.add_0_r. }
  cbn [create_timers_from]. rewrite Hok by lia.
  destruct (timer_create_created base i s) as (s1 & E & Hc1); [done|lia|].
  erewrite bind_Done by done. rewrite decide_False by congruence.
  destruct (IH (S i) s1) as (s' & E' & Hc'); [done| |intros; apply Hok; lia|].
  { destruct Hc1 as [-> _]. destruct Hc as [<- _]. lia. }
  exists s'. split; [done|]. by replace (i + S k)%nat with (S i + k)%nat by lia.
Qed.

Lemma create_timers_from_none ok base k : ∀ i s f,
  created base i s → (i + k ≤ length (timers s))%nat →
  (i ≤ f ∧ f < i + k)%nat →
  (∀ j, (i ≤ j ∧ j < f)%nat → ok j = true) → ok f = false →
  ∃ s', create_timers_from ok k i s = Done 1 s' ∧
        k_timers s' = k_timers base ∧ length (timers s') = length (timers base).
Proof.
  induction k as [|k IH]; intros i s f Hc Hlen Hf Hok Hfail; [lia|].
  cbn [create_timers_from].
  destruct (decide (i = f)) as [->|Hne].
  - rewrite Hfail. unfold timer_create at 1.
    rewrite bind_eq. rewrite decide_True by done.
    rewrite bind_eq. unfold perror. rewrite emit_eq.
    set (s0 := with_trace _ _).
    destruct Hc as (Hlens & Hnd & Hnew & Hold).
    destruct (destroy_timers_from_live f 0 s0) as (s' & E & Gt & _ & _ & _ & Gin & Gout).
    { by rewrite drop_0. }
    { intros t Ht. rewrite drop_0 in Ht. destruct (Hnew t Ht) as [_ E].
      subst s0. cbn. by rewrite E. }
    { cbn. lia. }
    unfold destroy_timers. rewrite bind_eq, E. exists s'. split; [done|].
    subst s0. cbn [with_trace with_errno timers k_timers] in *.
    rewrite drop_0 in Gin, Gout. split; [|by rewrite Gt].
    apply map_eq. intros t.
    destruct (decide (t ∈ take f (timers s))) as [Hin|Hout].
    + rewrite Gin by done. by destruct (Hnew t Hin) as [-> _].
    + rewrite Gout by done. by apply Hold.
  - rewrite Hok by lia.
    destruct (timer_create_created base i s) as (s1 & E & Hc1); [done|lia|].
    erewrite bind_Done by done. rewrite decide_False by congruence.
    apply (IH (S i) s1 f); try done; [|lia|intros; apply Hok; lia].
    destruct Hc1 as [-> _]. destruct Hc as [<- _]. lia.
Qed.

(** C7.  [create_timers] on an array of at least [n] entries either
    creates [n] new, distinct timers, none of them armed, stores them in
    the first [n] entries and returns 0; or, when the first call of
    [timer_create] to fail is the one for entry [i], deletes the [i]
    timers it had created and returns 1, leaving the kernel with exactly
    the timers it had before the call. *)
Theorem create_timers_all_or_nothing (ok : nat → bool) (n : nat) (s : state) :
  (n ≤ length (timers s))%nat →
  ((∀ j, (j < n)%nat → ok j = true) →
   ∃ s', create_timers ok n s = Done 0 s' ∧
         length (timers s') = length (timers s) ∧
         NoDup (take n (timers s')) ∧
         (∀ t, t ∈ take n (timers s') →
               k_timers s !! t = None ∧ k_timers s' !! t = Some zero_itimerspec) ∧
         (∀ t, t ∉ take n (timers s') → k_timers s' !! t = k_timers s !! t)) ∧
  (∀ i, (i < n)%nat → (∀ j, (j < i)%nat → ok j = true) → ok i = false →
   ∃ s', create_timers ok n s = Done 1 s' ∧
         k_timers s' = k_timers s ∧
         length (timers s') = length (timers s)).
Proof.
  intros Hn.
  assert (created s 0 s) as Hc0.
  { unfold created. rewrite take_0. split_and!; [done|apply NoDup_nil_2|..].
    - intros t Ht. by apply elem_of_nil in Ht.
    - done. }
  split.
  - intros Hok.
    destruct (create_timers_from_all ok s n 0 s) as (s' & E & Hc);
      [done|lia|intros; apply Hok; lia|].
    exists s'. done.
  - intros i Hi Hok Hfail.
    apply (create_timers_from_none ok s n 0 s i); try done; [lia..|].
    intros; apply Hok; lia.
Qed.

(** ** What handling one readiness event leaves alone *)

Section Quiet.
Variables (MAX_CONNECTIONS BUFFER_SIZE : nat) (TIMEOUT : Z).

Ltac quiet := keeps_with quiet_side.

Lemma quiet_timer_settime t v : keeps quietly (timer_settime t v).
Proof. keeps_prim quiet_side. Qed.
Lemma quiet_close c : keeps quietly (close c).
Proof. keeps_prim quiet_side. Qed.
Lemma quiet_accept o c : keeps quietly (accept o c).
Proof. keeps_prim quiet_side. Qed.
Lemma quiet_recv o c b l : keeps quietly (recv o c b l).
Proof. keeps_prim quiet_side. Qed.
Hint Resolve quiet_timer_settime quiet_close quiet_accept quiet_recv : keeps.

Lemma quiet_perror m : keeps quietly (perror m).
Proof. unfold perror, emit. quiet. Qed.
Lemma quiet_store_fd i v : keeps quietly (store_fd i v).
Proof. unfold store_fd. quiet. Qed.
Lemma quiet_store_events i v : keeps quietly (store_events i v).
Proof. unfold store_events. quiet. Qed.
Lemma quiet_deliver_sigint b : keeps quietly (deliver_sigint b).
Proof. unfold deliver_sigint, interrupt_handler. quiet. Qed.
Hint Resolve quiet_perror quiet_store_fd quiet_store_events quiet_deliver_sigint : keeps.

Lemma quiet_arm_timer t : keeps quietly (arm_timer TIMEOUT t).
Proof. unfold arm_timer. quiet. Qed.
Lemma quiet_disarm_timer t : keeps quietly (disarm_timer t).
Proof. unfold disarm_timer. quiet. Qed.
Hint Resolve quiet_arm_timer quiet_disarm_timer : keeps.

Lemma quiet_close_connection i t : keeps quietly (close_connection i t).
Proof. unfold close_connection, pfd_at. quiet. Qed.
Hint Resolve quiet_close_connection : keeps.

Lemma quiet_find_slot c k i : keeps quietly (find_slot TIMEOUT c k i).
Proof.
  revert i. induction k; intros i; cbn [find_slot];
    unfold pfd_at, timer_at, emit; quiet.
Qed.
Hint Resolve quiet_find_slot : keeps.

Lemma quiet_accept_connection o :
  keeps quietly (accept_connection MAX_CONNECTIONS TIMEOUT o).
Proof. unfold accept_connection, pfd_at. quiet. Qed.
Hint Resolve quiet_accept_connection : keeps.


End Quiet.



Section Order.
Variables (MAX_CONNECTIONS BUFFER_SIZE : nat) (TIMEOUT : Z).

End Order.

(** ** Every reported event is consumed *)

Global Instance elsewhere_preorder i : PreOrder (elsewhere i).
Proof.
  split; [by intros s|]. intros s1 s2 s3 [L12 H12] [L23 H23]. split; [congruence|].
  intros j Hj. by rewrite H23, H12.
Qed.

Global Instance occupied_kept_preorder i : PreOrder (occupied_kept i).
Proof.
  split; [by intros s|]. intros s1 s2 s3 [L12 H12] [L23 H23]. split; [congruence|].
  intros j p Hj Hp Ho. apply H23; [done| |done]. by apply H12.
Qed.

Lemma elsewhere_occupied_kept i s s' : elsewhere i s s' → occupied_kept i s s'.
Proof. intros [Hl H]. split; [done|]. intros j p Hj Hp _. by rewrite H. Qed.

Lemma keeps_weaken {A} (R R' : relation state) (m : M A) :
  (∀ s s', R s s' → R' s s') → keeps R m → keeps R' m.
Proof. intros H Hk s. apply H, Hk. Qed.

Ltac elsewhere_side :=
  unfold elsewhere; simpl; split;
  [ by rewrite ?length_alter
  | intros ? ?; by rewrite ?list_lookup_alter_ne by done ].

Ltac kept_side := unfold occupied_kept; simpl; split; [done|by intros].




Section Reported.
Variables (MAX_CONNECTIONS BUFFER_SIZE : nat) (TIMEOUT : Z).

Lemma elsewhere_timer_settime i t v : keeps (elsewhere i) (timer_settime t v).
Proof. keeps_prim elsewhere_side. Qed.
Lemma elsewhere_close i c : keeps (elsewhere i) (close c).
Proof. keeps_prim elsewhere_side. Qed.
Lemma elsewhere_emit i e : keeps (elsewhere i) (emit e).
Proof. unfold emit. keeps_with elsewhere_side. Qed.
Lemma elsewhere_store_fd i v : keeps (elsewhere i) (store_fd i v).
Proof. unfold store_fd. keeps_with elsewhere_side. Qed.
Lemma elsewhere_store_events i v : keeps (elsewhere i) (store_events i v).
Proof. unfold store_events. keeps_with elsewhere_side. Qed.
#[local] Hint Resolve elsewhere_timer_settime elsewhere_close elsewhere_emit
  elsewhere_store_fd elsewhere_store_events : keeps.

Lemma elsewhere_arm_timer i t : keeps (elsewhere i) (arm_timer TIMEOUT t).
Proof. unfold arm_timer, perror. keeps_with elsewhere_side. Qed.
Lemma elsewhere_disarm_timer i t : keeps (elsewhere i) (disarm_timer t).
Proof. unfold disarm_timer, perror. keeps_with elsewhere_side. Qed.
#[local] Hint Resolve elsewhere_arm_timer elsewhere_disarm_timer : keeps.

Lemma elsewhere_close_connection i t : keeps (elsewhere i) (close_connection i t).
Proof. unfold close_connection, pfd_at. keeps_with elsewhere_side. Qed.
#[local] Hint Resolve elsewhere_close_connection : keeps.

Lemma kept_close_connection i t : keeps (occupied_kept i) (close_connection i t).
Proof.
  eapply keeps_weaken; [apply elsewhere_occupied_kept|apply elsewhere_close_connection].
Qed.

Lemma kept_timer_settime i t v : keeps (occupied_kept i) (timer_settime t v).
Proof. keeps_prim kept_side. Qed.
Lemma kept_close i c : keeps (occupied_kept i) (close c).
Proof. keeps_prim kept_side. Qed.
Lemma kept_accept i o c : keeps (occupied_kept i) (accept o c).
Proof. keeps_prim kept_side. Qed.
Lemma kept_recv i o c b n : keeps (occupied_kept i) (recv o c b n).
Proof. keeps_prim kept_side. Qed.
Lemma kept_emit i e : keeps (occupied_kept i) (emit e).
Proof. unfold emit. keeps_with kept_side. Qed.
Lemma kept_perror i m : keeps (occupied_kept i) (perror m).
Proof. apply kept_emit. Qed.
#[local] Hint Resolve kept_close_connection kept_timer_settime kept_close kept_accept
  kept_recv kept_emit kept_perror : keeps.

Lemma kept_arm_timer i t : keeps (occupied_kept i) (arm_timer TIMEOUT t).
Proof. unfold arm_timer. keeps_with kept_side. Qed.
#[local] Hint Resolve kept_arm_timer : keeps.

(** The search for a slot changes a free slot, if any. *)
Lemma kept_find_slot i0 c k : ∀ i,
  keeps (occupied_kept i0) (find_slot TIMEOUT c k i).
Proof.
  induction k as [|k IH]; intros i; cbn [find_slot]; [keeps_with kept_side|].
  intros s. rewrite bind_eq. cbn [pfd_at gets].
  case_decide as Hfree; [|apply IH].
  match goal with |- occupied_kept _ _ (final (?m s)) =>
    assert (keeps (elsewhere i) m) as Hk
  end.
  { unfold timer_at. keeps_with elsewhere_side. }
  destruct (Hk s) as [Hlen Hel]. split; [done|].
  intros j q Hj Hq Hocc. rewrite Hel; [done|].
  intros ->. rewrite Hq in Hfree. unfold occupied in Hocc. cbn in Hfree. lia.
Qed.
#[local] Hint Resolve kept_find_slot : keeps.

Lemma kept_accept_connection i o :
  keeps (occupied_kept i) (accept_connection MAX_CONNECTIONS TIMEOUT o).
Proof. unfold accept_connection, pfd_at. keeps_with kept_side. Qed.
#[local] Hint Resolve kept_accept_connection : keeps.


End Reported.

(** ** The order of a pass *)

Lemma fmap_fd_poll bits n (l : list pollfd) :
  fd <$> (imap (poll_revents bits) (take n l) ++ drop n l) = fd <$> l.
Proof.
  rewrite <-(take_drop n l) at 3. rewrite !fmap_app. f_equal.
  apply list_eq. intros i. rewrite !list_lookup_fmap, list_lookup_imap.
  by destruct (take n l !! i).
Qed.

Lemma elapse_frame d s :
  ∃ s', elapse d s = Done tt s' ∧ pfds s' = pfds s ∧ trace s' = trace s ∧
        timers s' = timers s ∧ interrupt_triggered s' = interrupt_triggered s.
Proof.
  unfold elapse. rewrite bind_eq. cbn [gets]. rewrite bind_eq. cbn [modify].
  case_match; by eexists.
Qed.

(** The process blocked in [poll] until the call returns. *)
Lemma poll_blocked d sig s :
  ∃ s', (elapse d ≫= λ _, deliver_sigint sig) s = Done tt s' ∧
        pfds s' = pfds s ∧ trace s' = trace s.
Proof.
  destruct (elapse_frame d s) as (s1 & E & Ep1 & Et1 & _).
  erewrite bind_Done by exact E. rewrite <-Ep1, <-Et1.
  destruct sig; by eexists.
Qed.

Lemma poll_failed d sig e n s :
  ∃ s', poll d sig (PollFailed e) n s = Done (-1) s' ∧
        trace s' = trace s ++ [SysPoll (-1)] ∧
        fd <$> pfds s' = fd <$> pfds s ∧ errno s' = e.
Proof.
  destruct (poll_blocked d sig s) as (s1 & E & Ep & Et).
  assert (poll d sig (PollFailed e) n s =
          ((if decide (e = EINTR)
            then modify (with_pfds (λ l, imap (poll_revents []) (take n l) ++ drop n l))
            else mret tt);;
           modify (with_errno e);; emit (SysPoll (-1));; mret (-1)) s1) as ->.
  { unfold poll. rewrite bind_eq in E. rewrite bind_eq.
    destruct (elapse d s) as [[] s0| |]; [|done..].
    by erewrite bind_Done by exact E. }
  case_decide; eexists; (split; [done|]); cbn; rewrite Et; split_and!; try done.
  - by rewrite fmap_fd_poll, Ep.
  - by rewrite Ep.
Qed.

Lemma poll_ready d sig bits n s :
  ∃ ret s', poll d sig (Ready bits) n s = Done ret s' ∧
    trace s' = trace s ++ [SysPoll ret] ∧
    ∀ j q, (length (pfds s) ≤ n)%nat → pfds s' !! j = Some q → revents q ≠ 0 →
           ∃ p, pfds s !! j = Some p ∧ occupied p.
Proof.
  destruct (poll_blocked d sig s) as (s1 & E & Ep & Et).
  eexists _, _. split.
  { unfold poll. rewrite bind_eq in E. rewrite bind_eq.
    destruct (elapse d s) as [[] s0| |]; [|done..].
    erewrite bind_Done by exact E. done. }
  cbn. rewrite Ep, Et. split; [done|].
  intros j q Hn. rewrite take_ge, drop_ge, app_nil_r by done.
  rewrite list_lookup_imap. destruct (pfds s !! j) as [p|]; [|done].
  cbn. intros [= <-]. cbn. case_decide as Hfd; [done|]. intros _.
  exists p. split; [done|]. unfold occupied. lia.
Qed.




(** ** A timer that fires while the process is blocked in [poll] *)

(** An occupied client slot has an armed timer whose deadline falls
    within the time the process is blocked in [poll], however long or
    short that time is.  The timer fires, [poll] fails with EINTR and
    writes back that it has found no event, and the scan at the start of
    the next pass closes the connection and reports it before [poll] is
    called again: no activity on any socket was needed. *)
Lemma expiry_in_poll_evicts (n : nat) (s : state) (d : Z) i p t its :
  timers_live s → length (timers s) = n → length (pfds s) = n →
  interrupt_triggered s = 0 →
  pfds s !! i = Some p → timers s !! i = Some t → k_timers s !! t = Some its →
  (1 ≤ i)%nat → occupied p →
  armed its = true → nanoseconds (it_value its) ≤ d →
  ∃ s1 s2,
    poll d false (PollFailed EINTR) n s = Done (-1) s1 ∧
    errno s1 = EINTR ∧
    trace s1 = trace s ++ [SysPoll (-1)] ∧
    pfds s1 !! i = Some (set_revents 0 p) ∧
    before_poll n s1 = Done None s2 ∧
    pfds s2 !! i = Some (set_fd (-1) (set_revents 0 p)) ∧
    k_timers s2 !! t = Some zero_itimerspec ∧
    (fd p ∉ k_open s2) ∧
    timed_out_msg i ∈ trace s2 ∧ SysClose (fd p) ∈ trace s2 ∧
    filter is_poll (trace s2) = filter is_poll (trace s1).
Proof.
  intros Hlive Hlt Hlp Hint Hp Ht Hits Hi Ho Harm Hrem.
  set (s1 := with_trace (λ tr, tr ++ [SysPoll (-1)])
               (with_errno EINTR
                  (with_pfds (λ l, imap (poll_revents []) (take n l) ++ drop n l)
                     (with_timeout_triggered 1
                        (with_k_timers (λ m, tick d <$> m) s))))).
  assert (poll d false (PollFailed EINTR) n s = Done (-1) s1) as Epoll.
  { unfold poll. erewrite bind_Done; last first.
    { eapply elapse_fires; [done|]. unfold fires.
      rewrite Harm, bool_decide_eq_true_2 by lia. done. }
    done. }
  assert (pfds s1 !! i = Some (set_revents 0 p)) as Hp1.
  { cbn. rewrite take_ge, drop_ge, app_nil_r by lia.
    rewrite list_lookup_imap, Hp. cbn. unfold poll_revents.
    rewrite lookup_nil. cbn. by case_decide. }
  destruct (check_timeouts_scanned (n - 1) 1 (with_timeout_triggered 0 s1))
    as (s2 & tr & E & Hs).
  { destruct Hlive as [Hnd Hall]. split; [done|].
    rewrite Forall_forall in Hall |- *. intros t' Ht'.
    cbn. rewrite lookup_fmap. destruct (Hall t' Ht') as [x ->]. by eexists. }
  { cbn. rewrite length_app, length_imap, length_take, length_drop. lia. }
  { cbn. rewrite length_app, length_imap, length_take, length_drop. lia. }
  destruct Hs as (Gtm & Glen & Gdom & Gko & Gtt & Git & Gtr & Gsv & Gpl & Gev & Gkeep).
  destruct (Gev i (set_revents 0 p) t (tick d its)) as (G1 & G2 & G3 & G4 & G5).
  { exact Hp1. }
  { done. }
  { cbn. by rewrite lookup_fmap, Hits. }
  { apply lookup_lt_Some in Hp. lia. }
  { destruct p. exact Ho. }
  { apply tick_out. lia. }
  assert (fd (set_revents 0 p) = fd p) as Efd by (by destruct p).
  rewrite Efd in G3, G5.
  exists s1, s2. split_and!; try done.
  - rewrite before_poll_scan by done. by rewrite bind_eq, E.
  - rewrite Gtr. set_solver.
  - rewrite Gtr. set_solver.
  - rewrite Gtr, filter_app, Gpl, app_nil_r. done.
Qed.

Section Pass.
Variables (MAX_CONNECTIONS BUFFER_SIZE : nat) (TIMEOUT : Z).


End Pass.

(** ** Shutdown *)

(** Closing the slots from [i] on, [k] of them. *)
Lemma close_all_live k : ∀ i s,
  timers_live s → length (timers s) = length (pfds s) →
  (i + k ≤ length (pfds s))%nat →
  ∃ s', close_all k i s = Done tt s' ∧
    timers s' = timers s ∧
    length (pfds s') = length (pfds s) ∧
    dom (k_timers s') = dom (k_timers s) ∧
    k_open s' ⊆ k_open s ∧
    (∀ j p, pfds s !! j = Some p → (i ≤ j ∧ j < i + k)%nat →
            pfds s' !! j = Some (set_fd (-1) p) ∧ (fd p ∉ k_open s')) ∧
    (∀ j, ¬ (i ≤ j ∧ j < i + k)%nat → pfds s' !! j = pfds s !! j) ∧
    (∀ t, t ∉ timers s → k_timers s' !! t = k_timers s !! t).
Proof.
  induction k as [|k IH]; intros i s Hlive Hlen Hk.
  { exists s. split_and!; try done. intros; lia. }
  destruct (lookup_lt_is_Some_2 (pfds s) i) as [p Hp]; [lia|].
  destruct (lookup_lt_is_Some_2 (timers s) i) as [t Ht]; [lia|].
  destruct Hlive as [Hnd Hall]. rewrite Forall_forall in Hall.
  destruct (Hall t) as [its Hits]; [by eapply list_elem_of_lookup_2|].
  cbn [close_all]. erewrite bind_Done by (by apply timer_at_eq).
  destruct (close_connection_live i t s p its)
    as (s1 & E1 & Hpf & Htm & Hkt & Hko & _ & _ & _); [done..|].
  erewrite bind_Done by exact E1.
  destruct (IH (S i) s1) as (s' & E & Gtm & Glen & Gdom & Gko & Gin & Gout & Gother).
  { split; rewrite Htm; [done|]. apply Forall_forall. intros t' Ht'. rewrite Hkt.
    destruct (decide (t = t')) as [->|]; [by rewrite lookup_insert_eq|].
    rewrite lookup_insert_ne by done. by apply Hall. }
  { by rewrite Htm, Hpf, length_alter. }
  { rewrite Hpf, length_alter. lia. }
  exists s'. split_and!; try done.
  - by rewrite Gtm.
  - by rewrite Glen, Hpf, length_alter.
  - rewrite Gdom, Hkt, dom_insert_L. apply elem_of_dom_2 in Hits. set_solver.
  - rewrite Hko in Gko. set_solver.
  - intros j pj Hpj Hj. destruct (decide (j = i)) as [->|Hne].
    + assert (pj = p) as -> by congruence.
      rewrite Gout by lia. rewrite Hpf, list_lookup_alter_eq, Hp.
      split; [done|]. rewrite Hko in Gko. set_solver.
    + apply Gin; [|lia]. by rewrite Hpf, list_lookup_alter_ne.
  - intros j Hj. rewrite Gout by lia. rewrite Hpf. apply list_lookup_alter_ne. lia.
  - intros t' Ht'. rewrite Gother by (by rewrite Htm). rewrite Hkt.
    apply lookup_insert_ne. intros ->. apply Ht'. by eapply list_elem_of_lookup_2.
Qed.

Section Shutdown.
Variables (MAX_CONNECTIONS BUFFER_SIZE : nat) (TIMEOUT : Z).

Lemma process_events_interrupted env k i a s :
  interrupt_triggered s ≠ 0 →
  process_events MAX_CONNECTIONS BUFFER_SIZE TIMEOUT env k i a s = Done None s.
Proof.
  intros H. destruct k; [done|]. cbn [process_events].
  rewrite bind_eq. cbn [gets]. rewrite decide_False; [done|]. tauto.
Qed.

(** C6, as the program has it.  A SIGINT that arrives while the event of
    slot [i] is handled lets that one turn finish, and then ends the
    loop over the sockets at its next test: the events of the slots
    after [i] that [poll] had reported are not handled.  With the flag
    set, the next pass makes [event_loop] return 0 at once.
    [shutdown_server] then closes the descriptor of every slot, marks
    every slot free, and deletes every timer of the array. *)
Theorem interrupt_ends_loop_then_shutdown (n : nat) (s : state) :
  timers_live s →
  length (timers s) = MAX_CONNECTIONS → length (pfds s) = MAX_CONNECTIONS →
  (∀ env k i active a' s0 s1,
     0 < active → interrupt_triggered s0 = 0 →
     serve MAX_CONNECTIONS BUFFER_SIZE TIMEOUT env i active s0 = Done (Next a') s1 →
     sigint_during env i = true →
     process_events MAX_CONNECTIONS BUFFER_SIZE TIMEOUT env (S k) i active s0
       = Done None (with_interrupt_triggered 1 s1)) ∧
  (∀ env k i active s0,
     interrupt_triggered s0 ≠ 0 →
     process_events MAX_CONNECTIONS BUFFER_SIZE TIMEOUT env k i active s0
       = Done None s0) ∧
  (∀ env script s0,
     interrupt_triggered s0 ≠ 0 →
     event_loop MAX_CONNECTIONS BUFFER_SIZE TIMEOUT (env :: script) n s0
       = Done (Some 0) s0) ∧
  ∃ s',
    shutdown_server MAX_CONNECTIONS n s = Done 0 s' ∧
    length (pfds s') = MAX_CONNECTIONS ∧
    (∀ p, p ∈ pfds s' → fd p = -1) ∧
    (∀ p, p ∈ pfds s → fd p ∉ k_open s') ∧
    (∀ t, t ∈ timers s → k_timers s' !! t = None) ∧
    (∀ t, t ∉ timers s → k_timers s' !! t = k_timers s !! t).
Proof.
  intros Hlive Hlt Hlp. split_and!.
  - intros env k i active a' s0 s1 Hact Hint Hserve Hsig.
    cbn [process_events]. rewrite bind_eq. cbn [gets].
    rewrite decide_True by done.
    erewrite bind_Done by exact Hserve.
    rewrite Hsig. rewrite bind_eq. cbn [deliver_sigint interrupt_handler modify].
    by apply process_events_interrupted.
  - intros. by apply process_events_interrupted.
  - intros env script s0 Hint. cbn [event_loop]. unfold pass.
    erewrite bind_Done; last first.
    { erewrite bind_Done by (by apply before_poll_interrupted). done. }
    done.
  - unfold shutdown_server. rewrite bind_eq, emit_eq.
    set (s0 := with_trace _ s).
    destruct (close_all_live MAX_CONNECTIONS 0 s0)
      as (s1 & E1 & Gtm & Glen & Gdom & Gko & Gin & _ & Gother);
      [done|subst s0; cbn; congruence|subst s0; cbn; lia|].
    subst s0. cbn [with_trace pfds timers k_timers k_open trace] in *.
    erewrite bind_Done by exact E1. rewrite bind_eq, emit_eq.
    set (s2 := with_trace _ s1).
    destruct (destroy_timers_from_live MAX_CONNECTIONS 0 s2)
      as (s3 & E3 & Ht3 & Hp3 & Ho3 & _ & Hin3 & Hout3).
    { subst s2. cbn. rewrite drop_0, Gtm, take_ge by lia. apply Hlive. }
    { subst s2. cbn. rewrite drop_0, Gtm, take_ge by lia.
      intros t Ht. apply elem_of_dom. rewrite Gdom. apply elem_of_dom.
      destruct Hlive as [_ Hall]. rewrite Forall_forall in Hall. by apply Hall. }
    { subst s2. cbn. rewrite Gtm. lia. }
    unfold destroy_timers. erewrite bind_Done by exact E3.
    rewrite bind_eq, emit_eq. eexists. split; [done|].
    subst s2.
    cbn [with_trace pfds timers k_timers k_open trace] in *.
    rewrite drop_0, Gtm, take_ge in Hin3, Hout3 by lia.
    split_and!.
    + by rewrite Hp3, Glen.
    + intros p [j Hj]%list_elem_of_lookup. rewrite Hp3 in Hj.
      destruct (lookup_lt_is_Some_2 (pfds s) j) as [q Hq].
      { apply lookup_lt_Some in Hj. lia. }
      destruct (Gin j q Hq) as [Hj' _]; [apply lookup_lt_Some in Hq; lia|].
      rewrite Hj' in Hj. by injection Hj as <-.
    + intros p [j Hj]%list_elem_of_lookup. rewrite Ho3.
      apply (Gin j p Hj). apply lookup_lt_Some in Hj. lia.
    + intros t Ht. rewrite Hin3 by done. done.
    + intros t Ht. rewrite Hout3 by done. by apply Gother.
Qed.
End Shutdown.

(** ** The exit status *)

(** C3, on the run in which [poll] fails.  The server starts, accepts one
    client, and then [poll] fails with ENOMEM.  [event_loop] reports
    "Failed to poll sockets" and returns 0, so that [main], after the
    shutdown, returns EXIT_SUCCESS, although the loop has ended on an
    error it could not recover from. *)
Theorem poll_failure_exits_with_success :
  let run := main Demo.MAX_CONNECTIONS Demo.BUFFER_SIZE Demo.TIMEOUT
               Demo.startup_ok
               [Demo.connection 4; Demo.poll_fails] Demo.boot in
  exit_status_of run = Some EXIT_SUCCESS ∧
  Perror "Failed to poll sockets" ∈ trace (final run).
Proof.
  split; [by vm_compute|].
  apply (bool_decide_unpack _). by vm_compute.
Qed.

(** The other ways out of the loop: a read that fails for good makes
    [main] return EXIT_FAILURE, an interrupt EXIT_SUCCESS. *)
Example read_failure_exits_with_failure :
  exit_status_of
    (main Demo.MAX_CONNECTIONS Demo.BUFFER_SIZE Demo.TIMEOUT
       Demo.startup_ok
       [Demo.connection 4; Demo.read_fails] Demo.boot)
  = Some EXIT_FAILURE.
Proof. by vm_compute. Qed.

Example interrupt_exits_with_success :
  exit_status_of
    (main Demo.MAX_CONNECTIONS Demo.BUFFER_SIZE Demo.TIMEOUT
       Demo.startup_ok
       [Demo.connection 4; Demo.ctrl_c; Demo.ctrl_c] Demo.boot)
  = Some EXIT_SUCCESS.
Proof. by vm_compute. Qed.

(** The state the examples below start from is one the program reaches,
    and it meets what the theorems ask of a state. *)
Example two_clients_well_formed :
  timers_live Demo.two_clients ∧
  length (timers Demo.two_clients) = Demo.MAX_CONNECTIONS ∧
  length (pfds Demo.two_clients) = Demo.MAX_CONNECTIONS ∧
  occupied_clients (pfds Demo.two_clients) = 2%nat.
Proof. split; [apply (bool_decide_unpack _)|]; by vm_compute. Qed.

(** ** An interrupt in the middle of a pass *)

(** Both clients of [Demo.two_clients] have sent data and SIGINT arrives
    while slot 1 is handled: the pass consumes the event of slot 1 only,
    and leaves the one [poll] has reported for slot 2. *)
Example interrupted_pass_trace :
  let s' := final (pass Demo.MAX_CONNECTIONS Demo.BUFFER_SIZE Demo.TIMEOUT
                     (Demo.both_ready (λ i, bool_decide (i = 1%nat)))
                     Demo.MAX_CONNECTIONS Demo.two_clients) in
  trace s' = trace Demo.two_clients ++
    [SysPoll 2; Service 1; SysRecv 4 2; PrintfClient 1 ["h"; "i"]%byte] ∧
  take 3 (pfds s') = [Demo.slot 3 0; Demo.slot 4 POLLIN; Demo.slot 5 POLLIN] ∧
  interrupt_triggered s' = 1.
Proof. by vm_compute. Qed.

(** C6, refuted as stated, on the server of [server.c] with two clients:
    in that pass [poll] reports an event for slot 2, the pass ends with
    the interrupt flag set, so that the loop exits, and the event of slot 2
    has not been consumed. *)
Lemma interrupt_abandons_observed_event :
  ¬ completes_observed_events Demo.MAX_CONNECTIONS Demo.BUFFER_SIZE Demo.TIMEOUT.
Proof.
  intros H.
  destruct interrupted_pass_trace as (Etrace & _ & Hint).
  specialize (H (Demo.both_ready (λ i, bool_decide (i = 1%nat))) Demo.two_clients
                (final (pass Demo.MAX_CONNECTIONS Demo.BUFFER_SIZE Demo.TIMEOUT
                          (Demo.both_ready (λ i, bool_decide (i = 1%nat)))
                          Demo.MAX_CONNECTIONS Demo.two_clients))
                [0; POLLIN; POLLIN] 2%nat (Demo.slot 5 0) POLLIN).
  destruct H as (tr & Etr & Hin).
  - by vm_compute.
  - by vm_compute.
  - reflexivity.
  - by vm_compute.
  - unfold occupied. vm_compute. discriminate.
  - unfold Demo.MAX_CONNECTIONS. lia.
  - reflexivity.
  - vm_compute. discriminate.
  - vm_compute. reflexivity.
  - rewrite Hint. discriminate.
  - rewrite Etrace in Etr. apply app_inv_head in Etr as <-.
    apply list_elem_of_In in Hin. cbn in Hin. intuition discriminate.
Qed.

(** ** The theorems at work on the concrete runs *)

Ltac by_computation := apply (bool_decide_unpack _); vm_compute; exact I.

(** A third connection to the full table of three slots is turned away. *)
Lemma accept_connection_at_capacity_witness :
  ∃ s', accept_connection 3 30 (Accepted 6) Demo.full = Done 1 s' ∧
        pfds s' = pfds Demo.full ∧ (6 ∉ k_open s').
Proof.
  destruct (accept_connection_at_capacity 3 8 30 (Accepted 6) Demo.full)
    as (_ & _ & H); [lia|reflexivity|].
  destruct (H 6 (Demo.slot 3 0)) as (s' & E & Hp & _ & _ & Hc & _);
    [reflexivity|lia|reflexivity| |by exists s'].
  intros i Hi. assert (i = 1 ∨ i = 2)%nat as [-> | ->] by lia;
    eexists; (split; [reflexivity|]); unfold occupied; cbn; lia.
Defined.

(** The scan frees slot 1 of [Demo.fired1] and keeps slot 2. *)
Lemma timeout_scan_evicts_witness :
  ∃ s', before_poll 3 Demo.fired1 = Done None s' ∧
        pfds s' !! 1%nat = Some (Demo.slot (-1) 0) ∧
        pfds s' !! 2%nat = Some (Demo.slot 5 0).
Proof.
  destruct (timeout_scan_evicts 3 Demo.fired1)
    as (s' & tr & _ & E & _ & _ & Hev & Hkeep & _);
    [by_computation|reflexivity|reflexivity|reflexivity|done|].
  exists s'. split; [exact E|]. split.
  - apply (Hev 1%nat (Demo.slot 4 0) 1%nat zero_itimerspec);
      [reflexivity|reflexivity|reflexivity|lia|unfold occupied; cbn; lia|done].
  - apply (Hkeep 2%nat (Demo.slot 5 0) 2%nat (Demo.armed_for 12));
      [reflexivity|reflexivity|reflexivity|lia|unfold occupied; cbn; lia|].
    unfold no_time_left. cbn. lia.
Defined.

(** An interrupted read from slot 1 of [Demo.ready1]. *)
Lemma interrupted_read_is_skipped_witness :
  ∃ s', serve 3 8 30 Demo.read_interrupted 1 1 Demo.ready1 = Done (Next 0) s' ∧
        pfds s' = pfds Demo.ready1 ∧
        k_timers s' !! 1%nat = Some (Demo.armed_for 30).
Proof.
  destruct (interrupted_read_is_skipped 3 8 30 Demo.read_interrupted 1 1
              Demo.ready1
              (final (arm_timer 30 1%nat
                        (with_trace (λ tr, tr ++ [Service 1]) Demo.ready1)))
              (Demo.slot 4 POLLIN) 1%nat)
    as (s' & E & Hp & Hp1 & _ & Hk & _);
    [reflexivity|reflexivity|unfold occupied; cbn; lia|by vm_compute|lia
    |by vm_compute|reflexivity|].
  exists s'. split; [exact E|]. split; [congruence|].
  rewrite Hk. by vm_compute.
Defined.


(** The loop ends on a pending interrupt, and the shutdown of
    [Demo.full]. *)
Lemma interrupt_ends_loop_then_shutdown_witness :
  (event_loop 3 8 30 [Demo.ctrl_c] 3 (with_interrupt_triggered 1 Demo.full)
     = Done (Some 0) (with_interrupt_triggered 1 Demo.full)) ∧
  ∃ s', shutdown_server 3 3 Demo.full = Done 0 s' ∧
        (∀ p, p ∈ pfds s' → fd p = -1) ∧
        (∀ t, t ∈ timers Demo.full → k_timers s' !! t = None).
Proof.
  destruct (interrupt_ends_loop_then_shutdown 3 8 30 3 Demo.full)
    as (_ & _ & Hloop & s' & E & _ & Hp & _ & Ht & _);
    [by_computation|reflexivity|reflexivity|].
  split; [by apply Hloop|]. by exists s'.
Defined.

(** Three timers for [Demo.boot]: all created, or none left when the
    third creation fails. *)
Lemma create_timers_all_or_nothing_witness :
  (∃ s', create_timers (λ _, true) 3 Demo.boot = Done 0 s' ∧
         NoDup (take 3 (timers s'))) ∧
  (∃ s', create_timers (λ i, bool_decide (i ≠ 2%nat)) 3 Demo.boot = Done 1 s' ∧
         k_timers s' = k_timers Demo.boot).
Proof.
  split.
  - destruct (create_timers_all_or_nothing (λ _, true) 3 Demo.boot) as [H _];
      [cbn; lia|].
    destruct H as (s' & E & _ & Hnd & _); [done|]. by exists s'.
  - destruct (create_timers_all_or_nothing (λ i, bool_decide (i ≠ 2%nat)) 3 Demo.boot)
      as [_ H]; [cbn; lia|].
    destruct (H 2%nat) as (s' & E & Hk & _); [lia| |done|by exists s'].
    intros j Hj. apply bool_decide_eq_true_2. lia.
Defined.

(** The buffer of [server.c], 1024 bytes. *)
Lemma terminator_within_buffer_witness :
  never_faults (serve Demo.MAX_CONNECTIONS Demo.BUFFER_SIZE Demo.TIMEOUT
                  (Demo.both_ready (λ _, false)) 1 2).
Proof.
  apply (terminator_within_buffer Demo.MAX_CONNECTIONS Demo.BUFFER_SIZE
           Demo.TIMEOUT).
  unfold Demo.BUFFER_SIZE. lia.
Defined.

(** The free slot 1 of [Demo.free1], whose timer is disarmed. *)
Lemma timer_expired_on_disarmed_witness :
  timer_expired 1%nat Demo.free1 = Done true Demo.free1 ∧
  ∃ s' tr, check_timeouts 2 1 Demo.free1 = Done tt s' ∧
           trace s' = trace Demo.free1 ++ tr ∧
           pfds s' !! 1%nat = Some (Demo.slot (-1) 0) ∧ timed_out_msg 1 ∉ tr.
Proof.
  destruct (timer_expired_on_disarmed 3 30 3 Demo.free1)
    as (_ & _ & _ & H & _); [by_computation|reflexivity|reflexivity|].
  destruct (H 1%nat (Demo.slot (-1) 0) 1%nat zero_itimerspec)
    as (E & s' & tr & Es & Et & Hp & _ & Hm);
    [reflexivity|reflexivity|reflexivity|unfold occupied; cbn; lia|done|].
  split; [exact E|]. by exists s', tr.
Defined.

(** Timer 1 of [Demo.full]. *)
Lemma disarm_timer_idempotent_witness :
  ∃ s1, disarm_timer 1%nat Demo.full = Done 0 s1 ∧
        disarm_timer 1%nat s1 = Done 0 s1.
Proof.
  destruct (disarm_timer_idempotent 1%nat Demo.full) as (s1 & E1 & _ & E2 & _);
    [by eexists|].
  by exists s1.
Defined.

(** * Further properties of the server and of the client *)

(** * More of the server *)

(** ** Running to completion *)

Lemma completes_ret {A} (a : A) : completes (mret a).
Proof. intros s. by eexists _, _. Qed.
Lemma completes_gets {A} (f : state → A) : completes (gets f).
Proof. intros s. by eexists _, _. Qed.
Lemma completes_modify f : completes (modify f).
Proof. intros s. by eexists _, _. Qed.

Lemma completes_bind_post {A B} (Q : A → Prop) (m : M A) (f : A → M B) :
  completes m → (∀ s a s', m s = Done a s' → Q a) →
  (∀ a, Q a → completes (f a)) → completes (m ≫= f).
Proof.
  intros Hm HQ Hf s. rewrite bind_eq.
  destruct (Hm s) as (a & s1 & E). rewrite E. apply Hf. by eapply HQ.
Qed.

Lemma completes_bind {A B} (m : M A) (f : A → M B) :
  completes m → (∀ a, completes (f a)) → completes (m ≫= f).
Proof. intros Hm Hf. apply (completes_bind_post (λ _, True)); auto. Qed.

Create HintDb completes discriminated.

Ltac completes_prim :=
  let s := fresh "s" in
  intros s;
  match goal with |- ∃ _ _, ?f _ _ _ _ _ = _ => unfold f
                | |- ∃ _ _, ?f _ _ _ _ = _ => unfold f
                | |- ∃ _ _, ?f _ _ _ = _ => unfold f
                | |- ∃ _ _, ?f _ _ = _ => unfold f end;
  repeat case_match; by eexists _, _.

Ltac completes_tac :=
  repeat first
    [ assumption
    | solve [eauto 2 with completes]
    | apply completes_ret | apply completes_gets | apply completes_modify
    | (apply completes_bind; [|intros ?])
    | match goal with
      | |- completes (if decide _ then _ else _) => case_decide
      | |- completes (if ?b then _ else _) => destruct b
      | |- completes (match ?x with _ => _ end) => destruct x
      end ].

Global Instance steady_preorder : PreOrder steady.
Proof.
  split.
  - intros s. by split_and!.
  - intros s1 s2 s3 (H1 & H2 & H3) (H4 & H5 & H6). split_and!; congruence.
Qed.

Ltac steady_side :=
  unfold steady; simpl;
  rewrite ?length_alter, ?length_insert, ?length_app, ?length_imap,
    ?length_take, ?length_drop, ?dom_fmap_L;
  split_and!;
  first [ done | lia
        | rewrite dom_insert_L;
          match goal with H : k_timers _ !! _ = Some _ |- _ =>
            apply elem_of_dom_2 in H; set_solver end ].

Section Completes.
Variables (MAX_CONNECTIONS BUFFER_SIZE : nat) (TIMEOUT : Z).

Lemma completes_timer_settime t v : completes (timer_settime t v).
Proof. completes_prim. Qed.
Lemma completes_close c : completes (close c).
Proof. completes_prim. Qed.
Lemma completes_accept o c : completes (accept o c).
Proof. completes_prim. Qed.
Lemma completes_recv o c b l : completes (recv o c b l).
Proof. completes_prim. Qed.
Hint Resolve completes_timer_settime completes_close completes_accept
  completes_recv : completes.

Lemma completes_emit e : completes (emit e).
Proof. unfold emit. completes_tac. Qed.
Lemma completes_perror m : completes (perror m).
Proof. apply completes_emit. Qed.
Lemma completes_pfd_at i : completes (pfd_at i).
Proof. unfold pfd_at. completes_tac. Qed.
Lemma completes_timer_at i : completes (timer_at i).
Proof. unfold timer_at. completes_tac. Qed.
Lemma completes_store_fd i v : completes (store_fd i v).
Proof. unfold store_fd. completes_tac. Qed.
Lemma completes_store_events i v : completes (store_events i v).
Proof. unfold store_events. completes_tac. Qed.
Lemma completes_deliver_sigint b : completes (deliver_sigint b).
Proof. unfold deliver_sigint, interrupt_handler. completes_tac. Qed.
Lemma completes_elapse d : completes (elapse d).
Proof. unfold elapse, timeout_handler. completes_tac. Qed.
Hint Resolve completes_emit completes_perror completes_pfd_at completes_timer_at
  completes_store_fd completes_store_events completes_deliver_sigint
  completes_elapse : completes.

Lemma completes_poll d b o n : completes (poll d b o n).
Proof. unfold poll. completes_tac. Qed.
Lemma completes_arm_timer t : completes (arm_timer TIMEOUT t).
Proof. unfold arm_timer. completes_tac. Qed.
Lemma completes_disarm_timer t : completes (disarm_timer t).
Proof. unfold disarm_timer. completes_tac. Qed.
Hint Resolve completes_poll completes_arm_timer completes_disarm_timer : completes.

Lemma completes_close_connection i t : completes (close_connection i t).
Proof. unfold close_connection. completes_tac. Qed.
Hint Resolve completes_close_connection : completes.

Lemma completes_find_slot c k i : completes (find_slot TIMEOUT c k i).
Proof. revert i. induction k; intros i; cbn [find_slot]; completes_tac. Qed.
Hint Resolve completes_find_slot : completes.

Lemma completes_accept_connection o :
  completes (accept_connection MAX_CONNECTIONS TIMEOUT o).
Proof. unfold accept_connection. completes_tac. Qed.
Hint Resolve completes_accept_connection : completes.

Lemma completes_serve env i a :
  (1 ≤ BUFFER_SIZE)%nat →
  completes (serve MAX_CONNECTIONS BUFFER_SIZE TIMEOUT env i a).
Proof.
  intros HB. unfold serve.
  apply completes_bind; [completes_tac|intros pfd].
  apply completes_bind; [completes_tac|intros timer].
  case_decide; [completes_tac|]. apply completes_bind; [completes_tac|intros _].
  case_decide; [completes_tac|]. case_decide; [completes_tac|].
  apply completes_bind; [completes_tac|intros r]. case_decide; [completes_tac|].
  apply completes_bind; [completes_tac|intros pfd'].
  apply (completes_bind_post (λ rb, rb.1 ≤ Z.of_nat BUFFER_SIZE - 1 ∧
                                    length rb.2 = BUFFER_SIZE)); [completes_tac| |].
  - intros s [ret b] s' E. apply recv_bound in E; rewrite length_resize in *; [|lia].
    cbn. lia.
  - intros [ret b] [Hret Hlen]. simpl in *. completes_tac.
    intros s. unfold buffer_store. rewrite decide_True by lia. by eexists _, _.
Qed.

Lemma completes_process_events env k i a :
  (1 ≤ BUFFER_SIZE)%nat →
  completes (process_events MAX_CONNECTIONS BUFFER_SIZE TIMEOUT env k i a).
Proof.
  intros HB. revert i a. induction k; intros i a; cbn [process_events].
  { completes_tac. }
  apply completes_bind; [completes_tac|intros it]. case_decide; [|completes_tac].
  apply completes_bind; [by apply completes_serve|intros [a'|r]]; completes_tac.
Qed.

(** ** What the loop keeps of the timers *)

Ltac steady_tac := keeps_with steady_side.

Lemma steady_timer_settime t v : keeps steady (timer_settime t v).
Proof. keeps_prim steady_side. Qed.
Lemma steady_close c : keeps steady (close c).
Proof. keeps_prim steady_side. Qed.
Lemma steady_accept o c : keeps steady (accept o c).
Proof. keeps_prim steady_side. Qed.
Lemma steady_recv o c b l : keeps steady (recv o c b l).
Proof. keeps_prim steady_side. Qed.
Hint Resolve steady_timer_settime steady_close steady_accept steady_recv : keeps.

Lemma steady_emit e : keeps steady (emit e).
Proof. unfold emit. steady_tac. Qed.
Lemma steady_perror m : keeps steady (perror m).
Proof. apply steady_emit. Qed.
Lemma steady_store_fd i v : keeps steady (store_fd i v).
Proof. unfold store_fd. steady_tac. Qed.
Lemma steady_store_events i v : keeps steady (store_events i v).
Proof. unfold store_events. steady_tac. Qed.
Lemma steady_deliver_sigint b : keeps steady (deliver_sigint b).
Proof. unfold deliver_sigint, interrupt_handler. steady_tac. Qed.
Lemma steady_elapse d : keeps steady (elapse d).
Proof. unfold elapse, timeout_handler. steady_tac. Qed.
Hint Resolve steady_emit steady_perror steady_store_fd steady_store_events
  steady_deliver_sigint steady_elapse : keeps.

Lemma steady_poll d b o n : keeps steady (poll d b o n).
Proof. unfold poll. steady_tac. Qed.
Lemma steady_arm_timer t : keeps steady (arm_timer TIMEOUT t).
Proof. unfold arm_timer. steady_tac. Qed.
Lemma steady_disarm_timer t : keeps steady (disarm_timer t).
Proof. unfold disarm_timer. steady_tac. Qed.
Hint Resolve steady_poll steady_arm_timer steady_disarm_timer : keeps.

Lemma steady_close_connection i t : keeps steady (close_connection i t).
Proof. unfold close_connection, pfd_at. steady_tac. Qed.
Hint Resolve steady_close_connection : keeps.

Lemma steady_find_slot c k i : keeps steady (find_slot TIMEOUT c k i).
Proof.
  revert i. induction k; intros i; cbn [find_slot]; unfold pfd_at, timer_at; steady_tac.
Qed.
Hint Resolve steady_find_slot : keeps.

Lemma steady_accept_connection o :
  keeps steady (accept_connection MAX_CONNECTIONS TIMEOUT o).
Proof. unfold accept_connection, pfd_at. steady_tac. Qed.
Hint Resolve steady_accept_connection : keeps.

Lemma steady_serve env i a :
  keeps steady (serve MAX_CONNECTIONS BUFFER_SIZE TIMEOUT env i a).
Proof. unfold serve, pfd_at, timer_at, buffer_store. steady_tac. Qed.
Hint Resolve steady_serve : keeps.

Lemma steady_process_events env k i a :
  keeps steady (process_events MAX_CONNECTIONS BUFFER_SIZE TIMEOUT env k i a).
Proof. revert i a. induction k; intros i a; cbn [process_events]; steady_tac. Qed.

Lemma serving_steady n s s' : serving n s → steady s s' → serving n s'.
Proof.
  intros ([Hnd Hall] & Ht & Hp) (Et & Ed & El). unfold serving, timers_live.
  rewrite Et, El. split_and!; try done.
  rewrite Forall_forall in Hall |- *. intros t Hin.
  apply elem_of_dom. rewrite Ed. apply elem_of_dom. by apply Hall.
Qed.

(** The start of a pass, from a state the loop can be in. *)
Lemma before_poll_serving n s :
  serving n s →
  ∃ r s', before_poll n s = Done r s' ∧ steady s s' ∧
          (r = None ∨ r = Some 0 ∧ interrupt_triggered s ≠ 0 ∧ s' = s).
Proof.
  intros (Hlive & Ht & Hp).
  destruct (decide (interrupt_triggered s = 0)) as [Hint|Hint]; last first.
  { exists (Some 0), s. rewrite before_poll_interrupted by done.
    split_and!; [done|reflexivity|by right]. }
  destruct (decide (timeout_triggered s = 0)) as [Hflag|Hflag].
  { exists None, s. rewrite before_poll_idle by done.
    split_and!; [done|reflexivity|by left]. }
  destruct (check_timeouts_scanned (n - 1) 1 (with_timeout_triggered 0 s))
    as (sb & tr & E & Hs); [done|cbn; congruence|cbn; lia|].
  exists None, sb. rewrite before_poll_scan by done. rewrite bind_eq, E.
  split_and!; [done| |by left].
  destruct Hs as (Gtm & Glen & Gdom & _). by split_and!.
Qed.

Lemma pass_serving env s :
  (1 ≤ BUFFER_SIZE)%nat → serving MAX_CONNECTIONS s →
  ∃ r s', pass MAX_CONNECTIONS BUFFER_SIZE TIMEOUT env MAX_CONNECTIONS s = Done r s' ∧
          steady s s'.
Proof.
  intros HB Hs. unfold pass.
  destruct (before_poll_serving MAX_CONNECTIONS s Hs) as (r & sb & E & Hst & Hr).
  erewrite bind_Done by exact E.
  destruct Hr as [->|(-> & _ & ->)]; [|by eexists _, _].
  match goal with |- ∃ r s', ?m sb = _ ∧ _ =>
    assert (completes m) as Hc; [|assert (keeps steady m) as Hk]
  end.
  { apply completes_bind; [completes_tac|intros _].
    apply completes_bind; [completes_tac|intros active].
    case_decide; [completes_tac|]. by apply completes_process_events. }
  { apply keeps_bind; [apply _|apply steady_elapse|intros _].
    apply keeps_bind; [apply _|apply steady_poll|intros active].
    case_decide; [steady_tac|]. apply steady_process_events. }
  destruct (Hc sb) as (r & s' & E'). exists r, s'. split; [done|].
  etrans; [exact Hst|]. specialize (Hk sb). by rewrite E' in Hk.
Qed.

(** X1.  From a state in which the timer array holds live, distinct
    timers and both arrays have MAX_CONNECTIONS entries, the event loop
    runs every pass the environment plays to its end: it never ends the
    process through [exit] and never stores outside its buffer.  It
    creates and deletes no timer and leaves the timer array alone, so the
    state it stops in is again one it can run from. *)
Theorem event_loop_keeps_serving (script : list pass_env) (s : state) :
  (1 ≤ BUFFER_SIZE)%nat → serving MAX_CONNECTIONS s →
  ∃ r s',
    event_loop MAX_CONNECTIONS BUFFER_SIZE TIMEOUT script MAX_CONNECTIONS s
      = Done r s' ∧
    serving MAX_CONNECTIONS s' ∧
    timers s' = timers s ∧ dom (k_timers s') = dom (k_timers s).
Proof.
  intros HB. revert s. induction script as [|env script IH]; intros s Hs.
  { exists None, s. by split_and!. }
  cbn [event_loop].
  destruct (pass_serving env s HB Hs) as (r & s1 & E & Hst).
  erewrite bind_Done by exact E.
  pose proof (serving_steady _ _ _ Hs Hst) as Hs1.
  destruct r as [v|].
  { exists (Some v), s1. destruct Hst as (? & ? & ?). by split_and!. }
  destruct (IH s1 Hs1) as (r & s' & E' & Hs' & Et & Ed).
  exists r, s'. destruct Hst as (? & ? & ?). split_and!; [done|done|congruence..].
Qed.
End Completes.

(** ** Start-up *)

Global Instance same_table_preorder : PreOrder same_table.
Proof.
  split.
  - intros s. by split_and!.
  - intros s1 s2 s3 (?&?&?&?) (?&?&?&?). split_and!; congruence.
Qed.

Ltac table_side := unfold same_table; simpl; by split_and!.

Lemma table_timer_create ok i : keeps same_table (timer_create ok i).
Proof. keeps_prim table_side. Qed.
Lemma table_timer_delete t : keeps same_table (timer_delete t).
Proof. keeps_prim table_side. Qed.
Lemma table_perror m : keeps same_table (perror m).
Proof. unfold perror, emit. keeps_with table_side. Qed.
Lemma table_destroy_timers_from k i : keeps same_table (destroy_timers_from k i).
Proof.
  pose proof table_timer_delete. pose proof table_perror.
  revert i. induction k; intros i; cbn [destroy_timers_from]; unfold timer_at;
    keeps_with table_side.
Qed.
Lemma table_create_timers ok n : keeps same_table (create_timers ok n).
Proof.
  pose proof table_timer_create. pose proof table_perror.
  pose proof table_destroy_timers_from.
  unfold create_timers, destroy_timers. generalize 0%nat.
  induction n; intros i; cbn [create_timers_from]; keeps_with table_side.
Qed.

(** The first loop of [initialise_server]. *)
Lemma clear_slots_spec k : ∀ i s,
  ∃ l, clear_slots k i s = Done tt (with_pfds (λ _, l) s) ∧
       length l = length (pfds s) ∧
       ∀ j, l !! j = if decide (i ≤ j ∧ j < i + k)%nat
                     then set_fd (-1) <$> pfds s !! j else pfds s !! j.
Proof.
  induction k as [|k IH]; intros i s.
  { exists (pfds s). split_and!; [by destruct s|done|].
    intros j. rewrite decide_False by lia. done. }
  cbn [clear_slots]. rewrite bind_eq. cbn [store_fd modify].
  destruct (IH (S i) (with_pfds (λ l, alter (set_fd (-1)) i l) s)) as (l & E & Hl & Hj).
  exists l. rewrite E. cbn in *. rewrite length_alter in Hl. split_and!; [done..|].
  intros j. rewrite Hj. destruct (decide (j = i)) as [->|Hne].
  - rewrite decide_False by lia. rewrite decide_True by lia.
    apply list_lookup_alter_eq.
  - rewrite list_lookup_alter_ne by done. repeat case_decide; done || lia.
Qed.

Lemma close_open c s :
  c ∈ k_open s →
  close c s = Done 0 (with_k_open (λ o, o ∖ {[c]}) (with_trace (λ t, t ++ [SysClose c]) s)).
Proof. intros H. unfold close. cbn. by rewrite decide_True. Qed.

(** [initialise_listening_socket] either sets up slot 0, or closes the
    socket it may have created and leaves the table alone. *)
Lemma initialise_listening_socket_spec ienv s :
  ∃ r s', initialise_listening_socket ienv s = Done r s' ∧
    timers s' = timers s ∧ k_timers s' = k_timers s ∧
    timeout_triggered s' = timeout_triggered s ∧
    interrupt_triggered s' = interrupt_triggered s ∧
    (r = 0 ∧
     pfds s' = alter (set_events POLLIN) 0%nat
               (alter (set_fd (socket_ret ienv)) 0%nat (pfds s)) ∧
     k_open s' = {[socket_ret ienv]} ∪ k_open s ∧
     (0 ≤ socket_ret ienv ∧ setsockopt_ret ienv = 0 ∧ fcntl_getfl_ret ienv ≠ -1 ∧
      fcntl_setfl_ret ienv = 0 ∧ bind_ret ienv = 0 ∧ listen_ret ienv = 0)
     ∨
     r = 1 ∧ pfds s' = pfds s ∧
     (socket_ret ienv ∉ k_open s → k_open s' = k_open s) ∧
     ¬ (0 ≤ socket_ret ienv ∧ setsockopt_ret ienv = 0 ∧ fcntl_getfl_ret ienv ≠ -1 ∧
        fcntl_setfl_ret ienv = 0 ∧ bind_ret ienv = 0 ∧ listen_ret ienv = 0)).
Proof.
  unfold initialise_listening_socket.
  case_decide as H1.
  { eexists _, _. split; [done|]. cbn. split_and!; try done.
    right. split_and!; try done. lia. }
  rewrite bind_eq. cbn [modify].
  set (s1 := with_k_open _ s).
  assert (∀ msg, ∃ s',
    (perror msg ≫= λ _, close (socket_ret ienv) ≫= λ _, mret 1) s1 = Done 1 s' ∧
    timers s' = timers s ∧ k_timers s' = k_timers s ∧
    timeout_triggered s' = timeout_triggered s ∧
    interrupt_triggered s' = interrupt_triggered s ∧
    pfds s' = pfds s ∧
    (socket_ret ienv ∉ k_open s → k_open s' = k_open s)) as Hfail.
  { intros msg. rewrite bind_eq. unfold perror. rewrite emit_eq, bind_eq.
    rewrite close_open by (subst s1; cbn; set_solver).
    eexists. split; [done|]. subst s1. cbn. split_and!; try done. set_solver. }
  repeat case_decide;
    try (destruct (Hfail "Failed to set socket for reuse") as (s' & -> & ?&?&?&?&?&?));
    try (destruct (Hfail "Failed to get socket flags") as (s' & -> & ?&?&?&?&?&?));
    try (destruct (Hfail "Failed to set socket to nonblocking mode") as (s' & -> & ?&?&?&?&?&?));
    try (destruct (Hfail "Failed to bind socket") as (s' & -> & ?&?&?&?&?&?));
    try (destruct (Hfail "Failed to set socket to a listening state") as (s' & -> & ?&?&?&?&?&?));
    try (eexists _, _; split; [done|]; split_and!; try done;
         right; split_and!; try done; tauto).
  eexists _, _. split; [done|]. subst s1. cbn. split_and!; try done.
  left. split_and!; try done; lia.
Qed.

Lemma initialise_signal_handler_spec ienv signal s :
  ∃ r f, initialise_signal_handler ienv signal s = Done r (with_trace f s) ∧
    (r = 0 ∧ sigemptyset_ret ienv signal = 0 ∧ sigaction_ret ienv signal = 0 ∨
     r = 1 ∧ ¬ (sigemptyset_ret ienv signal = 0 ∧ sigaction_ret ienv signal = 0)).
Proof.
  unfold initialise_signal_handler. repeat case_decide.
  - eexists 1, _. split; [done|]. right. tauto.
  - exists 1, (λ t, (t ++ [EprintfSignal "Failed to change signal %d action to handler"
                            signal]) ++ [Perror ""]).
    split; [done|]. right. tauto.
  - exists 0, (λ t, t). split; [by destruct s|]. left.
    split_and!; [done|lia..].
Qed.

Lemma first_failure (ok : nat → bool) (n : nat) :
  (∀ j, (j < n)%nat → ok j = true) ∨
  ∃ i, (i < n)%nat ∧ (∀ j, (j < i)%nat → ok j = true) ∧ ok i = false.
Proof.
  induction n as [|n [IH|(i & Hi & Hb & Hf)]].
  - left. intros; lia.
  - destruct (ok n) eqn:E.
    + left. intros j Hj. destruct (decide (j = n)) as [->|]; [done|]. apply IH. lia.
    + right. exists n. split_and!; [lia| |done]. intros; apply IH; lia.
  - right. exists i. split_and!; [lia|done..].
Qed.

(** Deleting the timers [create_timers] has made gives back the kernel's
    timers of before. *)
Lemma destroy_created base n s :
  created base n s → (n ≤ length (timers s))%nat →
  ∃ s', destroy_timers n s = Done 0 s' ∧ k_timers s' = k_timers base ∧
        timers s' = timers s ∧ pfds s' = pfds s ∧ k_open s' = k_open s ∧
        trace s' = trace s.
Proof.
  intros (Hlen & Hnd & Hnew & Hold) Hn.
  destruct (destroy_timers_from_live n 0 s) as (s' & E & Gt & Gp & Go & Gtr & Gin & Gout).
  { by rewrite drop_0. }
  { intros t Ht. rewrite drop_0 in Ht. destruct (Hnew t Ht) as [_ E]. by rewrite E. }
  { lia. }
  exists s'. split; [done|]. split_and!; try done.
  rewrite drop_0 in Gin, Gout. apply map_eq. intros t.
  destruct (decide (t ∈ take n (timers s))) as [Hin|Hout].
  - rewrite Gin by done. by destruct (Hnew t Hin) as [-> _].
  - rewrite Gout by done. by apply Hold.
Qed.

(** [initialise_server], whatever the environment does. *)
Lemma initialise_server_spec ienv n s :
  length (timers s) = n → length (pfds s) = n →
  ∃ r s', initialise_server ienv n s = Done r s' ∧
    length (timers s') = n ∧ length (pfds s') = n ∧
    timeout_triggered s' = timeout_triggered s ∧
    interrupt_triggered s' = interrupt_triggered s ∧
    (r = 0 ∧ startup_succeeds ienv n ∧
     timers_live s' ∧
     k_open s' = {[socket_ret ienv]} ∪ k_open s ∧
     (∀ j, pfds s' !! j =
           if decide (j = 0%nat)
           then (λ p, set_events POLLIN (set_fd (socket_ret ienv) p)) <$> pfds s !! j
           else set_fd (-1) <$> pfds s !! j) ∧
     (∀ t, t ∈ timers s' →
           k_timers s !! t = None ∧ k_timers s' !! t = Some zero_itimerspec) ∧
     (∀ t, t ∉ timers s' → k_timers s' !! t = k_timers s !! t)
     ∨
     r = 1 ∧ ¬ startup_succeeds ienv n ∧
     k_timers s' = k_timers s ∧
     (socket_ret ienv ∉ k_open s → k_open s' = k_open s)).
Proof.
  intros Hlt Hlp. unfold initialise_server.
  destruct (clear_slots_spec n 0 s) as (l & E0 & Hl & Hlj).
  erewrite bind_Done by exact E0. clear E0.
  rewrite bind_eq, emit_eq; cbn beta iota.
  destruct (initialise_signal_handler_spec ienv TIMEOUT_SIGNAL
              (with_trace (λ t, t ++ [Eprintf "Enabling timeout handler"])
                 (with_pfds (λ _, l) s))) as (r1 & f1 & E1 & Hr1).
  erewrite bind_Done by exact E1. clear E1.
  destruct Hr1 as [(-> & Ha1 & Ha2)|(-> & Hno)]; last first.
  { eexists 1, _. split; [done|]. cbn. split_and!; try done; [congruence|].
    right. split_and!; try done. unfold startup_succeeds. tauto. }
  rewrite decide_False by congruence. rewrite bind_eq, emit_eq; cbn beta iota.
  match goal with |- context [(initialise_signal_handler ienv SIGINT ≫= _) ?s0] =>
    destruct (initialise_signal_handler_spec ienv SIGINT s0) as (r2 & f2 & E2 & Hr2)
  end.
  erewrite bind_Done by exact E2. clear E2.
  destruct Hr2 as [(-> & Ha3 & Ha4)|(-> & Hno)]; last first.
  { eexists 1, _. split; [done|]. cbn. split_and!; try done; [congruence|].
    right. split_and!; try done. unfold startup_succeeds. tauto. }
  rewrite decide_False by congruence. rewrite bind_eq, emit_eq; cbn beta iota.
  match goal with |- context [(create_timers _ n ≫= _) ?s0] => set (s3 := s0) end.
  assert (created s3 0 s3) as Hc0.
  { unfold created. rewrite take_0. split_and!; [done|apply NoDup_nil_2|..|done].
    intros t Ht. by apply elem_of_nil in Ht. }
  pose proof (table_create_timers (create_ok ienv) n s3) as Htab.
  destruct (first_failure (create_ok ienv) n) as [Hok|(i & Hi & Hbefore & Hfail)];
    last first.
  { destruct (create_timers_from_none (create_ok ienv) s3 n 0 s3 i)
      as (s4 & E4 & Hk4 & Hl4); [done|subst s3; cbn; lia|lia| |done|].
    { intros; apply Hbefore; lia. }
    unfold create_timers in *. rewrite E4 in Htab. cbn [final] in Htab.
    destruct Htab as (Hp & Ho & Htt & Hit).
    erewrite bind_Done by exact E4.
    rewrite decide_True by done.
    exists 1, s4. split; [done|]. rewrite Hp, Ho, Htt, Hit, Hl4, Hk4. subst s3. cbn.
    split_and!; try done; [congruence|].
    right. split_and!; try done. unfold startup_succeeds.
    intros (_ & _ & _ & _ & Hall & _). specialize (Hall i Hi). congruence. }
  destruct (create_timers_from_all (create_ok ienv) s3 n 0 s3)
    as (s4 & E4 & Hc4); [done|subst s3; cbn; lia|intros; apply Hok; lia|].
  change (created s n s4) in Hc4.
  unfold create_timers in *. rewrite E4 in Htab. cbn [final] in Htab.
  destruct Htab as (Hp & Ho & Htt & Hit).
  erewrite bind_Done by exact E4. clear E4 Hc0.
  subst s3.
  cbn [with_trace with_pfds timers k_timers pfds k_open timeout_triggered
       interrupt_triggered] in *.
  rewrite decide_False by congruence. rewrite bind_eq, emit_eq; cbn beta iota.
  match goal with |- context [(initialise_listening_socket ienv ≫= _) ?s0] =>
    destruct (initialise_listening_socket_spec ienv s0)
      as (r5 & s5 & E5 & Gt & Gk & Gtt & Git & Hr5)
  end.
  erewrite bind_Done by exact E5. clear E5.
  cbn [with_trace timers k_timers pfds k_open timeout_triggered
       interrupt_triggered] in *.
  assert (length (timers s4) = n) as Hl4.
  { destruct Hc4 as [-> _]. done. }
  destruct Hr5 as [(-> & Gp & Go & Hsock)|(-> & Gp & Go & Hno)].
  - rewrite decide_False by congruence. rewrite bind_eq, emit_eq; cbn beta iota.
    eexists 0, _. split; [done|]. cbn. rewrite Gt, Gtt, Git, Htt, Hit, Gp, Go, Gk.
    rewrite !length_alter, Hp.
    destruct Hc4 as (_ & Hnd & Hnew & Hold). rewrite take_ge in Hnd, Hnew, Hold by lia.
    split_and!; try done; [congruence|].
    left. split_and!; try done.
    + unfold timers_live. cbn. rewrite Gt, Gk. split; [done|].
      apply Forall_forall. intros t Ht.
      destruct (Hnew t Ht) as [_ ->]. by eexists.
    + by rewrite Ho.
    + intros j. destruct (decide (j = 0%nat)) as [->|Hne].
      * rewrite !list_lookup_alter_eq, Hlj. case_decide as Hj.
        -- by destruct (pfds s !! 0%nat).
        -- rewrite lookup_ge_None_2 by lia. done.
      * rewrite !list_lookup_alter_ne by done. rewrite Hlj.
        case_decide as Hj; [done|]. rewrite lookup_ge_None_2 by lia. done.
  - rewrite decide_True by done.
    destruct (destroy_created s n s5) as (s6 & E6 & Gk6 & Gt6 & Gp6 & Go6 & _).
    { destruct Hc4 as (? & ? & ? & ?). unfold created. rewrite Gt, Gk. by split_and!. }
    { rewrite Gt. lia. }
    erewrite bind_Done by exact E6.
    exists 1, s6. split; [done|].
    pose proof (table_destroy_timers_from n 0 s5) as Htab.
    unfold destroy_timers in E6. rewrite E6 in Htab. cbn [final] in Htab.
    destruct Htab as (_ & _ & Htt6 & Hit6).
    rewrite Gt6, Gp6, Go6, Gk6, Gt, Gp, Hp, Htt6, Hit6, Gtt, Git, Htt, Hit.
    split_and!; try done; [congruence|].
    right. split_and!; try done.
    + unfold startup_succeeds. tauto.
    + intros Hfresh. rewrite Go by (by rewrite Ho). by rewrite Ho.
Qed.

Section Startup.
Variables (MAX_CONNECTIONS BUFFER_SIZE : nat) (TIMEOUT : Z).

(** X2.  When no call of the start-up fails, [initialise_server] returns 0
    and leaves a state the event loop can run from: [n] new timers, all
    different and none armed, in the timer array; the listening socket,
    open, in slot 0 with POLLIN as its events; every other slot free. *)
Theorem initialise_server_sets_up (ienv : init_env) (n : nat) (s : state) :
  startup_succeeds ienv n →
  length (timers s) = n → length (pfds s) = n → (1 ≤ n)%nat →
  ∃ s' p0,
    initialise_server ienv n s = Done 0 s' ∧
    serving n s' ∧
    pfds s' !! 0%nat = Some p0 ∧ fd p0 = socket_ret ienv ∧ events p0 = POLLIN ∧
    (∀ i p, (1 ≤ i)%nat → pfds s' !! i = Some p → fd p = -1) ∧
    occupied_clients (pfds s') = 0%nat ∧
    k_open s' = {[socket_ret ienv]} ∪ k_open s ∧
    (∀ t, t ∈ timers s' →
          k_timers s !! t = None ∧ k_timers s' !! t = Some zero_itimerspec) ∧
    (∀ t, t ∉ timers s' → k_timers s' !! t = k_timers s !! t) ∧
    timeout_triggered s' = timeout_triggered s ∧
    interrupt_triggered s' = interrupt_triggered s.
Proof.
  intros Hok Hlt Hlp Hn.
  destruct (initialise_server_spec ienv n s Hlt Hlp)
    as (r & s' & E & Glt & Glp & Gtt & Git & [H|(_ & Hno & _)]); [|done].
  destruct H as (-> & _ & Hlive & Ho & Hp & Hnew & Hold).
  destruct (lookup_lt_is_Some_2 (pfds s) 0) as [q Hq]; [lia|].
  assert (∀ i p, (1 ≤ i)%nat → pfds s' !! i = Some p → fd p = -1) as Hfree.
  { intros i p Hi. rewrite Hp, decide_False by lia.
    destruct (pfds s !! i); [|done]. by intros [= <-]. }
  exists s', (set_events POLLIN (set_fd (socket_ret ienv) q)).
  split_and!; try done.
  - by rewrite Hp, decide_True, Hq.
  - unfold occupied_clients.
    destruct (filter occupied (drop 1 (pfds s'))) as [|x l] eqn:Ef; [done|].
    assert (x ∈ filter occupied (drop 1 (pfds s'))) as Hin by (rewrite Ef; left).
    apply list_elem_of_filter in Hin as [Hocc [i Hi]%list_elem_of_lookup].
    rewrite lookup_drop in Hi. apply Hfree in Hi; [|lia].
    unfold occupied in Hocc. lia.
Qed.

(** X3.  When some call of the start-up fails, [initialise_server] returns
    1 and gives back what it had taken: the kernel has the timers it had
    before the call, and, the socket's descriptor being a new one, the
    same open descriptors.  [main] then returns EXIT_FAILURE without
    entering the event loop. *)
Theorem initialise_server_failure_releases
    (ienv : init_env) (script : list pass_env) (s : state) :
  ¬ startup_succeeds ienv MAX_CONNECTIONS →
  length (timers s) = MAX_CONNECTIONS → length (pfds s) = MAX_CONNECTIONS →
  ∃ s',
    initialise_server ienv MAX_CONNECTIONS s = Done 1 s' ∧
    k_timers s' = k_timers s ∧
    (socket_ret ienv ∉ k_open s → k_open s' = k_open s) ∧
    main MAX_CONNECTIONS BUFFER_SIZE TIMEOUT ienv script s
      = Done (Some EXIT_FAILURE) s'.
Proof.
  intros Hno Hlt Hlp.
  destruct (initialise_server_spec ienv MAX_CONNECTIONS s Hlt Hlp)
    as (r & s' & E & _ & _ & _ & _ & [(_ & Hok & _)|(-> & _ & Hk & Ho)]); [done|].
  exists s'. split_and!; try done.
  unfold main. erewrite bind_Done by exact E. by rewrite decide_True.
Qed.
End Startup.

(** ** The turns of the loop over the sockets *)

(** The terminator hides what the buffer held beyond the bytes read. *)
Lemma c_string_terminated (got rest : list byte) :
  rest ≠ [] →
  c_string (<[length got := x00]> (got ++ rest)) = c_string got.
Proof.
  intros Hrest. induction got as [|b got IH]; cbn.
  - destruct rest; [done|]. done.
  - destruct (Byte.eqb b x00); [done|]. f_equal. exact IH.
Qed.

Lemma close_connection_spec i t s p its :
  pfds s !! i = Some p → k_timers s !! t = Some its →
  ∃ e, close_connection i t s =
    Done tt (with_pfds (alter (set_fd (-1)) i)
              (with_errno e
                 (with_k_open (λ o, o ∖ {[fd p]})
                    (with_trace (λ tr, tr ++ [SysClose (fd p)])
                       (with_k_timers (λ m, <[t := zero_itimerspec]> m) s))))).
Proof.
  intros Hp Ht. unfold close_connection.
  erewrite bind_Done by (by eapply disarm_timer_live).
  erewrite bind_Done by (by apply pfd_at_eq).
  rewrite bind_eq. unfold close. cbn [k_open with_trace with_k_timers].
  destruct (decide _) as [Hin|Hin]; cbn [store_fd modify].
  - exists (errno s). done.
  - exists EBADF. unfold with_pfds, with_errno, with_k_open. cbn.
    replace (k_open s ∖ {[fd p]}) with (k_open s) by set_solver. done.
Qed.

Section Turns.
Variables (MAX_CONNECTIONS BUFFER_SIZE : nat) (TIMEOUT : Z).

(** The start of a turn for a client slot with input pending, up to the
    call of [recv]. *)
Lemma serve_until_recv env i active s p t its :
  pfds s !! i = Some p → timers s !! i = Some t → k_timers s !! t = Some its →
  occupied p → Z.land (revents p) POLLIN ≠ 0 → i ≠ 0%nat → 0 ≤ TIMEOUT →
  serve MAX_CONNECTIONS BUFFER_SIZE TIMEOUT env i active s =
  (let buffer := resize BUFFER_SIZE x00 (stack_bytes env i) in
   '(ret, buffer) ← recv (recv_result env i) (fd p) buffer (BUFFER_SIZE - 1);
   if decide (ret = 0) then
     emit (EprintfClient "Client %zu disconnected" i);;
     close_connection i t;;
     mret (Next (active - 1))
   else if decide (ret < 0) then
     e ← gets errno;
     if decide (e = EINTR) then mret (Next (active - 1)) else
     emit (EprintfClient "Failed read client %zu's data" i);;
     perror "";;
     mret (Return 1)
   else
   buffer ← buffer_store buffer ret x00;
   emit (PrintfClient i (c_string buffer));;
   mret (Next (active - 1)))
    (with_k_timers
       (λ m, <[t := {| it_interval := zero_timespec;
                       it_value := {| tv_sec := TIMEOUT; tv_nsec := 0 |} |}]> m)
       (with_trace (λ tr, tr ++ [Service i]) s)).
Proof.
  intros Hp Ht Hits Ho Hin Hi HT. unfold serve.
  erewrite bind_Done by (by apply pfd_at_eq).
  erewrite bind_Done by (by apply timer_at_eq).
  rewrite decide_False; last first.
  { intros [?|E]; [unfold occupied in Ho; lia|]. by rewrite E in Hin. }
  rewrite bind_eq, emit_eq; cbn beta iota.
  rewrite decide_False by done. rewrite decide_False by done.
  erewrite bind_Done by (by eapply arm_timer_live).
  rewrite decide_False by congruence.
  erewrite bind_Done by (by apply pfd_at_eq).
  done.
Qed.

(** X4.  A read that returns no byte is taken as the peer's disconnect:
    the turn reports it, disarms the slot's timer, closes the descriptor
    and frees the slot, and the loop goes on.  The other slots and timers
    are as before. *)
Theorem serve_disconnect (env : pass_env) (i : nat) (active : Z) (s : state)
    (p : pollfd) (t : timer_t) (its : itimerspec) (data : list byte) :
  pfds s !! i = Some p → timers s !! i = Some t → k_timers s !! t = Some its →
  occupied p → Z.land (revents p) POLLIN ≠ 0 → i ≠ 0%nat → 0 ≤ TIMEOUT →
  recv_result env i = Received data → take (BUFFER_SIZE - 1) data = [] →
  ∃ s',
    serve MAX_CONNECTIONS BUFFER_SIZE TIMEOUT env i active s
      = Done (Next (active - 1)) s' ∧
    pfds s' = alter (set_fd (-1)) i (pfds s) ∧
    timers s' = timers s ∧
    k_timers s' = <[t := zero_itimerspec]> (k_timers s) ∧
    k_open s' = k_open s ∖ {[fd p]} ∧
    timeout_triggered s' = timeout_triggered s ∧
    interrupt_triggered s' = interrupt_triggered s ∧
    trace s' = trace s ++
      [Service i; SysRecv (fd p) 0;
       EprintfClient "Client %zu disconnected" i; SysClose (fd p)].
Proof.
  intros Hp Ht Hits Ho Hin Hi HT Hrecv Hnone.
  erewrite serve_until_recv by done. cbn zeta.
  rewrite Hrecv, bind_eq. cbn [recv]. rewrite Hnone. cbn [length Z.of_nat].
  rewrite decide_True by done. rewrite bind_eq, emit_eq; cbn beta iota.
  match goal with |- context [(close_connection i t ≫= _) ?s0] =>
    destruct (close_connection_spec i t s0 p
                {| it_interval := zero_timespec;
                   it_value := {| tv_sec := TIMEOUT; tv_nsec := 0 |} |})
      as (e & E)
  end; [done|cbn; apply lookup_insert_eq|].
  erewrite bind_Done by exact E. eexists. split; [done|].
  cbn. rewrite insert_insert_eq, <-!app_assoc. by split_and!.
Qed.

(** X5.  A read that returns bytes: the turn re-arms the slot's timer
    with TIMEOUT seconds, and prints of the bytes read those before the
    first NUL, and nothing of what the buffer held before, whatever that
    was.  At most BUFFER_SIZE - 1 bytes are read.  The table and the open
    descriptors are as before. *)
Theorem serve_prints_what_it_read (env : pass_env) (i : nat) (active : Z) (s : state)
    (p : pollfd) (t : timer_t) (its : itimerspec) (data : list byte) :
  pfds s !! i = Some p → timers s !! i = Some t → k_timers s !! t = Some its →
  occupied p → Z.land (revents p) POLLIN ≠ 0 → i ≠ 0%nat → 0 ≤ TIMEOUT →
  recv_result env i = Received data → take (BUFFER_SIZE - 1) data ≠ [] →
  ∃ s',
    serve MAX_CONNECTIONS BUFFER_SIZE TIMEOUT env i active s
      = Done (Next (active - 1)) s' ∧
    pfds s' = pfds s ∧ timers s' = timers s ∧ k_open s' = k_open s ∧
    k_timers s' = <[t := {| it_interval := zero_timespec;
                            it_value := {| tv_sec := TIMEOUT; tv_nsec := 0 |} |}]>
                    (k_timers s) ∧
    timeout_triggered s' = timeout_triggered s ∧
    interrupt_triggered s' = interrupt_triggered s ∧
    trace s' = trace s ++
      [Service i;
       SysRecv (fd p) (Z.of_nat (length (take (BUFFER_SIZE - 1) data)));
       PrintfClient i (c_string (take (BUFFER_SIZE - 1) data))].
Proof.
  intros Hp Ht Hits Ho Hin Hi HT Hrecv Hsome.
  erewrite serve_until_recv by done. cbn zeta.
  rewrite Hrecv, bind_eq. cbn [recv].
  set (got := take (BUFFER_SIZE - 1) data) in *.
  assert (0 < length got)%nat as Hpos by (destruct got; [done|cbn; lia]).
  assert (length got ≤ BUFFER_SIZE - 1)%nat as Hle.
  { subst got. rewrite length_take. lia. }
  rewrite decide_False by lia. rewrite decide_False by lia.
  unfold buffer_store. rewrite decide_True; last first.
  { rewrite length_app, length_drop, length_resize. lia. }
  rewrite bind_eq. cbn [mret M_ret]. rewrite bind_eq, emit_eq; cbn beta iota.
  rewrite Nat2Z.id, c_string_terminated; last first.
  { intros E. apply (f_equal length) in E.
    rewrite length_drop, length_resize in E. cbn in E. lia. }
  eexists. split; [done|]. cbn. rewrite <-!app_assoc. by split_and!.
Qed.

(** X6.  An event without POLLIN (an error or a hang-up) on an occupied
    slot makes the turn close the connection without reading, and without
    any report.  The slot may be slot 0: then it is the listening socket
    that is closed and its slot that is marked free. *)
Theorem serve_error_event (env : pass_env) (i : nat) (active : Z) (s : state)
    (p : pollfd) (t : timer_t) (its : itimerspec) :
  pfds s !! i = Some p → timers s !! i = Some t → k_timers s !! t = Some its →
  occupied p → revents p ≠ 0 → Z.land (revents p) POLLIN = 0 →
  ∃ s',
    serve MAX_CONNECTIONS BUFFER_SIZE TIMEOUT env i active s
      = Done (Next (active - 1)) s' ∧
    pfds s' = alter (set_fd (-1)) i (pfds s) ∧
    timers s' = timers s ∧
    k_timers s' = <[t := zero_itimerspec]> (k_timers s) ∧
    k_open s' = k_open s ∖ {[fd p]} ∧
    trace s' = trace s ++ [Service i; SysClose (fd p)].
Proof.
  intros Hp Ht Hits Ho Hre Hin. unfold serve.
  erewrite bind_Done by (by apply pfd_at_eq).
  erewrite bind_Done by (by apply timer_at_eq).
  rewrite decide_False by (unfold occupied in Ho; lia).
  rewrite bind_eq, emit_eq; cbn beta iota.
  rewrite decide_True by done.
  match goal with |- context [(close_connection i t ≫= _) ?s0] =>
    destruct (close_connection_spec i t s0 p its) as (e & E)
  end; [done..|].
  erewrite bind_Done by exact E. eexists. split; [done|].
  cbn. rewrite <-!app_assoc. by split_and!.
Qed.
End Turns.

(** ** A server without listener *)

Global Instance deaf_preorder : PreOrder deaf.
Proof.
  split.
  - intros s H. split; [done|]. exists []. by rewrite app_nil_r.
  - intros s1 s2 s3 H12 H23 H1.
    destruct (H12 H1) as (H2 & tr & E & F).
    destruct (H23 H2) as (H3 & tr' & E' & F').
    split; [done|]. exists (tr ++ tr'). rewrite E', E, app_assoc.
    split; [done|]. by rewrite filter_app, F, F'.
Qed.

Lemma gone_alter (f : pollfd → pollfd) i (l : list pollfd) :
  (∀ p, fd p < 0 → fd (f p) < 0) →
  (∃ p, l !! 0%nat = Some p ∧ fd p < 0) →
  ∃ p, alter f i l !! 0%nat = Some p ∧ fd p < 0.
Proof.
  intros Hf (p & Hp & Hfd). destruct (decide (i = 0%nat)) as [->|Hi].
  - exists (f p). rewrite list_lookup_alter_eq, Hp. split; [done|]. by apply Hf.
  - exists p. by rewrite list_lookup_alter_ne.
Qed.

Lemma gone_poll bits n (l : list pollfd) :
  (∃ p, l !! 0%nat = Some p ∧ fd p < 0) →
  ∃ p, (imap (poll_revents bits) (take n l) ++ drop n l) !! 0%nat = Some p ∧ fd p < 0.
Proof.
  intros (p & Hp & Hfd). destruct l as [|q l]; [done|]. injection Hp as ->.
  destruct n; cbn; eauto.
Qed.

Ltac deaf_side :=
  unfold deaf, listener_gone; simpl;
  let H := fresh "Hgone" in
  intros H; split;
  [ first [ exact H
          | apply gone_poll; exact H
          | apply gone_alter; [intros ? ?; simpl; first [assumption | lia]|exact H] ]
  | first [ by (exists []; rewrite app_nil_r) | by (eexists [_]) ] ].

Section Deaf.
Variables (MAX_CONNECTIONS BUFFER_SIZE : nat) (TIMEOUT : Z).

Lemma deaf_timer_settime t new : keeps deaf (timer_settime t new).
Proof. keeps_prim deaf_side. Qed.
Lemma deaf_timer_gettime t : keeps deaf (timer_gettime t).
Proof. keeps_prim deaf_side. Qed.
Lemma deaf_close c : keeps deaf (close c).
Proof. keeps_prim deaf_side. Qed.
Lemma deaf_recv o c b n : keeps deaf (recv o c b n).
Proof. keeps_prim deaf_side. Qed.
Lemma deaf_perror m : keeps deaf (perror m).
Proof. unfold perror, emit. keeps_with deaf_side. Qed.
Lemma deaf_emit e : is_accept e = false → keeps deaf (emit e).
Proof.
  intros He s Hgone. split; [exact Hgone|]. exists [e]. split; [done|].
  cbn. unfold filter; cbn. by rewrite He.
Qed.
#[local] Hint Resolve deaf_timer_settime deaf_timer_gettime deaf_close deaf_recv
  deaf_perror : keeps.

Lemma deaf_pfd_at i : keeps deaf (pfd_at i).
Proof. unfold pfd_at. keeps_with deaf_side. Qed.
Lemma deaf_timer_at i : keeps deaf (timer_at i).
Proof. unfold timer_at. keeps_with deaf_side. Qed.
Lemma deaf_free_slot i : keeps deaf (store_fd i (-1)).
Proof. unfold store_fd. keeps_with deaf_side. Qed.
Lemma deaf_buffer_store b i x : keeps deaf (buffer_store b i x).
Proof. unfold buffer_store. keeps_with deaf_side. Qed.
#[local] Hint Resolve deaf_pfd_at deaf_timer_at deaf_free_slot deaf_buffer_store : keeps.

Lemma deaf_arm_timer t : keeps deaf (arm_timer TIMEOUT t).
Proof. unfold arm_timer. keeps_with deaf_side. Qed.
Lemma deaf_disarm_timer t : keeps deaf (disarm_timer t).
Proof. unfold disarm_timer. keeps_with deaf_side. Qed.
Lemma deaf_timer_expired t : keeps deaf (timer_expired t).
Proof. unfold timer_expired. keeps_with deaf_side. Qed.
#[local] Hint Resolve deaf_arm_timer deaf_disarm_timer deaf_timer_expired : keeps.

Lemma deaf_close_connection i t : keeps deaf (close_connection i t).
Proof. unfold close_connection. keeps_with deaf_side. Qed.
#[local] Hint Resolve deaf_close_connection : keeps.

Lemma deaf_check_timeouts k i : keeps deaf (check_timeouts k i).
Proof.
  revert i. induction k as [|k IH]; intros i; cbn [check_timeouts];
    keeps_with deaf_side; by apply deaf_emit.
Qed.

Lemma deaf_before_poll n : keeps deaf (before_poll n).
Proof.
  pose proof deaf_check_timeouts. unfold before_poll. keeps_with deaf_side.
Qed.

Lemma deaf_elapse d : keeps deaf (elapse d).
Proof. unfold elapse, timeout_handler. keeps_with deaf_side. Qed.
Lemma deaf_deliver_sigint b : keeps deaf (deliver_sigint b).
Proof. unfold deliver_sigint, interrupt_handler. keeps_with deaf_side. Qed.
#[local] Hint Resolve deaf_elapse deaf_deliver_sigint deaf_before_poll : keeps.

Lemma deaf_poll d b o n : keeps deaf (poll d b o n).
Proof. unfold poll. keeps_with deaf_side; by apply deaf_emit. Qed.
#[local] Hint Resolve deaf_poll : keeps.

(** A turn at a client's slot calls no [accept]; a turn at slot 0 finds
    the slot free and does nothing. *)
Lemma deaf_serve env i active :
  keeps deaf (serve MAX_CONNECTIONS BUFFER_SIZE TIMEOUT env i active).
Proof.
  destruct (decide (i = 0%nat)) as [->|Hi].
  - intros s Hgone. destruct (Hgone) as (p & Hp & Hfd). unfold serve.
    erewrite bind_Done by (by apply pfd_at_eq).
    rewrite bind_eq. unfold timer_at, gets.
    rewrite decide_True by (left; done). by apply (reflexivity (R := deaf)).
  - unfold serve. keeps_with deaf_side; try done; by apply deaf_emit.
Qed.
#[local] Hint Resolve deaf_serve : keeps.

Lemma deaf_process_events env k i active :
  keeps deaf (process_events MAX_CONNECTIONS BUFFER_SIZE TIMEOUT env k i active).
Proof.
  revert i active. induction k as [|k IH]; intros i active; cbn [process_events];
    keeps_with deaf_side.
Qed.
#[local] Hint Resolve deaf_process_events : keeps.

Lemma deaf_pass env n : keeps deaf (pass MAX_CONNECTIONS BUFFER_SIZE TIMEOUT env n).
Proof. unfold pass. keeps_with deaf_side. Qed.
#[local] Hint Resolve deaf_pass : keeps.

Lemma deaf_event_loop script n :
  keeps deaf (event_loop MAX_CONNECTIONS BUFFER_SIZE TIMEOUT script n).
Proof. induction script as [|env script IH]; cbn [event_loop]; keeps_with deaf_side. Qed.

(** X7.  Once slot 0 is free (an error event on the listening socket makes
    a turn close it and free its slot), no later pass of the event loop
    calls [accept], whatever the environment does: the slot stays free,
    and the loop goes on without ever taking a new connection. *)
Theorem closed_listener_never_accepts (script : list pass_env) (n : nat) (s : state)
    (p : pollfd) :
  pfds s !! 0%nat = Some p → fd p < 0 →
  ∃ p' tr,
    let s' := final (event_loop MAX_CONNECTIONS BUFFER_SIZE TIMEOUT script n s) in
    pfds s' !! 0%nat = Some p' ∧ fd p' < 0 ∧
    trace s' = trace s ++ tr ∧ ∀ lfd ret, SysAccept lfd ret ∉ tr.
Proof.
  intros Hp Hfd.
  destruct (deaf_event_loop script n s) as ((p' & Hp' & Hfd') & tr & E & F);
    [by exists p|].
  exists p', tr. cbn zeta. split_and!; [done..|].
  intros lfd ret Hin.
  assert (SysAccept lfd ret ∈ filter is_accept tr) as Hin'
    by (by apply list_elem_of_filter).
  rewrite F in Hin'. by apply elem_of_nil in Hin'.
Qed.
End Deaf.

(** ** New connections *)

Lemma filter_insert_count {A} (P : A → Prop) `{!∀ x, Decision (P x)}
    (l : list A) (j : nat) (p q : A) :
  l !! j = Some p → ¬ P p → P q →
  length (filter P (<[j := q]> l)) = S (length (filter P l)).
Proof.
  revert j. induction l as [|x l IH]; intros [|j] Hj Hp Hq; try done.
  - injection Hj as ->.
    change (<[0%nat := q]> (p :: l)) with (q :: l).
    rewrite filter_cons_True, filter_cons_False by done. done.
  - change (<[S j := q]> (x :: l)) with (x :: <[j := q]> l).
    rewrite !filter_cons. destruct (decide (P x)); cbn; by rewrite IH.
Qed.

Lemma occupied_clients_insert (l : list pollfd) (j : nat) (p q : pollfd) :
  (1 ≤ j)%nat → l !! j = Some p → ¬ occupied p → occupied q →
  occupied_clients (<[j := q]> l) = S (occupied_clients l).
Proof.
  intros Hj Hp Hfree Hq. unfold occupied_clients.
  destruct j as [|j]; [lia|]. destruct l as [|x l]; [done|].
  change (<[S j := q]> (x :: l)) with (x :: <[j := q]> l).
  cbn [drop]. by eapply filter_insert_count.
Qed.

Lemma alter_twice_insert (l : list pollfd) (j : nat) (p : pollfd) (c e : Z) :
  l !! j = Some p →
  alter (set_events e) j (alter (set_fd c) j l)
  = <[j := {| fd := c; events := e; revents := revents p |}]> l.
Proof.
  intros Hp. apply list_eq. intros i. destruct (decide (i = j)) as [->|Hne].
  - rewrite !list_lookup_alter_eq, Hp, list_lookup_insert_eq; [done|].
    by eapply lookup_lt_Some.
  - by rewrite !list_lookup_alter_ne, list_lookup_insert_ne.
Qed.

Section Accept.
Variables (MAX_CONNECTIONS BUFFER_SIZE : nat) (TIMEOUT : Z).

(** X8.  A connection that [accept] hands over while a client slot is
    free goes into the free slot of least index: the slot takes the
    descriptor and POLLIN, the slot's own timer is armed with TIMEOUT
    seconds, the connection is reported, and one more client slot is
    occupied.  Nothing else in the table changes. *)
Theorem accept_connection_takes_first_free_slot (c : Z) (s : state) (j : nat)
    (p0 p : pollfd) (t : timer_t) (its : itimerspec) :
  0 ≤ c → 0 ≤ TIMEOUT →
  pfds s !! 0%nat = Some p0 →
  (1 ≤ j ∧ j < MAX_CONNECTIONS)%nat →
  (∀ j', (1 ≤ j' ∧ j' < j)%nat → ∃ p', pfds s !! j' = Some p' ∧ occupied p') →
  pfds s !! j = Some p → ¬ occupied p →
  timers s !! j = Some t → k_timers s !! t = Some its →
  ∃ s',
    accept_connection MAX_CONNECTIONS TIMEOUT (Accepted c) s = Done 0 s' ∧
    pfds s' = <[j := {| fd := c; events := POLLIN; revents := revents p |}]> (pfds s) ∧
    occupied_clients (pfds s') = S (occupied_clients (pfds s)) ∧
    timers s' = timers s ∧
    k_timers s' = <[t := {| it_interval := zero_timespec;
                            it_value := {| tv_sec := TIMEOUT; tv_nsec := 0 |} |}]>
                    (k_timers s) ∧
    k_open s' = {[c]} ∪ k_open s ∧
    trace s' = trace s ++
      [SysAccept (fd p0) c; EprintfClient "Client %zu connected" j].
Proof.
  intros Hc HT Hp0 Hj Hbefore Hp Hfree Ht Hits. unfold accept_connection.
  erewrite bind_Done by (by apply pfd_at_eq).
  rewrite bind_eq. cbn [accept]. rewrite decide_True by done.
  rewrite decide_False by lia.
  match goal with |- context [find_slot _ _ _ _ ?s0] =>
    destruct (find_slot_first TIMEOUT c (MAX_CONNECTIONS - 1) 1 s0 j p t its)
      as (s' & E & Hpf & Htm & Hkt & Hko & Htr)
  end; [lia|done..|].
  exists s'. split; [done|]. cbn in Hpf, Htm, Hkt, Hko, Htr.
  rewrite (alter_twice_insert _ _ p) in Hpf by done.
  split_and!; [done| |done..|by rewrite Htr, <-app_assoc].
  rewrite Hpf. eapply occupied_clients_insert; [lia|done..|].
  unfold occupied. cbn. lia.
Qed.

(** X9.  A turn at the listener's slot never ends the loop: whatever
    [accept] and the search for a slot do, the turn goes on to the next
    slot.  When [accept] fails, for whatever reason, the failure is
    reported and the table, the timers and the open descriptors are as
    before. *)
Theorem serve_listener_goes_on (env : pass_env) (active : Z) (s : state) (p0 : pollfd) :
  pfds s !! 0%nat = Some p0 → occupied p0 → Z.land (revents p0) POLLIN ≠ 0 →
  ∃ s',
    serve MAX_CONNECTIONS BUFFER_SIZE TIMEOUT env 0 active s
      = Done (Next (active - 1)) s' ∧
    (∀ e, accept_result env = AcceptFailed e →
       pfds s' = pfds s ∧ timers s' = timers s ∧ k_timers s' = k_timers s ∧
       k_open s' = k_open s ∧ errno s' = e ∧
       trace s' = trace s ++
         [Service 0; SysAccept (fd p0) (-1);
          Perror "Failed to accept connection request"]).
Proof.
  intros Hp0 Ho Hin. unfold serve.
  erewrite bind_Done by (by apply pfd_at_eq).
  rewrite bind_eq. cbn [timer_at gets].
  rewrite decide_False; last first.
  { intros [?|E]; [unfold occupied in Ho; lia|]. by rewrite E in Hin. }
  rewrite bind_eq, emit_eq; cbn beta iota.
  rewrite decide_False by done. rewrite decide_True by done.
  rewrite bind_eq.
  match goal with |- context [accept_connection _ _ _ ?s0] =>
    destruct (completes_accept_connection MAX_CONNECTIONS TIMEOUT (accept_result env) s0)
      as (r & s' & E)
  end.
  rewrite E. exists s'. split; [done|].
  intros e He. rewrite He in E. unfold accept_connection in E.
  erewrite bind_Done in E by (by apply pfd_at_eq).
  rewrite bind_eq in E. cbn [accept] in E. rewrite decide_True in E by done.
  injection E as _ <-. cbn. by rewrite <-!app_assoc.
Qed.
End Accept.

(** ** Destroying timers *)

(** X10.  [destroy_timers] gives up at the first timer it cannot delete:
    it reports the failure and returns 1, and the timers of the entries
    after that one are left alive in the kernel. *)
Theorem destroy_timers_stops_at_first_failure (n j : nat) (s : state) (t : timer_t) :
  (j < n)%nat →
  NoDup (take j (timers s)) →
  (∀ t', t' ∈ take j (timers s) → is_Some (k_timers s !! t')) →
  timers s !! j = Some t →
  (t ∈ take j (timers s) ∨ k_timers s !! t = None) →
  ∃ s',
    destroy_timers n s = Done 1 s' ∧
    (∀ t', t' ∈ take j (timers s) → k_timers s' !! t' = None) ∧
    (∀ t', t' ∉ take j (timers s) → k_timers s' !! t' = k_timers s !! t') ∧
    timers s' = timers s ∧ pfds s' = pfds s ∧ k_open s' = k_open s ∧
    errno s' = EINVAL ∧
    trace s' = trace s ++ [Perror "Failed to destroy timer"].
Proof.
  intros Hj Hnd Hlive Ht Hdead. unfold destroy_timers.
  assert (∀ k i s0, destroy_timers_from (i + S k) 0 s0 =
            (destroy_timers_from i 0 ≫= λ r,
               if decide (r ≠ 0) then mret r else destroy_timers_from (S k) i) s0)
    as Hsplit.
  { intros k i s0.
    assert (∀ a b s1, destroy_timers_from (a + S k) b s1 =
              (destroy_timers_from a b ≫= λ r,
                 if decide (r ≠ 0) then mret r
                 else destroy_timers_from (S k) (b + a)) s1) as Hgen.
    { induction a as [|a IH]; intros b s1.
      - by rewrite Nat.add_0_r.
      - cbn [destroy_timers_from Nat.add]. rewrite !bind_eq.
        destruct (timer_at b s1) as [t0 s2| |]; [|done..].
        rewrite !bind_eq. destruct (timer_delete t0 s2) as [r s3| |]; [|done..].
        case_decide.
        + rewrite !bind_eq. destruct (perror _ s3) as [[] s4| |]; [|done..].
          done.
        + rewrite IH. by replace (S b + a)%nat with (b + S a)%nat by lia. }
    apply Hgen. }
  replace n with (j + S (n - S j))%nat by lia. rewrite Hsplit.
  destruct (destroy_timers_from_live j 0 s) as (s1 & E & Gt & Gp & Go & Gtr & Gin & Gout).
  { by rewrite drop_0. }
  { by rewrite drop_0. }
  { apply lookup_lt_Some in Ht. lia. }
  rewrite drop_0 in Gin, Gout.
  erewrite bind_Done by exact E. rewrite decide_False by (intros H; by apply H).
  cbn [destroy_timers_from].
  erewrite bind_Done by (apply timer_at_eq; by rewrite Gt).
  assert (k_timers s1 !! t = None) as Hnone.
  { destruct Hdead as [Hin|Hn]; [by apply Gin|]. 
    destruct (decide (t ∈ take j (timers s))); [by apply Gin|by rewrite Gout]. }
  rewrite bind_eq. unfold timer_delete. rewrite Hnone.
  rewrite decide_True by done. rewrite bind_eq.
  eexists. split; [done|]. cbn. rewrite Gtr. by split_and!.
Qed.

(** ** What makes the event loop return *)

Lemma snoc3 {A} (l : list A) (a b c : A) :
  ((l ++ [a]) ++ [b]) ++ [c] = l ++ [a; b; c].
Proof. by rewrite <-!app_assoc. Qed.

Lemma returns_next (a : Z) : returns on_return (mret (Next a)).
Proof. by intros s b s' [= <- <-]. Qed.

Lemma returns_none : returns on_exit (mret None).
Proof. by intros s b s' [= <- <-]. Qed.

Lemma poll_trace d sig o n s ret s' :
  poll d sig o n s = Done ret s' → ∃ tr, trace s' = tr ++ [SysPoll ret].
Proof.
  intros E. destruct o as [bits|e].
  - destruct (poll_ready d sig bits n s) as (ret' & s'' & E' & Htr & _).
    rewrite E in E'. injection E' as <- <-. by eexists.
  - destruct (poll_failed d sig e n s) as (s'' & E' & Htr & _).
    rewrite E in E'. injection E' as -> <-. by eexists.
Qed.

Section Returns.
Variables (MAX_CONNECTIONS BUFFER_SIZE : nat) (TIMEOUT : Z).

Lemma returns_serve env i active :
  returns on_return (serve MAX_CONNECTIONS BUFFER_SIZE TIMEOUT env i active).
Proof.
  unfold serve.
  apply returns_bind; intros pfd. apply returns_bind; intros timer.
  case_decide; [apply returns_next|].
  apply returns_bind; intros [].
  case_decide; [apply returns_bind; intros; apply returns_next|].
  case_decide; [apply returns_bind; intros; apply returns_next|].
  apply returns_bind; intros r.
  case_decide; [apply returns_bind; intros; apply returns_next|].
  apply returns_bind; intros pfd'.
  intros s b s' E. rewrite bind_eq in E. unfold recv in E.
  destruct (recv_result env i) as [data|e].
  - revert E. apply returns_at. case_decide.
    + apply returns_bind; intros; apply returns_bind; intros; apply returns_next.
    + rewrite decide_False by lia.
      apply returns_bind; intros; apply returns_bind; intros; apply returns_next.
  - rewrite decide_False in E by lia. rewrite decide_True in E by lia.
    rewrite bind_eq in E. cbn [gets errno with_errno] in E.
    case_decide as He; [by injection E as <- <-|].
    injection E as <- <-. right. split; [done|].
    eexists _, i, (fd pfd'). split; [done|]. cbn. apply snoc3.
Qed.

Lemma returns_process_events env k : ∀ i active,
  returns on_exit (process_events MAX_CONNECTIONS BUFFER_SIZE TIMEOUT env k i active).
Proof.
  induction k as [|k IH]; intros i active; cbn [process_events];
    [apply returns_none|].
  apply returns_bind; intros it. case_decide; [|apply returns_none].
  intros s r s' E. rewrite bind_eq in E.
  destruct (serve _ _ _ _ _ _ s) as [f s1| |] eqn:Es; [|done..].
  apply returns_serve in Es. destruct f as [a|v].
  - revert E. apply returns_bind; intros. apply IH.
  - by injection E as <- <-.
Qed.

Lemma before_poll_cause n s r s' :
  before_poll n s = Done (Some r) s' → r = 0 ∧ interrupt_triggered s' ≠ 0.
Proof.
  unfold before_poll. rewrite bind_eq. cbn [gets].
  case_decide as Hit; [by intros [= <- <-]|].
  intros E. exfalso.
  assert (Some r = None); [|done].
  revert E. apply (returns_at (λ a _, a = None)).
  apply returns_bind; intros. apply returns_bind; intros.
  by intros ? ? ? [= <- <-].
Qed.

Lemma returns_pass env n :
  returns on_exit (pass MAX_CONNECTIONS BUFFER_SIZE TIMEOUT env n).
Proof.
  intros s r s' E. unfold pass in E. rewrite bind_eq in E.
  destruct (before_poll n s) as [[v|] s1| |] eqn:Eb; [| |done..].
  { injection E as <- <-. apply before_poll_cause in Eb as [-> Hit].
    left. split; [done|]. by left. }
  rewrite bind_eq in E.
  destruct (elapse (window_elapsed env) s1) as [[] sw| |]; [|done..].
  rewrite bind_eq in E.
  destruct (poll _ _ _ _ sw) as [active s3| |] eqn:Ep; [|done..].
  apply poll_trace in Ep as [tr Htr].
  case_decide as Ha; [|by eapply returns_process_events].
  rewrite bind_eq in E. cbn [gets] in E.
  case_decide as He; [by injection E as <- <-|].
  injection E as <- <-. left. split; [done|]. right.
  exists tr, active. split_and!; [done..|]. cbn. by rewrite Htr, <-app_assoc.
Qed.

(** X11.  [event_loop] returns only 0 or 1.  It returns 1 only when a
    read from a client has just failed with an error other than EINTR,
    which it has reported; and 0 only with the interrupt flag set, or
    when [poll] has just returned no ready descriptor with [errno] other
    than EINTR, which it has reported as a failure of [poll]. *)
Theorem event_loop_return_cause (script : list pass_env) (n : nat) (s s' : state) (v : Z) :
  event_loop MAX_CONNECTIONS BUFFER_SIZE TIMEOUT script n s = Done (Some v) s' →
  return_cause v s'.
Proof.
  revert s. induction script as [|env script IH]; intros s E; [done|].
  cbn [event_loop] in E. rewrite bind_eq in E.
  destruct (pass _ _ _ _ _ s) as [r s1| |] eqn:Ep; [|done..].
  apply returns_pass in Ep. destruct r as [v'|].
  - by injection E as <- <-.
  - by eapply IH.
Qed.
End Returns.

(** ** No descriptor is lost *)

Global Instance tidy_preorder base n : PreOrder (tidy base n).
Proof. split; [by intros s H|]. intros s1 s2 s3 H12 H23 H1. auto. Qed.

Lemma tracked_frame base s s' :
  pfds s' = pfds s → k_open s' ⊆ k_open s → tracked base s → tracked base s'.
Proof.
  intros Hp Ho Ht c Hc Hin. rewrite Hp. apply Ht; [done|]. by apply Ho.
Qed.

Lemma tracked_same_fds base s (l : list pollfd) o :
  fd <$> l = fd <$> pfds s → o ⊆ k_open s → tracked base s →
  ∀ c, 0 ≤ c → c ∈ o → c ∈ base ∨ ∃ i p, l !! i = Some p ∧ fd p = c.
Proof.
  intros Hl Ho Ht c Hc Hin. destruct (Ht c Hc) as [?|(i & p & Hp & Hfd)]; [by apply Ho|by left|].
  right. assert ((fd <$> l) !! i = Some c) as Hi.
  { by rewrite Hl, list_lookup_fmap, Hp; cbn; rewrite Hfd. }
  rewrite list_lookup_fmap in Hi. destruct (l !! i) as [q|] eqn:Hq; [|done].
  cbn in Hi. exists i, q. split; [done|]. congruence.
Qed.

Ltac tidy_side :=
  unfold tidy, tracked; simpl;
  let Ht := fresh "Ht" in let Hl := fresh "Hl" in
  intros [Ht Hl]; split;
  [ first [ exact Ht
          | eapply tracked_same_fds;
            [first [apply fmap_fd_poll | by apply fmap_alter_same]
            |reflexivity|exact Ht]
          | eapply (tracked_same_fds _ _ _ _ eq_refl); [|exact Ht]; set_solver ]
  | rewrite ?length_alter, ?length_app, ?length_imap, ?length_take, ?length_drop;
    first [done | lia] ].

Section Tidy.
Variables (MAX_CONNECTIONS BUFFER_SIZE : nat) (TIMEOUT : Z).
Variable base : gset Z.



Lemma tidy_timer_settime t new : keeps (tidy base MAX_CONNECTIONS) (timer_settime t new).
Proof. keeps_prim tidy_side. Qed.
Lemma tidy_timer_gettime t : keeps (tidy base MAX_CONNECTIONS) (timer_gettime t).
Proof. keeps_prim tidy_side. Qed.
Lemma tidy_close c : keeps (tidy base MAX_CONNECTIONS) (close c).
Proof. keeps_prim tidy_side. Qed.
Lemma tidy_recv o c b n : keeps (tidy base MAX_CONNECTIONS) (recv o c b n).
Proof. keeps_prim tidy_side. Qed.
Lemma tidy_emit e : keeps (tidy base MAX_CONNECTIONS) (emit e).
Proof. unfold emit. keeps_with tidy_side. Qed.
Lemma tidy_perror m : keeps (tidy base MAX_CONNECTIONS) (perror m).
Proof. apply tidy_emit. Qed.
Lemma tidy_pfd_at i : keeps (tidy base MAX_CONNECTIONS) (pfd_at i).
Proof. unfold pfd_at. keeps_with tidy_side. Qed.
Lemma tidy_timer_at i : keeps (tidy base MAX_CONNECTIONS) (timer_at i).
Proof. unfold timer_at. keeps_with tidy_side. Qed.
Lemma tidy_store_events i v : keeps (tidy base MAX_CONNECTIONS) (store_events i v).
Proof. unfold store_events. keeps_with tidy_side. Qed.
Lemma tidy_buffer_store b i x : keeps (tidy base MAX_CONNECTIONS) (buffer_store b i x).
Proof. unfold buffer_store. keeps_with tidy_side. Qed.
#[local] Hint Resolve tidy_timer_settime tidy_timer_gettime tidy_close tidy_recv
  tidy_emit tidy_perror tidy_pfd_at tidy_timer_at tidy_store_events
  tidy_buffer_store : keeps.

Lemma tidy_arm_timer t : keeps (tidy base MAX_CONNECTIONS) (arm_timer TIMEOUT t).
Proof. unfold arm_timer. keeps_with tidy_side. Qed.
Lemma tidy_disarm_timer t : keeps (tidy base MAX_CONNECTIONS) (disarm_timer t).
Proof. unfold disarm_timer. keeps_with tidy_side. Qed.
Lemma tidy_timer_expired t : keeps (tidy base MAX_CONNECTIONS) (timer_expired t).
Proof. unfold timer_expired. keeps_with tidy_side. Qed.
Lemma tidy_elapse d : keeps (tidy base MAX_CONNECTIONS) (elapse d).
Proof. unfold elapse, timeout_handler. keeps_with tidy_side. Qed.
Lemma tidy_deliver_sigint b : keeps (tidy base MAX_CONNECTIONS) (deliver_sigint b).
Proof. unfold deliver_sigint, interrupt_handler. keeps_with tidy_side. Qed.
#[local] Hint Resolve tidy_arm_timer tidy_disarm_timer tidy_timer_expired
  tidy_elapse tidy_deliver_sigint : keeps.

Lemma tidy_poll d b o n : keeps (tidy base MAX_CONNECTIONS) (poll d b o n).
Proof. unfold poll. keeps_with tidy_side. Qed.
#[local] Hint Resolve tidy_poll : keeps.

(** Closing the descriptor of a slot and then marking the slot free. *)
Lemma close_then_free base' i s :
  tracked base' s →
  tracked base' (final ((pfd ← pfd_at i; close (fd pfd);; store_fd i (-1)) s)).
Proof.
  intros Ht. rewrite bind_eq. cbn [pfd_at gets]. rewrite bind_eq. unfold close.
  set (p := default free_pfd (pfds s !! i)).
  assert (∀ c, 0 ≤ c → c ∈ k_open s → c ≠ fd p →
            c ∈ base' ∨ ∃ j q, alter (set_fd (-1)) i (pfds s) !! j = Some q ∧ fd q = c)
    as Hkeep.
  { intros c Hc Hin Hne. destruct (Ht c Hc Hin) as [?|(j & q & Hq & Hfd)]; [by left|].
    right. exists j, q. split; [|done]. rewrite list_lookup_alter_ne; [done|].
    intros ->. subst p. rewrite Hq in Hne. by cbn in Hne. }
  cbn [k_open with_trace].
  case_decide as Hin; cbn; intros c Hc Hc'.
  - apply Hkeep; [done|set_solver|set_solver].
  - apply Hkeep; [done..|]. by intros ->.
Qed.

Lemma tidy_close_connection i t : keeps (tidy base MAX_CONNECTIONS) (close_connection i t).
Proof.
  intros s [Ht Hl]. unfold close_connection. rewrite bind_eq.
  pose proof (tidy_disarm_timer t s (conj Ht Hl)) as [Ht1 Hl1].
  pose proof (steady_disarm_timer t s) as (_ & _ & Hlen1).
  destruct (disarm_timer t s) as [r s1| |]; [|done..]. cbn [final] in *.
  split; [by apply close_then_free|].
  rewrite bind_eq. cbn [pfd_at gets]. rewrite bind_eq. unfold close.
  case_decide; cbn; by rewrite length_alter.
Qed.
#[local] Hint Resolve tidy_close_connection : keeps.

(** The search for a slot, with the new descriptor open and not yet in
    the table. *)
Lemma tidy_find_slot c k : ∀ i s,
  (k = 0 ∨ i + k ≤ length (pfds s))%nat →
  tracked ({[c]} ∪ base) s → length (pfds s) = MAX_CONNECTIONS →
  tracked base (final (find_slot TIMEOUT c k i s)) ∧
  length (pfds (final (find_slot TIMEOUT c k i s))) = MAX_CONNECTIONS.
Proof.
  induction k as [|k IH]; intros i s Hik Ht Hl.
  - cbn [find_slot]. rewrite bind_eq, emit_eq; cbn beta iota. rewrite bind_eq.
    unfold close. cbn [k_open with_trace]. case_decide as Hin; cbn; (split; [|done]).
    + intros c' Hc' Hin'. destruct (Ht c' Hc') as [Hb|?]; [set_solver| |by right].
      set_solver.
    + intros c' Hc' Hin'. destruct (Ht c' Hc') as [Hb|?]; [set_solver| |by right].
      set_solver.
  - destruct (lookup_lt_is_Some_2 (pfds s) i) as [p Hp]; [lia|].
    cbn [find_slot]. erewrite bind_Done by (by apply pfd_at_eq).
    case_decide as Hfree; [|apply IH; [lia|done..]].
    rewrite bind_eq. cbn [store_fd modify]. rewrite bind_eq. cbn [store_events modify].
    match goal with |- context [(timer_at i ≫= ?f) ?s0] =>
      assert (tracked base s0 ∧ length (pfds s0) = MAX_CONNECTIONS) as Hs0;
      [|assert (keeps (tidy base MAX_CONNECTIONS) (timer_at i ≫= f)) as Hk;
        [keeps_with tidy_side|exact (Hk s0 Hs0)]]
    end.
    cbn. rewrite !length_alter. split; [|done].
    intros c' Hc' Hin'. cbn in Hin' |- *. destruct (decide (c' = c)) as [->|Hne].
    { right. exists i, (set_events POLLIN (set_fd c p)).
      by rewrite !list_lookup_alter_eq, Hp. }
    destruct (Ht c' Hc' Hin') as [Hb|(j & q & Hq & Hfd)]; [set_solver|].
    right. exists j, q. split; [|done].
    rewrite !list_lookup_alter_ne; [done|intros ->..];
      rewrite Hp in Hq; injection Hq as <-; lia.
Qed.

Lemma tidy_accept_connection o :
  keeps (tidy base MAX_CONNECTIONS) (accept_connection MAX_CONNECTIONS TIMEOUT o).
Proof.
  intros s [Ht Hl]. unfold accept_connection. rewrite bind_eq. cbn [pfd_at gets].
  rewrite bind_eq. unfold accept.
  assert (∀ e lfd,
    tracked base (final ((perror "Failed to accept connection request";; mret 1)
       (with_errno e (with_trace (λ t, t ++ [SysAccept lfd (-1)]) s))))
    ∧ length (pfds (final ((perror "Failed to accept connection request";; mret 1)
       (with_errno e (with_trace (λ t, t ++ [SysAccept lfd (-1)]) s))))) = MAX_CONNECTIONS)
    as Hfail by (intros; by split).
  destruct o as [c|e].
  - case_decide as Hc; [|rewrite decide_True by lia; apply Hfail].
    rewrite decide_False by lia.
    apply tidy_find_slot.
    + cbn. lia.
    + intros c' Hc' Hin. cbn in Hin. destruct (decide (c' = c)) as [->|]; [set_solver|].
      destruct (Ht c' Hc') as [?|?]; [set_solver|set_solver|by right].
    + done.
  - rewrite decide_True by lia. apply Hfail.
Qed.
#[local] Hint Resolve tidy_accept_connection : keeps.

Lemma tidy_check_timeouts k i : keeps (tidy base MAX_CONNECTIONS) (check_timeouts k i).
Proof.
  revert i. induction k as [|k IH]; intros i; cbn [check_timeouts];
    keeps_with tidy_side.
Qed.
#[local] Hint Resolve tidy_check_timeouts : keeps.

Lemma tidy_serve env i active :
  keeps (tidy base MAX_CONNECTIONS) (serve MAX_CONNECTIONS BUFFER_SIZE TIMEOUT env i active).
Proof. unfold serve. keeps_with tidy_side. Qed.
#[local] Hint Resolve tidy_serve : keeps.

Lemma tidy_process_events env k i active :
  keeps (tidy base MAX_CONNECTIONS) (process_events MAX_CONNECTIONS BUFFER_SIZE TIMEOUT env k i active).
Proof.
  revert i active. induction k as [|k IH]; intros i active; cbn [process_events];
    keeps_with tidy_side.
Qed.
#[local] Hint Resolve tidy_process_events : keeps.

Lemma tidy_pass env n : keeps (tidy base MAX_CONNECTIONS) (pass MAX_CONNECTIONS BUFFER_SIZE TIMEOUT env n).
Proof. unfold pass, before_poll. keeps_with tidy_side. Qed.
#[local] Hint Resolve tidy_pass : keeps.

Lemma tidy_event_loop script n :
  keeps (tidy base MAX_CONNECTIONS)
    (event_loop MAX_CONNECTIONS BUFFER_SIZE TIMEOUT script n).
Proof. induction script as [|env script IH]; cbn [event_loop]; keeps_with tidy_side. Qed.

(** X12.  The event loop loses no descriptor: when every open descriptor
    is either one of [base] (those the process had before the server
    started) or held by a slot of the table, the same is true after any
    run of the loop, whatever the environment does.  So what
    [shutdown_server] closes, the descriptors of the table, is all the
    server has opened. *)
Theorem event_loop_tracks_descriptors (script : list pass_env) (n : nat) (s : state) :
  length (pfds s) = MAX_CONNECTIONS →
  tracked base s →
  tracked base (final (event_loop MAX_CONNECTIONS BUFFER_SIZE TIMEOUT script n s)).
Proof.
  intros Hl Ht. by destruct (tidy_event_loop script n s (conj Ht Hl)).
Qed.
End Tidy.

(** ** The whole run *)

Section Run.
Variables (MAX_CONNECTIONS BUFFER_SIZE : nat) (TIMEOUT : Z).

Lemma steady_timer_gettime t : keeps steady (timer_gettime t).
Proof. keeps_prim steady_side. Qed.

Lemma steady_timer_expired t : keeps steady (timer_expired t).
Proof.
  pose proof steady_timer_gettime. pose proof steady_perror.
  unfold timer_expired. keeps_with steady_side.
Qed.

Lemma steady_check_timeouts k i : keeps steady (check_timeouts k i).
Proof.
  pose proof steady_timer_expired. pose proof steady_close_connection.
  pose proof steady_emit.
  revert i. induction k as [|k IH]; intros i; cbn [check_timeouts];
    unfold pfd_at, timer_at; keeps_with steady_side.
Qed.

Lemma steady_event_loop script n :
  keeps steady (event_loop MAX_CONNECTIONS BUFFER_SIZE TIMEOUT script n).
Proof.
  pose proof steady_check_timeouts. pose proof steady_poll. pose proof steady_perror.
  pose proof (steady_process_events MAX_CONNECTIONS BUFFER_SIZE TIMEOUT).
  induction script as [|env script IH]; cbn [event_loop];
    unfold pass, before_poll; keeps_with steady_side.
Qed.

(** [shutdown_server] in a state the loop can be in. *)
Lemma shutdown_server_releases n s :
  serving MAX_CONNECTIONS s →
  ∃ s', shutdown_server MAX_CONNECTIONS n s = Done 0 s' ∧
    k_open s' ⊆ k_open s ∧
    (∀ p, p ∈ pfds s → fd p ∉ k_open s') ∧
    (∀ t, t ∈ timers s → k_timers s' !! t = None) ∧
    (∀ t, t ∉ timers s → k_timers s' !! t = k_timers s !! t).
Proof.
  intros (Hlive & Hlt & Hlp).
  unfold shutdown_server. rewrite bind_eq, emit_eq.
  set (s0 := with_trace _ s).
  destruct (close_all_live MAX_CONNECTIONS 0 s0)
    as (s1 & E1 & Gtm & Glen & Gdom & Gko & Gin & _ & Gother);
    [done|subst s0; cbn; congruence|subst s0; cbn; lia|].
  subst s0. cbn [with_trace pfds timers k_timers k_open trace] in *.
  erewrite bind_Done by exact E1. rewrite bind_eq, emit_eq.
  set (s2 := with_trace _ s1).
  destruct (destroy_timers_from_live MAX_CONNECTIONS 0 s2)
    as (s3 & E3 & Ht3 & Hp3 & Ho3 & _ & Hin3 & Hout3).
  { subst s2. cbn. rewrite drop_0, Gtm, take_ge by lia. apply Hlive. }
  { subst s2. cbn. rewrite drop_0, Gtm, take_ge by lia.
    intros t Ht. apply elem_of_dom. rewrite Gdom. apply elem_of_dom.
    destruct Hlive as [_ Hall]. rewrite Forall_forall in Hall. by apply Hall. }
  { subst s2. cbn. rewrite Gtm. lia. }
  unfold destroy_timers. erewrite bind_Done by exact E3.
  rewrite bind_eq, emit_eq. eexists. split; [done|].
  subst s2.
  cbn [with_trace pfds timers k_timers k_open trace] in *.
  rewrite drop_0, Gtm, take_ge in Hin3, Hout3 by lia.
  split_and!.
  - by rewrite Ho3.
  - intros p [j Hj]%list_elem_of_lookup. rewrite Ho3.
    apply (Gin j p Hj). apply lookup_lt_Some in Hj. lia.
  - intros t Ht. by rewrite Hin3.
  - intros t Ht. rewrite Hout3 by done. by apply Gother.
Qed.

(** X20.  Whenever [main] returns, with whatever status and after
    whatever the environment has done, the process holds no timer, and no
    descriptor that it did not have when it began: what start-up, the
    event loop and the shutdown have created and opened has been deleted
    and closed. *)
Theorem main_releases_everything (ienv : init_env) (script : list pass_env)
    (s s' : state) (status : Z) :
  (1 ≤ MAX_CONNECTIONS)%nat →
  length (timers s) = MAX_CONNECTIONS → length (pfds s) = MAX_CONNECTIONS →
  k_timers s = ∅ → socket_ret ienv ∉ k_open s →
  main MAX_CONNECTIONS BUFFER_SIZE TIMEOUT ienv script s = Done (Some status) s' →
  k_timers s' = ∅ ∧ ∀ c, 0 ≤ c → c ∈ k_open s' → c ∈ k_open s.
Proof.
  intros HN Hlt Hlp Hkt Hsock E. unfold main in E.
  destruct (initialise_server_spec ienv MAX_CONNECTIONS s Hlt Hlp)
    as (r & s1 & E1 & Hlt1 & Hlp1 & _ & _ & Hr).
  erewrite bind_Done in E by exact E1.
  destruct Hr as [(-> & _ & Hlive & Hko & Hpf & Hnew & Hold)
                 |(-> & _ & Hkt1 & Hko1)].
  2:{ rewrite decide_True in E by done. injection E as <- <-.
      split; [congruence|]. intros c _. by rewrite Hko1. }
  rewrite decide_False in E by (intros H; by apply H).
  rewrite bind_eq in E.
  pose proof (steady_event_loop script MAX_CONNECTIONS s1) as Hst.
  assert (tracked (k_open s) s1) as Htr1.
  { intros c Hc Hin. rewrite Hko in Hin. apply elem_of_union in Hin as [Hin|Hin]; [|by left].
    apply elem_of_singleton in Hin as ->. right.
    destruct (lookup_lt_is_Some_2 (pfds s) 0) as [p0 Hp0]; [lia|].
    exists 0%nat, (set_events POLLIN (set_fd (socket_ret ienv) p0)).
    rewrite Hpf, decide_True, Hp0 by done. done. }
  pose proof (tidy_event_loop MAX_CONNECTIONS BUFFER_SIZE TIMEOUT (k_open s)
                script MAX_CONNECTIONS s1 (conj Htr1 Hlp1)) as [Htr2 Hlp2].
  destruct (event_loop _ _ _ script _ s1) as [[v|] s2| |]; [|done..].
  cbn [final] in *.
  assert (serving MAX_CONNECTIONS s2) as Hs2.
  { by apply (serving_steady _ s1). }
  destruct (shutdown_server_releases MAX_CONNECTIONS s2 Hs2)
    as (s3 & E3 & Hsub & Hclosed & Hgone & Hrest).
  erewrite bind_Done in E by exact E3. injection E as <- <-.
  destruct Hst as (Et & Ed & _). split.
  - apply map_empty. intros t.
    destruct (decide (t ∈ timers s2)) as [Hin|Hout]; [by apply Hgone|].
    rewrite Hrest by done. apply not_elem_of_dom. rewrite Ed.
    apply not_elem_of_dom. rewrite Hold by (by rewrite <-Et).
    by rewrite Hkt.
  - intros c Hc Hin. destruct (Htr2 c Hc) as [?|(i & p & Hp & Hfd)];
      [by apply Hsub|done|].
    exfalso. apply (Hclosed p); [by eapply list_elem_of_lookup_2|by rewrite Hfd].
Qed.
End Run.

(** * The client *)

Lemma client_bind_eq {A B} (m : Client.M A) (f : A → Client.M B) s :
  (m ≫= f) s =
  match m s with
  | Client.Done a s' => f a s'
  | Client.Faulted s' => Client.Faulted s'
  end.
Proof. reflexivity. Qed.

Lemma client_bind_Done {A B} (m : Client.M A) (f : A → Client.M B) s a s' :
  m s = Client.Done a s' → (m ≫= f) s = f a s'.
Proof. intros H. rewrite client_bind_eq, H. reflexivity. Qed.

(** ** Writing to the connection *)

(** What one call of [send] does. *)
Lemma send_spec o cfd data st :
  ∃ ret st', Client.send o cfd data st = Client.Done ret st' ∧
    Client.k_open st' = Client.k_open st ∧
    Client.interrupt_triggered st' = Client.interrupt_triggered st ∧
    Client.stdin_error st' = Client.stdin_error st ∧
    ((ret = -1 ∧ Client.k_wire st' = Client.k_wire st ∧
      match o with
      | Client.Sent _ => (cfd ∉ Client.k_open st) ∧ Client.errno st' = EBADF
      | Client.SendFailed e => Client.errno st' = e
      end) ∨
     (∃ j k, ret = Z.of_nat j ∧ o = Client.Sent k ∧ j = (k `min` length data)%nat ∧
            cfd ∈ Client.k_open st ∧
            Client.k_wire st' = Client.k_wire st ++ take j data)).
Proof.
  destruct o as [k|e]; cbn [Client.send].
  - case_decide as Hin.
    + eexists _, _. split; [done|]. cbn. split_and!; [done..|]. right.
      exists (k `min` length data)%nat, k. rewrite length_take.
      split_and!; [done..|]. f_equal.
      destruct (Nat.min_spec k (length data)) as [[? ->]|[? ->]]; [done|].
      by rewrite !take_ge by lia.
    + eexists _, _. split; [done|]. cbn. split_and!; [done..|]. by left.
  - eexists _, _. split; [done|]. cbn. split_and!; [done..|]. by left.
Qed.

Section WriteSocket.
Variables (s : Z) (buf : list byte) (n : nat).
Hypothesis Hn : (n ≤ length buf)%nat.

(** The loop from [sent] bytes on: when it ends at [r] it has put the
    bytes from [sent] up to some [k] on the wire, all of them for 0. *)
Lemma write_socket_from_spec script : ∀ sent st r st',
  (sent ≤ n)%nat →
  Client.write_socket_from script s buf n sent st = Client.Done r st' →
  Client.k_open st' = Client.k_open st ∧
  Client.interrupt_triggered st' = Client.interrupt_triggered st ∧
  Client.stdin_error st' = Client.stdin_error st ∧
  ∃ k, (sent ≤ k ∧ k ≤ n)%nat ∧
    Client.k_wire st' = Client.k_wire st ++ take (k - sent) (drop sent buf) ∧
    match r with
    | None => True
    | Some v =>
        (v = 0 ∧ k = n) ∨
        (v = 1 ∧ Client.errno st' ≠ EINTR ∧ ((sent < n)%nat → (k < n)%nat) ∧
         ∃ tr, Client.trace st' = tr ++
           [Client.Eprintf
              (if decide (Client.errno st' = Client.ECONNRESET ∨
                          Client.errno st' = Client.EPIPE)
               then "Server disconnect" else "Failed to write to socket")])
    end.
Proof.
  induction script as [|o script IH]; intros sent st r st' Hsent E.
  { injection E as <- <-. split_and!; [done..|]. exists sent.
    rewrite Nat.sub_diag, take_0, app_nil_r. by split_and!. }
  cbn [Client.write_socket_from] in E.
  destruct (send_spec o s (take (n - sent) (drop sent buf)) st)
    as (ret & st1 & Es & Ho & Hi & He & Hcase).
  rewrite (client_bind_Done _ _ _ _ _ Es) in E.
  assert (length (take (n - sent) (drop sent buf)) = n - sent)%nat as Hlen.
  { rewrite length_take, length_drop. lia. }
  destruct Hcase as [(-> & Hw & Herr)|(j0 & k0 & -> & -> & -> & Hin & Hw)].
  - rewrite decide_True in E by lia. rewrite client_bind_eq in E.
    cbn [Client.gets] in E. case_decide as Hintr.
    + case_decide as Hlt.
      * destruct (IH _ _ _ _ Hsent E) as (Ho' & Hi' & He' & k & Hk & Hw' & Hr).
        split_and!; [congruence..|]. exists k. split_and!; [lia..| |done].
        by rewrite Hw', Hw.
      * injection E as <- <-. split_and!; [done..|]. exists sent.
        rewrite Nat.sub_diag, take_0, app_nil_r. split_and!; [lia..|done|].
        left. split; [done|]. lia.
    + rewrite client_bind_eq in E.
      case_decide as Hmsg; cbn in E; injection E as <- <-; cbn;
        (split_and!; [done..|]); exists sent;
        rewrite Nat.sub_diag, take_0, app_nil_r; (split_and!; [lia..|done|]);
        right; (split_and!; [done..|]).
      * rewrite decide_True by done. by eexists.
      * rewrite decide_False by done. by eexists.
  - rewrite decide_False in E by lia. rewrite Nat2Z.id in E. cbn zeta in E.
    rewrite Hlen in Hw, E.
    assert (take (k0 `min` (n - sent)) (take (n - sent) (drop sent buf))
            = take (k0 `min` (n - sent)) (drop sent buf)) as Htk.
    { rewrite take_take. f_equal. lia. }
    rewrite Htk in Hw. clear Htk.
    set (j := (k0 `min` (n - sent))%nat) in *.
    assert (j ≤ n - sent)%nat as Hj by (subst j; lia).
    assert (Client.k_wire st ++ take (sent + j - sent) (drop sent buf)
            = Client.k_wire st1) as Hw1.
    { rewrite Hw. do 2 f_equal. lia. }
    case_decide as Hlt.
    + destruct (IH (sent + j)%nat _ _ _ ltac:(lia) E)
        as (Ho' & Hi' & He' & k & Hk & Hw' & Hr).
      split_and!; [congruence..|]. exists k. split_and!; [lia..| |].
      * rewrite Hw', Hw, <-app_assoc. f_equal.
        replace (k - sent)%nat with (j + (k - (sent + j)))%nat by lia.
        by rewrite <-take_take_drop, drop_drop.
      * destruct r as [v|]; [|done].
        destruct Hr as [?|(? & ? & Hkn & ?)]; [by left|right].
        split_and!; [done..|intros; apply Hkn; lia|done].
    + injection E as <- <-. split_and!; [done..|]. exists (sent + j)%nat.
      split_and!; [lia..|by rewrite <-Hw1|]. left. split; [done|]. lia.
Qed.
End WriteSocket.

(** X13.  When [write_socket] returns 0, the [n] bytes of the buffer
    are on the wire, all of them, in order and once, however the kernel
    has cut them up and however often [send] was interrupted.  When it
    returns 1, a call of [send] has failed with an error other than
    EINTR, the failure is reported, and a proper part of the bytes, from
    the start of the buffer, is on the wire. *)
Theorem write_socket_delivers (script : list Client.send_outcome) (s : Z)
    (buf : list byte) (n : nat) (st st' : Client.state) (r : Z) :
  (n ≤ length buf)%nat →
  Client.write_socket script s buf n st = Client.Done (Some r) st' →
  (r = 0 ∧ Client.k_wire st' = Client.k_wire st ++ take n buf) ∨
  (r = 1 ∧ Client.errno st' ≠ EINTR ∧
   ∃ k tr, (k ≤ n)%nat ∧ ((0 < n)%nat → (k < n)%nat) ∧
     Client.k_wire st' = Client.k_wire st ++ take k buf ∧
     Client.trace st' = tr ++
       [Client.Eprintf
          (if decide (Client.errno st' = Client.ECONNRESET ∨
                      Client.errno st' = Client.EPIPE)
           then "Server disconnect" else "Failed to write to socket")]).
Proof.
  intros Hn E.
  destruct (write_socket_from_spec s buf n Hn script 0 st (Some r) st')
    as (_ & _ & _ & k & Hk & Hw & Hr); [lia|done|].
  rewrite Nat.sub_0_r, drop_0 in Hw.
  destruct Hr as [[-> ->]|(-> & He & Hlt & tr & Htr)]; [by left|right].
  split_and!; [done..|]. exists k, tr. split_and!; [lia|done..].
Qed.

Lemma write_socket_from_progress (s : Z) (buf : list byte) (n : nat) script :
  ∀ sent st,
  (n ≤ length buf)%nat → (sent ≤ n)%nat →
  s ∈ Client.k_open st → Forall Client.takes_some script →
  (n - sent ≤ length script ∧ 1 ≤ length script)%nat →
  ∃ st', Client.write_socket_from script s buf n sent st = Client.Done (Some 0) st'.
Proof.
  induction script as [|o script IH]; intros sent st Hn Hsent Hopen Hall Hlen;
    [cbn in Hlen; lia|].
  apply Forall_cons in Hall as [Ho Hall].
  destruct o as [k0|e]; [|done]. cbn in Ho.
  cbn [Client.write_socket_from].
  destruct (send_spec (Client.Sent k0) s (take (n - sent) (drop sent buf)) st)
    as (ret & st1 & Es & Hop & _ & _ & Hcase).
  rewrite (client_bind_Done _ _ _ _ _ Es).
  destruct Hcase as [(_ & _ & ? & _)|(j & k & -> & [= <-] & -> & _ & _)]; [done|].
  rewrite decide_False by lia. rewrite Nat2Z.id. cbn zeta.
  rewrite length_take, length_drop.
  case_decide as Hlt; [|by eexists].
  apply IH; [done|lia|by rewrite Hop|done|]. cbn in Hlen. lia.
Qed.

(** X14.  [write_socket] gets through: when the descriptor is open and
    the kernel takes at least one byte in every call of [send], at most
    [n] calls (one call for [n = 0]) put the [n] bytes on the wire, and
    the function returns 0. *)
Theorem write_socket_progress (script : list Client.send_outcome) (s : Z)
    (buf : list byte) (n : nat) (st : Client.state) :
  (n ≤ length buf)%nat → s ∈ Client.k_open st →
  Forall Client.takes_some script →
  (n ≤ length script)%nat → (1 ≤ length script)%nat →
  ∃ st', Client.write_socket script s buf n st = Client.Done (Some 0) st' ∧
    Client.k_wire st' = Client.k_wire st ++ take n buf ∧
    Client.k_open st' = Client.k_open st.
Proof.
  intros Hn Hopen Hall Hlen H1.
  destruct (write_socket_from_progress s buf n script 0 st) as [st' E];
    [done|lia|done|done|lia|].
  exists st'. split; [done|].
  destruct (write_socket_from_spec s buf n Hn script 0 st (Some 0) st')
    as (Ho & _ & _ & k & Hk & Hw & Hr); [lia|done|].
  rewrite Nat.sub_0_r, drop_0 in Hw.
  destruct Hr as [[_ ->]|(? & _)]; [done|lia].
Qed.

(** ** The line that is sent *)

Lemma strcspn_line_of (buffer : list byte) :
  Client.strcspn buffer [x0a] = length (Client.line_of buffer).
Proof.
  induction buffer as [|b buffer IH]; [done|]. cbn.
  destruct (decide (b = x00 ∨ b = x0a)) as [H|H].
  - rewrite decide_True; [done|]. destruct H; [by left|right; set_solver].
  - rewrite decide_False; [by rewrite IH|].
    intros [?|?]; apply H; [by left|right; set_solver].
Qed.

Lemma line_of_terminated (l junk : list byte) :
  Client.line_of (l ++ x00 :: junk) = Client.line_of l.
Proof.
  induction l as [|b l IH]; cbn.
  - by rewrite decide_True by (by left).
  - case_decide; [done|]. by rewrite IH.
Qed.

Lemma line_of_fgets_take (room : nat) (raw : list byte) :
  Client.line_of (Client.fgets_take room raw) = Client.line_of (take room raw).
Proof.
  revert raw. induction room as [|room IH]; intros [|b raw]; try done.
  cbn [Client.fgets_take take]. destruct (Byte.eqb b x0a) eqn:Eb.
  - apply byte_dec_bl in Eb as ->. cbn. by rewrite !decide_True by (by right).
  - cbn. case_decide; [done|]. by rewrite IH.
Qed.

Lemma line_of_length (l : list byte) : (length (Client.line_of l) ≤ length l)%nat.
Proof.
  induction l as [|b l IH]; cbn; [done|]. case_decide; cbn; lia.
Qed.

Lemma fgets_take_length (room : nat) (raw : list byte) :
  (length (Client.fgets_take room raw) ≤ room)%nat.
Proof.
  revert raw. induction room as [|room IH]; intros [|b raw]; cbn; try lia.
  destruct (Byte.eqb b x0a); cbn; [lia|]. specialize (IH raw). lia.
Qed.

(** Cutting a string at the first newline. *)
Lemma strlen_cut (buffer : list byte) :
  (length (Client.line_of buffer) < length buffer)%nat →
  Client.strlen (<[length (Client.line_of buffer) := x00]> buffer)
    = length (Client.line_of buffer) ∧
  take (length (Client.line_of buffer))
       (<[length (Client.line_of buffer) := x00]> buffer)
    = Client.line_of buffer.
Proof.
  induction buffer as [|b buffer IH]; cbn [Client.line_of]; [cbn; lia|].
  case_decide as Hb; cbn [length]; intros Hlt.
  - done.
  - change (<[S (length (Client.line_of buffer)) := x00]> (b :: buffer))
      with (b :: <[length (Client.line_of buffer) := x00]> buffer).
    cbn [Client.strlen take].
    destruct (Byte.eqb b x00) eqn:Eb.
    { apply byte_dec_bl in Eb. exfalso. apply Hb. by left. }
    destruct IH as [-> ->]; [cbn in Hlt; lia|done].
Qed.

(** ** The loop of the client *)

Section ClientLoop.
Variable BUFFER_SIZE : nat.

(** A turn up to the return of [fgets]. *)
Lemma main_loop_until_fgets env rest s st :
  Client.interrupt_triggered st = 0 →
  Client.main_loop BUFFER_SIZE (env :: rest) s st =
  ('(ok, buffer) ← Client.fgets (Client.fgets_result env)
                     (resize BUFFER_SIZE x00 (Client.stack_bytes env)) BUFFER_SIZE;
   if negb ok then
     err ← Client.ferror_stdin;
     if (err : bool) then
       e ← Client.gets Client.errno;
       if decide (e = EINTR) then Client.main_loop BUFFER_SIZE rest s else
       Client.perror "Failed to read input";;
       mret (Some EXIT_FAILURE)
     else
       Client.clearerr_stdin;;
       Client.main_loop BUFFER_SIZE rest s
   else
   buffer ← Client.buffer_store buffer (Client.strcspn buffer [x0a]) x00;
   if decide (Client.strlen buffer = 0%nat) then Client.main_loop BUFFER_SIZE rest s else
   Client.deliver_sigint (Client.sigint_in_send env);;
   r ← Client.write_socket (Client.send_results env) s buffer (Client.strlen buffer);
   match r with
   | None => mret None
   | Some r =>
       if decide (r ≠ 0) then mret (Some EXIT_FAILURE)
       else Client.main_loop BUFFER_SIZE rest s
   end)
    (Client.final_sigint (Client.sigint_in_fgets env)
       (Client.with_trace (λ t, t ++ [Client.Eprintf "> "]) st)).
Proof.
  intros Hit. cbn [Client.main_loop]. rewrite client_bind_eq. cbn [Client.gets].
  rewrite decide_False by (intros H; by apply H).
  rewrite client_bind_eq. cbn [Client.emit Client.modify].
  rewrite client_bind_eq. unfold Client.final_sigint.
  by destruct (Client.sigint_in_fgets env).
Qed.

(** X15.  A line read from the standard input goes to the server
    without its newline: of the bytes waiting, those before the first
    newline or NUL among the first BUFFER_SIZE - 1 are put on the wire,
    and nothing of what the buffer held before; for an empty line nothing
    is sent.  The turn then goes on to the next one.  (The kernel is
    taken to accept at least one byte in every call of [send].) *)
Theorem client_sends_line_without_newline (env : Client.turn_env)
    (rest : list Client.turn_env) (s : Z) (st : Client.state) (raw : list byte) :
  (1 ≤ BUFFER_SIZE)%nat →
  Client.interrupt_triggered st = 0 → s ∈ Client.k_open st →
  Client.fgets_result env = Client.Line raw → raw ≠ [] →
  Forall Client.takes_some (Client.send_results env) →
  (length (Client.line_of (take (BUFFER_SIZE - 1) raw))
     ≤ length (Client.send_results env))%nat →
  ∃ st',
    Client.main_loop BUFFER_SIZE (env :: rest) s st
      = Client.main_loop BUFFER_SIZE rest s st' ∧
    Client.k_wire st' =
      Client.k_wire st ++ Client.line_of (take (BUFFER_SIZE - 1) raw) ∧
    Client.k_open st' = Client.k_open st ∧
    Client.stdin_error st' = Client.stdin_error st.
Proof.
  intros HB Hit Hopen Hline Hraw Hall Hlen.
  rewrite main_loop_until_fgets by done.
  set (st1 := Client.final_sigint _ _).
  assert (Client.k_wire st1 = Client.k_wire st ∧ Client.k_open st1 = Client.k_open st ∧
          Client.stdin_error st1 = Client.stdin_error st) as (Hw1 & Ho1 & He1).
  { subst st1. unfold Client.final_sigint. by destruct (Client.sigint_in_fgets env). }
  rewrite Hline, client_bind_eq. cbn [Client.fgets].
  rewrite decide_False by (intros [?|?]; [done|lia]).
  cbn [negb].
  set (l := Client.fgets_take (BUFFER_SIZE - 1) raw).
  set (buffer := l ++ x00 :: drop (S (length l)) (resize BUFFER_SIZE x00 (Client.stack_bytes env))).
  assert (Client.line_of buffer = Client.line_of (take (BUFFER_SIZE - 1) raw)) as Hlo.
  { subst buffer l. by rewrite line_of_terminated, line_of_fgets_take. }
  assert (length (Client.line_of buffer) < length buffer)%nat as Hin.
  { subst buffer. rewrite line_of_terminated, length_app. cbn.
    pose proof (line_of_length l). lia. }
  rewrite client_bind_eq. unfold Client.buffer_store.
  rewrite strcspn_line_of, decide_True by done. cbn [mret Client.M_ret].
  destruct (strlen_cut buffer Hin) as [Hsl Htk].
  set (buffer' := <[length (Client.line_of buffer) := x00]> buffer) in *.
  rewrite Hsl. case_decide as Hz.
  { exists st1. split; [done|]. rewrite <-Hlo.
    apply nil_length_inv in Hz. rewrite Hz, app_nil_r. done. }
  rewrite client_bind_eq.
  set (st2 := Client.final_sigint (Client.sigint_in_send env) st1).
  assert (Client.deliver_sigint (Client.sigint_in_send env) st1 = Client.Done tt st2) as ->.
  { subst st2. unfold Client.final_sigint. by destruct (Client.sigint_in_send env). }
  assert (Client.k_wire st2 = Client.k_wire st ∧ Client.k_open st2 = Client.k_open st ∧
          Client.stdin_error st2 = Client.stdin_error st) as (Hw2 & Ho2 & He2).
  { subst st2. unfold Client.final_sigint. by destruct (Client.sigint_in_send env). }
  assert (length (Client.line_of buffer) ≤ length buffer')%nat as Hn.
  { subst buffer'. rewrite length_insert. lia. }
  destruct (write_socket_from_progress s buffer' (length (Client.line_of buffer))
              (Client.send_results env) 0 st2) as [st3 E];
    [done|lia|by rewrite Ho2|done|rewrite Hlo in *; lia|].
  destruct (write_socket_from_spec s buffer' _ Hn (Client.send_results env)
              0 st2 (Some 0) st3)
    as (Ho3 & _ & He3 & k & Hk & Hw3 & Hr); [lia|done|].
  rewrite Nat.sub_0_r, drop_0 in Hw3.
  destruct Hr as [[_ ->]|(? & _)]; [|done].
  rewrite client_bind_eq. unfold Client.write_socket. rewrite E.
  rewrite decide_False by (intros H; by apply H).
  exists st3. split; [done|]. rewrite Hw3, Htk, Hlo, Hw2, Ho3, He3. done.
Qed.

(** X16.  The end of the input does not end the client: at every turn
    in which [fgets] finds the input at its end the client clears the
    indicators and asks again, so that it prompts for ever, sending
    nothing and keeping the connection open, until a signal arrives. *)
Theorem client_spins_at_end_of_input (script : list Client.turn_env) (s : Z)
    (st : Client.state) :
  Forall (λ env, Client.fgets_result env = Client.Eof ∧
                 Client.sigint_in_fgets env = false) script →
  Client.interrupt_triggered st = 0 → Client.stdin_error st = false →
  ∃ st',
    Client.main_loop BUFFER_SIZE script s st = Client.Done None st' ∧
    Client.trace st' =
      Client.trace st ++ replicate (length script) (Client.Eprintf "> ") ∧
    Client.k_wire st' = Client.k_wire st ∧ Client.k_open st' = Client.k_open st.
Proof.
  revert st. induction script as [|env script IH]; intros st Hall Hit Herr.
  { exists st. cbn. by rewrite app_nil_r. }
  apply Forall_cons in Hall as [[Heof Hsig] Hall].
  rewrite main_loop_until_fgets by done. rewrite Heof, Hsig.
  rewrite client_bind_eq. cbn [Client.fgets Client.final_sigint negb].
  rewrite client_bind_eq. cbn [Client.ferror_stdin Client.gets Client.stdin_error
    Client.with_trace]. rewrite Herr.
  rewrite client_bind_eq. cbn [Client.clearerr_stdin Client.modify].
  match goal with |- context [Client.main_loop _ _ _ ?st1] =>
    destruct (IH st1) as (st' & E & Htr & Hw & Ho); [done..|]
  end.
  exists st'. split; [done|]. cbn in Htr, Hw, Ho.
  rewrite Htr, <-app_assoc. done.
Qed.

(** X17.  SIGINT while the client waits for input: the read fails with
    EINTR, the turn is abandoned, and the next turn finds the flag set
    and leaves the loop with EXIT_SUCCESS, without another prompt. *)
Theorem client_interrupt_ends_loop (env env' : Client.turn_env)
    (rest : list Client.turn_env) (s : Z) (st : Client.state) :
  Client.interrupt_triggered st = 0 →
  Client.sigint_in_fgets env = true →
  Client.fgets_result env = Client.ReadError EINTR →
  ∃ st',
    Client.main_loop BUFFER_SIZE (env :: env' :: rest) s st
      = Client.Done (Some EXIT_SUCCESS) st' ∧
    Client.interrupt_triggered st' = 1 ∧
    Client.trace st' = Client.trace st ++ [Client.Eprintf "> "] ∧
    Client.k_wire st' = Client.k_wire st ∧ Client.k_open st' = Client.k_open st.
Proof.
  intros Hit Hsig Hread.
  rewrite main_loop_until_fgets by done. rewrite Hread, Hsig.
  rewrite client_bind_eq. cbn [Client.fgets Client.final_sigint negb].
  rewrite client_bind_eq. cbn [Client.ferror_stdin Client.gets Client.stdin_error
    Client.with_errno Client.with_stdin_error].
  rewrite client_bind_eq. cbn [Client.gets Client.errno Client.with_errno].
  rewrite decide_True by done.
  cbn [Client.main_loop]. rewrite client_bind_eq.
  cbn [Client.gets Client.interrupt_triggered Client.with_errno Client.with_stdin_error
       Client.with_interrupt_triggered].
  rewrite decide_True by done. by eexists.
Qed.
End ClientLoop.

(** ** How the client ends *)

Lemma keeps_open_bind {A B} (m : Client.M A) (f : A → Client.M B) :
  Client.keeps_open m → (∀ a, Client.keeps_open (f a)) → Client.keeps_open (m ≫= f).
Proof.
  intros Hm Hf s. rewrite client_bind_eq. specialize (Hm s).
  destruct (m s) as [a s1|s1]; cbn [Client.final] in *; [|done].
  by rewrite Hf.
Qed.

Lemma keeps_open_ret {A} (a : A) : Client.keeps_open (mret a).
Proof. by intros s. Qed.
Lemma keeps_open_gets {A} (f : Client.state → A) : Client.keeps_open (Client.gets f).
Proof. by intros s. Qed.
Lemma keeps_open_emit e : Client.keeps_open (Client.emit e).
Proof. by intros s. Qed.
Lemma keeps_open_send o c data : Client.keeps_open (Client.send o c data).
Proof. intros s. unfold Client.send. by repeat case_match. Qed.
Lemma keeps_open_fgets o b n : Client.keeps_open (Client.fgets o b n).
Proof. intros s. unfold Client.fgets. by repeat case_match. Qed.
Lemma keeps_open_buffer_store b i x : Client.keeps_open (Client.buffer_store b i x).
Proof. intros s. unfold Client.buffer_store. by case_decide. Qed.
Lemma keeps_open_deliver_sigint b : Client.keeps_open (Client.deliver_sigint b).
Proof. intros s. by destruct b. Qed.

Ltac keeps_open_tac :=
  repeat first
    [ assumption
    | apply keeps_open_ret | apply keeps_open_gets | apply keeps_open_emit
    | apply keeps_open_send | apply keeps_open_fgets | apply keeps_open_buffer_store
    | apply keeps_open_deliver_sigint
    | (apply keeps_open_bind; [|intros ?])
    | match goal with
      | |- Client.keeps_open (if decide _ then _ else _) => case_decide
      | |- Client.keeps_open (if ?b then _ else _) => destruct b
      | |- Client.keeps_open (match ?x with _ => _ end) => destruct x
      | |- Client.keeps_open (let '(_, _) := ?x in _) => destruct x
      end ].

Lemma keeps_open_write_socket_from script s buf n : ∀ sent,
  Client.keeps_open (Client.write_socket_from script s buf n sent).
Proof.
  induction script as [|o script IH]; intros sent; cbn [Client.write_socket_from];
    keeps_open_tac; apply IH.
Qed.

Lemma client_returns_bind {A B} (Q : B → Client.state → Prop)
    (m : Client.M A) (f : A → Client.M B) :
  (∀ a, Client.on_done Q (f a)) → Client.on_done Q (m ≫= f).
Proof.
  intros Hf s b s' E. rewrite client_bind_eq in E.
  destruct (m s) as [a s1|]; [|done]. by eapply Hf.
Qed.

Section ClientEnd.
Variable BUFFER_SIZE : nat.

Lemma keeps_open_main_loop script s :
  Client.keeps_open (Client.main_loop BUFFER_SIZE script s).
Proof.
  induction script as [|env script IH]; cbn [Client.main_loop];
    unfold Client.ferror_stdin, Client.perror, Client.write_socket;
    keeps_open_tac; try apply keeps_open_write_socket_from; by intros ?.
Qed.

Lemma main_loop_end script s :
  Client.on_done Client.loop_end (Client.main_loop BUFFER_SIZE script s).
Proof.
  induction script as [|env script IH]; cbn [Client.main_loop].
  { by intros st r st' [= <- <-]. }
  intros st r st' E. rewrite client_bind_eq in E. cbn [Client.gets] in E.
  case_decide as Hit; [injection E as <- <-; by left|].
  revert E. generalize st r st'. change (Client.on_done Client.loop_end ?m) with
    (∀ s0 a s', m s0 = Client.Done a s' → Client.loop_end a s').
  assert (Client.on_done Client.loop_end (mret (Some EXIT_FAILURE))) as Hfail.
  { intros ? ? ? [= <- <-]. by right. }
  assert (Client.on_done Client.loop_end (mret None)) as Hnone.
  { by intros ? ? ? [= <- <-]. }
  repeat first
    [ assumption
    | (apply client_returns_bind; intros ?)
    | match goal with
      | |- Client.on_done _ (if decide _ then _ else _) => case_decide
      | |- Client.on_done _ (if ?b then _ else _) => destruct b
      | |- Client.on_done _ (match ?x with _ => _ end) => destruct x
      | |- Client.on_done _ (let '(_, _) := ?x in _) => destruct x
      end ].
Qed.

(** X18.  When the client, once connected, comes to its end, it has
    closed the connection: [main] returns only after reporting and
    making the [close], the descriptor is no longer open, and the status
    is EXIT_SUCCESS only if the interrupt flag is set, EXIT_FAILURE
    otherwise. *)
Theorem client_exit_closes_connection (cenv : Client.conn_env)
    (script : list Client.turn_env) (st st' : Client.state) (status : Z) :
  Client.sigemptyset_ret cenv = 0 → Client.sigaction_ret cenv = 0 →
  0 ≤ Client.socket_ret cenv →
  Client.inet_pton_ret cenv = 1 → Client.connect_ret cenv = 0 →
  Client.main BUFFER_SIZE cenv script st = Client.Done (Some status) st' →
  Client.k_open st' = Client.k_open st ∖ {[Client.socket_ret cenv]} ∧
  (∃ tr, Client.trace st' = tr ++
     [Client.Eprintf "Closing connection"; Client.SysClose (Client.socket_ret cenv)]) ∧
  ((status = EXIT_SUCCESS ∧ Client.interrupt_triggered st' ≠ 0) ∨
   status = EXIT_FAILURE).
Proof.
  intros Hse Hsa Hs Hip Hco E. unfold Client.main in E.
  rewrite client_bind_eq in E. cbn [Client.emit Client.modify] in E.
  rewrite client_bind_eq in E. unfold Client.initialise_signal_handler in E.
  rewrite Hse, Hsa in E. rewrite !decide_False in E by (intros H; by apply H).
  cbn [mret Client.M_ret] in E. rewrite decide_False in E by (intros H; by apply H).
  rewrite client_bind_eq in E. cbn [Client.emit Client.modify] in E.
  rewrite client_bind_eq in E. unfold Client.initialise_connection in E.
  rewrite decide_False in E by lia. rewrite client_bind_eq in E.
  cbn [Client.modify] in E. rewrite Hip, Hco in E.
  rewrite !decide_False in E by (intros H; by apply H).
  cbn [mret Client.M_ret] in E. rewrite decide_False in E by lia.
  rewrite client_bind_eq in E. cbn [Client.emit Client.modify] in E.
  rewrite client_bind_eq in E.
  match type of E with context [Client.main_loop _ _ _ ?st1] =>
    pose proof (keeps_open_main_loop script (Client.socket_ret cenv) st1) as Hopen;
    pose proof (main_loop_end script (Client.socket_ret cenv) st1) as Hend;
    destruct (Client.main_loop BUFFER_SIZE script (Client.socket_ret cenv) st1)
      as [[v|] st2|] eqn:El; [|done..]
  end.
  specialize (Hend _ _ eq_refl). cbn in Hopen, Hend.
  rewrite client_bind_eq in E. cbn [Client.emit Client.modify] in E.
  rewrite client_bind_eq in E. unfold Client.close in E.
  cbn [Client.k_open Client.with_trace] in E.
  rewrite decide_True in E by (rewrite Hopen; set_solver).
  injection E as <- <-. cbn. split_and!.
  - rewrite Hopen. set_solver.
  - eexists. by rewrite <-app_assoc.
  - done.
Qed.

(** X19.  When the address cannot be parsed or the server cannot be
    reached, [initialise_connection] reports it and returns -1 without
    closing the socket it has created: [main] returns EXIT_FAILURE with
    the descriptor still open. *)
Theorem client_connect_failure_leaves_socket_open (cenv : Client.conn_env)
    (script : list Client.turn_env) (st : Client.state) :
  Client.sigemptyset_ret cenv = 0 → Client.sigaction_ret cenv = 0 →
  0 ≤ Client.socket_ret cenv →
  Client.inet_pton_ret cenv ≠ 1 ∨ Client.connect_ret cenv ≠ 0 →
  ∃ st',
    Client.main BUFFER_SIZE cenv script st = Client.Done (Some EXIT_FAILURE) st' ∧
    Client.k_open st' = {[Client.socket_ret cenv]} ∪ Client.k_open st ∧
    Client.trace st' = Client.trace st ++
      [Client.Eprintf "Enabling interrupt handler";
       Client.Eprintf "Connecting to server at %s:%u";
       Client.Perror (if decide (Client.inet_pton_ret cenv ≠ 1)
                      then "Failed to parse address"
                      else "Failed to connect with server")].
Proof.
  intros Hse Hsa Hs Hfail. unfold Client.main.
  rewrite client_bind_eq. cbn [Client.emit Client.modify].
  rewrite client_bind_eq. unfold Client.initialise_signal_handler.
  rewrite Hse, Hsa. rewrite !decide_False by (intros H; by apply H).
  cbn [mret Client.M_ret]. rewrite decide_False by (intros H; by apply H).
  rewrite client_bind_eq. cbn [Client.emit Client.modify].
  rewrite client_bind_eq. unfold Client.initialise_connection.
  rewrite decide_False by lia. rewrite client_bind_eq. cbn [Client.modify].
  case_decide as Hip.
  - rewrite client_bind_eq. cbn. rewrite decide_True by lia.
    eexists. split; [done|]. cbn. by rewrite <-!app_assoc.
  - rewrite decide_True by tauto. rewrite client_bind_eq. cbn.
    rewrite decide_True by lia.
    eexists. split; [done|]. cbn. by rewrite <-!app_assoc.
Qed.
End ClientEnd.

(** ** The further theorems at work on the concrete runs *)

(** A pass over [Demo.full] in which both clients have sent data. *)
Lemma event_loop_keeps_serving_witness :
  ∃ r s', event_loop 3 8 30 [Demo.both_ready (λ _, false)] 3 Demo.full = Done r s' ∧
          timers s' = timers Demo.full.
Proof.
  destruct (event_loop_keeps_serving 3 8 30 [Demo.both_ready (λ _, false)] Demo.full)
    as (r & s' & E & _ & Ht & _);
    [lia|split_and!; [by_computation|reflexivity|reflexivity]|].
  by exists r, s'.
Defined.

(** The start-up of [server.c] in [Demo.boot]. *)
Lemma initialise_server_sets_up_witness :
  ∃ s', initialise_server Demo.startup_ok 10 Demo.boot = Done 0 s' ∧
        occupied_clients (pfds s') = 0%nat ∧ k_open s' = {[3]} ∪ k_open Demo.boot.
Proof.
  destruct (initialise_server_sets_up Demo.startup_ok 10 Demo.boot)
    as (s' & p0 & E & _ & _ & _ & _ & _ & Hn & Ho & _);
    [unfold startup_succeeds; cbn; split_and!; (reflexivity || lia || by intros)
    |reflexivity|reflexivity|lia|].
  by exists s'.
Defined.

(** A start-up in which [listen] fails. *)
Lemma initialise_server_failure_releases_witness :
  ∃ s', main 10 8 30 Cases.no_listen [] Demo.boot = Done (Some EXIT_FAILURE) s' ∧
        k_timers s' = k_timers Demo.boot ∧ k_open s' = k_open Demo.boot.
Proof.
  destruct (initialise_server_failure_releases 10 8 30 Cases.no_listen [] Demo.boot)
    as (s' & _ & Hk & Ho & E);
    [unfold startup_succeeds; cbn; intros (_ & _ & _ & _ & _ & _ & _ & _ & _ & _ & H);
     lia
    |reflexivity|reflexivity|].
  exists s'. split_and!; [done..|]. apply Ho. by_computation.
Defined.

(** The peer of slot 1 of [Demo.ready1] has closed the connection. *)
Lemma serve_disconnect_witness :
  ∃ s', serve 3 8 30 Cases.peer_closed 1 1 Demo.ready1 = Done (Next 0) s' ∧
        pfds s' !! 1%nat = Some (Demo.slot (-1) POLLIN) ∧
        k_timers s' !! 1%nat = Some zero_itimerspec.
Proof.
  destruct (serve_disconnect 3 8 30 Cases.peer_closed 1 1 Demo.ready1
              (Demo.slot 4 POLLIN) 1%nat (Demo.armed_for 30) [])
    as (s' & E & Hp & _ & Hk & _);
    [reflexivity|reflexivity|reflexivity|unfold occupied; cbn; lia|by vm_compute
    |lia|lia|reflexivity|reflexivity|].
  exists s'. split; [exact E|]. rewrite Hp, Hk. split; [reflexivity|].
  apply lookup_insert_eq.
Defined.

(** Two bytes from slot 1 of [Demo.ready1], read into a buffer that
    holds old bytes. *)
Lemma serve_prints_what_it_read_witness :
  ∃ s', serve 3 8 30 Cases.two_bytes 1 1 Demo.ready1 = Done (Next 0) s' ∧
        trace s' = trace Demo.ready1 ++
          [Service 1; SysRecv 4 2; PrintfClient 1 ["h"; "i"]%byte].
Proof.
  destruct (serve_prints_what_it_read 3 8 30 Cases.two_bytes 1 1 Demo.ready1
              (Demo.slot 4 POLLIN) 1%nat (Demo.armed_for 30) ["h"; "i"]%byte)
    as (s' & E & _ & _ & _ & _ & _ & _ & Htr);
    [reflexivity|reflexivity|reflexivity|unfold occupied; cbn; lia|by vm_compute
    |lia|lia|reflexivity|by vm_compute|].
  exists s'. split; [exact E|]. rewrite Htr. reflexivity.
Defined.

(** The peer of slot 1 has hung up. *)
Lemma serve_error_event_witness :
  ∃ s', serve 3 8 30 Cases.two_bytes 1 1 Cases.hung_up = Done (Next 0) s' ∧
        trace s' = [Service 1; SysClose 4].
Proof.
  destruct (serve_error_event 3 8 30 Cases.two_bytes 1 1 Cases.hung_up
              (Demo.slot 4 Cases.POLLHUP) 1%nat (Demo.armed_for 30))
    as (s' & E & _ & _ & _ & _ & Htr);
    [reflexivity|reflexivity|reflexivity|unfold occupied; cbn; lia|by vm_compute
    |reflexivity|].
  by exists s'.
Defined.

(** A connection request to the server that has lost its listener. *)
Lemma closed_listener_never_accepts_witness :
  ∃ p' tr,
    pfds (final (event_loop 3 8 30 [Demo.connection 6] 3 Cases.deaf_server)) !! 0%nat
      = Some p' ∧ fd p' < 0 ∧
    trace (final (event_loop 3 8 30 [Demo.connection 6] 3 Cases.deaf_server)) = tr ∧
    (SysAccept (-1) 6 ∉ tr).
Proof.
  destruct (closed_listener_never_accepts 3 8 30 [Demo.connection 6] 3
              Cases.deaf_server (Demo.slot (-1) 0))
    as (p' & tr & Hp & Hfd & Htr & Hno); [reflexivity|cbn; lia|].
  cbn zeta in Hp, Htr. exists p', tr. split_and!; [exact Hp|exact Hfd|exact Htr|].
  apply Hno.
Defined.

(** A connection on descriptor 6 goes into the free slot 1 of
    [Demo.free1]. *)
Lemma accept_connection_takes_first_free_slot_witness :
  ∃ s', accept_connection 3 30 (Accepted 6) Demo.free1 = Done 0 s' ∧
        pfds s' !! 1%nat = Some (Demo.slot 6 0) ∧
        occupied_clients (pfds s') = 2%nat.
Proof.
  destruct (accept_connection_takes_first_free_slot 3 30 6 Demo.free1 1
              (Demo.slot 3 0) (Demo.slot (-1) 0) 1%nat zero_itimerspec)
    as (s' & E & Hp & Hn & _);
    [lia|lia|reflexivity|lia|intros j' Hj'; lia|reflexivity
    |unfold occupied; cbn; lia|reflexivity|reflexivity|].
  exists s'. split; [exact E|]. rewrite Hn, Hp. split; reflexivity.
Defined.

(** [accept] fails with EAGAIN on the request [poll] had reported. *)
Lemma serve_listener_goes_on_witness :
  ∃ s', serve 3 8 30 Demo.read_fails 0 1 Cases.knock = Done (Next 0) s' ∧
        pfds s' = pfds Cases.knock.
Proof.
  destruct (serve_listener_goes_on 3 8 30 Demo.read_fails 1 Cases.knock
              (Demo.slot 3 POLLIN))
    as (s' & E & H); [reflexivity|unfold occupied; cbn; lia|by vm_compute|].
  destruct (H EAGAIN) as (Hp & _); [reflexivity|]. by exists s'.
Defined.

(** The timer array of [Demo.boot] holds no timer of the kernel. *)
Lemma destroy_timers_stops_at_first_failure_witness :
  ∃ s', destroy_timers 10 Demo.boot = Done 1 s' ∧
        trace s' = [Perror "Failed to destroy timer"].
Proof.
  destruct (destroy_timers_stops_at_first_failure 10 0 Demo.boot 7%nat)
    as (s' & E & _ & _ & _ & _ & _ & _ & Htr);
    [lia|apply NoDup_nil_2|intros t' Ht'; by apply elem_of_nil in Ht'
    |reflexivity|by right|].
  by exists s'.
Defined.

(** The read from slot 1 of [Demo.full] fails with ENOMEM. *)
Lemma event_loop_return_cause_witness :
  return_cause 1 (final (event_loop 3 8 30 [Demo.read_fails] 3 Demo.full)).
Proof.
  apply (event_loop_return_cause 3 8 30 [Demo.read_fails] 3 Demo.full).
  vm_compute. reflexivity.
Defined.

(** A connection request to the full table [Demo.full]. *)
Lemma event_loop_tracks_descriptors_witness :
  tracked {[0; 1; 2]} (final (event_loop 3 8 30 [Demo.connection 6] 3 Demo.full)).
Proof.
  apply (event_loop_tracks_descriptors 3 8 30 {[0; 1; 2]} [Demo.connection 6] 3
           Demo.full); [reflexivity|].
  intros c Hc Hin. cbn in Hin. set_unfold in Hin.
  destruct Hin as [[[[[->| ->]| ->]| ->]| ->]| ->].
  - left. set_solver.
  - left. set_solver.
  - left. set_solver.
  - right. by exists 0%nat, (Demo.slot 3 0).
  - right. by exists 1%nat, (Demo.slot 4 0).
  - right. by exists 2%nat, (Demo.slot 5 0).
Defined.

(** Five bytes, of which the kernel takes two, then is interrupted, then
    takes the rest. *)
Lemma write_socket_delivers_witness :
  Client.k_wire
    (Client.final
       (Client.write_socket
          [Client.Sent 2; Client.SendFailed EINTR; Client.Sent 9] 3
          ["h"; "e"; "l"; "l"; "o"; "!"]%byte 5 Cases.connected))
  = ["h"; "e"; "l"; "l"; "o"]%byte.
Proof.
  destruct (write_socket_delivers
              [Client.Sent 2; Client.SendFailed EINTR; Client.Sent 9] 3
              ["h"; "e"; "l"; "l"; "o"; "!"]%byte 5 Cases.connected
              (Client.final
                 (Client.write_socket
                    [Client.Sent 2; Client.SendFailed EINTR; Client.Sent 9] 3
                    ["h"; "e"; "l"; "l"; "o"; "!"]%byte 5 Cases.connected)) 0)
    as [[_ Hw]|[H _]]; [cbn; lia|vm_compute; reflexivity|exact Hw|discriminate H].
Defined.

(** Three bytes in two calls. *)
Lemma write_socket_progress_witness :
  ∃ st', Client.write_socket [Client.Sent 2; Client.Sent 2; Client.Sent 2] 3
           ["a"; "b"; "c"]%byte 3 Cases.connected = Client.Done (Some 0) st' ∧
         Client.k_wire st' = ["a"; "b"; "c"]%byte.
Proof.
  destruct (write_socket_progress [Client.Sent 2; Client.Sent 2; Client.Sent 2] 3
              ["a"; "b"; "c"]%byte 3 Cases.connected)
    as (st' & E & Hw & _);
    [cbn; lia|by_computation|by_computation|cbn; lia|cbn; lia|].
  by exists st'.
Defined.

(** The user types "hi" and a newline. *)
Lemma client_sends_line_without_newline_witness :
  ∃ st', Client.main_loop 8 [Cases.typed ["h"; "i"; x0a]%byte] 3 Cases.connected
           = Client.Done None st' ∧
         Client.k_wire st' = ["h"; "i"]%byte.
Proof.
  destruct (client_sends_line_without_newline 8 (Cases.typed ["h"; "i"; x0a]%byte) []
              3 Cases.connected ["h"; "i"; x0a]%byte)
    as (st' & E & Hw & _);
    [lia|reflexivity|by_computation|reflexivity|discriminate|by_computation
    |vm_compute; lia|].
  exists st'. split; [by rewrite E|]. by rewrite Hw.
Defined.

(** Two turns at the end of the input. *)
Lemma client_spins_at_end_of_input_witness :
  ∃ st', Client.main_loop 8 [Cases.at_eof; Cases.at_eof] 3 Cases.connected
           = Client.Done None st' ∧
         Client.trace st' = [Client.Eprintf "> "; Client.Eprintf "> "].
Proof.
  destruct (client_spins_at_end_of_input 8 [Cases.at_eof; Cases.at_eof] 3
              Cases.connected)
    as (st' & E & Htr & _);
    [repeat constructor|reflexivity|reflexivity|].
  by exists st'.
Defined.

(** SIGINT while the client waits for input. *)
Lemma client_interrupt_ends_loop_witness :
  ∃ st', Client.main_loop 8 [Cases.interrupted; Cases.at_eof] 3 Cases.connected
           = Client.Done (Some EXIT_SUCCESS) st' ∧
         Client.trace st' = [Client.Eprintf "> "].
Proof.
  destruct (client_interrupt_ends_loop 8 Cases.interrupted Cases.at_eof [] 3 Cases.connected)
    as (st' & E & _ & Htr & _); [reflexivity|reflexivity|reflexivity|].
  by exists st'.
Defined.

(** A line, then SIGINT. *)
Lemma client_exit_closes_connection_witness :
  Client.k_open
    (Client.final
       (Client.main 8 Cases.reachable
          [Cases.typed ["h"; "i"; x0a]%byte; Cases.interrupted; Cases.at_eof]
          Cases.fresh))
  = Client.k_open Cases.fresh ∖ {[3]}.
Proof.
  destruct (client_exit_closes_connection 8 Cases.reachable
              [Cases.typed ["h"; "i"; x0a]%byte; Cases.interrupted; Cases.at_eof]
              Cases.fresh
              (Client.final
                 (Client.main 8 Cases.reachable
                    [Cases.typed ["h"; "i"; x0a]%byte; Cases.interrupted; Cases.at_eof]
                    Cases.fresh))
              EXIT_SUCCESS)
    as (Ho & _);
    [reflexivity|reflexivity|cbn; lia|reflexivity|reflexivity
    |vm_compute; reflexivity|].
  exact Ho.
Defined.

(** The server refuses the connection. *)
Lemma client_connect_failure_leaves_socket_open_witness :
  ∃ st', Client.main 8 Cases.refused [] Cases.fresh
           = Client.Done (Some EXIT_FAILURE) st' ∧
         3 ∈ Client.k_open st'.
Proof.
  destruct (client_connect_failure_leaves_socket_open 8 Cases.refused []
              Cases.fresh)
    as (st' & E & Ho & _); [reflexivity|reflexivity|cbn; lia|right; cbn; lia|].
  exists st'. split; [exact E|]. rewrite Ho. set_solver.
Defined.

(** The server of [server.c]: a client connects, then SIGINT. *)
Lemma main_releases_everything_witness :
  k_timers
    (final (main Demo.MAX_CONNECTIONS Demo.BUFFER_SIZE Demo.TIMEOUT Demo.startup_ok
              [Demo.connection 4; Demo.ctrl_c; Demo.ctrl_c] Demo.boot)) = ∅.
Proof.
  destruct (main_releases_everything Demo.MAX_CONNECTIONS Demo.BUFFER_SIZE
              Demo.TIMEOUT Demo.startup_ok
              [Demo.connection 4; Demo.ctrl_c; Demo.ctrl_c] Demo.boot
              (final (main Demo.MAX_CONNECTIONS Demo.BUFFER_SIZE Demo.TIMEOUT
                        Demo.startup_ok
                        [Demo.connection 4; Demo.ctrl_c; Demo.ctrl_c] Demo.boot))
              EXIT_SUCCESS)
    as (Hk & _);
    [unfold Demo.MAX_CONNECTIONS; lia|reflexivity|reflexivity|reflexivity
    |by_computation|vm_compute; reflexivity|].
  exact Hk.
Defined.
